(** * Percona Backup for MongoDB: restore convergence, oplog chunk validation,
      oplog replay and backup node priority

    A shallow embedding of
      - package restore (toState, convergeCluster, convergeClusterWithTimeout,
        converged, waitForStatus, chunks, the chunk loop of applyOplog,
        replayChunk), and
      - pbm/bcp_nodes_priority.go (NodesPriority, BcpNodesPriority,
        bcpNodesPriority, nodeScores, GetRSNominees),
    followed by the properties of these functions.

    Go values are modelled as follows.  A uint32 is a Z with the wrap-around of
    the addition written out; a float64 is a primitive float; a Go string is a
    string; a (T, error) pair is a [result]; a map with string keys is a gmap
    under an option (None is the nil map); the map from float64 to node lists
    is an association list looked up with the float comparison [==], which is
    what makes a NaN key unreachable, as in Go. *)

From Stdlib Require Import ZArith List Bool Lia String Ascii Permutation Sorted.
From Stdlib Require Import DecimalString Floats.
From stdpp Require Import base option gmap strings.
Import ListNotations.
Local Open Scope string_scope.
Local Open Scope list_scope.
Local Open Scope Z_scope.

(** ** Errors (github.com/pkg/errors and the sentinels the code tests for) *)

Module errors.

(** The package-level error values that the code compares against with
    [errors.Is].  Each is one fixed value; identity is what [errors.Is] tests. *)
Inductive sentinel : Type :=
| ErrNoDocuments       (* mongo.ErrNoDocuments *)
| ErrNotFound          (* pbm.ErrNotFound *)
| ErrCorrupt           (* snappy.ErrCorrupt *)
| errConvergeTimeOut.  (* restore.errConvergeTimeOut *)

Definition sentinel_eqb (a b : sentinel) : bool :=
  match a, b with
  | ErrNoDocuments, ErrNoDocuments => true
  | ErrNotFound, ErrNotFound => true
  | ErrCorrupt, ErrCorrupt => true
  | errConvergeTimeOut, errConvergeTimeOut => true
  | _, _ => false
  end.

Definition sentinel_text (s : sentinel) : string :=
  match s with
  | ErrNoDocuments => "mongo: no documents in result"
  | ErrNotFound => "not found"
  | ErrCorrupt => "snappy: corrupt input"
  | errConvergeTimeOut => "reached converge timeout"
  end.

(** An error value: a sentinel, a fresh error made by [errors.New] or
    [errors.Errorf] (its text only), or an error wrapped with a message by
    [errors.Wrap], [errors.Wrapf] or [errors.WithMessage]. *)
Inductive error : Type :=
| Sentinel (s : sentinel)
| Fundamental (msg : string)
| WithMessage (cause : error) (msg : string).

(** [err.Error()] *)
Fixpoint Error (e : error) : string :=
  match e with
  | Sentinel s => sentinel_text s
  | Fundamental msg => msg
  | WithMessage cause msg => msg +:+ ": " +:+ Error cause
  end.

(** [errors.Is(err, target)] for a sentinel target: walks the chain of causes. *)
Fixpoint Is (e : error) (target : sentinel) : bool :=
  match e with
  | Sentinel s => sentinel_eqb s target
  | Fundamental _ => false
  | WithMessage cause _ => Is cause target
  end.

(** [errors.Is] on a possibly nil error: nil is no error at all. *)
Definition IsNilable (e : option error) (target : sentinel) : bool :=
  match e with
  | Some e => Is e target
  | None => false
  end.

(** [errors.New(msg)] *)
Definition New (msg : string) : error := Fundamental msg.

(** [errors.Wrap(err, msg)]: nil stays nil. *)
Definition Wrap (e : option error) (msg : string) : option error :=
  match e with
  | Some e => Some (WithMessage e msg)
  | None => None
  end.

(** A Go result pair [(T, error)] of which the value is read only when the
    error is nil. *)
Inductive result (A : Type) : Type :=
| Ok (a : A)
| Err (e : error).
Arguments Ok {A} a.
Arguments Err {A} e.

(** The error component of a result pair. *)
Definition err_of {A : Type} (r : result A) : option error :=
  match r with
  | Ok _ => None
  | Err e => Some e
  end.

End errors.

(** ** Timestamps (go.mongodb.org/mongo-driver/bson/primitive) *)

Module primitive.

(** [primitive.Timestamp]: both fields are uint32. *)
Record Timestamp : Type := mkTimestamp { T : Z; I : Z }.

Definition uint32_max : Z := 4294967295.

(** The zero value [primitive.Timestamp{}]. *)
Definition zeroTimestamp : Timestamp := {| T := 0; I := 0 |}.

(** [primitive.CompareTimestamp(tp, tp2)]: -1, 0 or 1, by T and then by I. *)
Definition CompareTimestamp (tp tp2 : Timestamp) : Z :=
  if T tp >? T tp2 then 1
  else if T tp <? T tp2 then -1
  else if I tp >? I tp2 then 1
  else if I tp <? I tp2 then -1
  else 0.

(** uint32 addition. *)
Definition add32 (a b : Z) : Z := (a + b) mod 4294967296.

End primitive.

(** ** Formatting (fmt.Sprintf with the verbs the code uses) *)

Module fmt.
Import errors primitive.

(** An operand of a format string. *)
Inductive arg : Type :=
| AString (s : string)
| AUint (n : Z)
| ATimestamp (t : Timestamp)
| AError (e : error).

(** Decimal text of an integer. *)
Definition decimal (n : Z) : string := NilZero.string_of_int (Z.to_int n).

(** The text of an operand under [%s], [%d] or [%v]: a string as it is, an
    integer in decimal, a struct of two integers as [{T I}], an error by its
    [Error()] text. *)
Definition render (a : arg) : string :=
  match a with
  | AString s => s
  | AUint n => decimal n
  | ATimestamp t => "{" +:+ decimal (T t) +:+ " " +:+ decimal (I t) +:+ "}"
  | AError e => Error e
  end.

Definition is_verb (c : ascii) : bool :=
  (Ascii.eqb c "s" || Ascii.eqb c "d" || Ascii.eqb c "v")%bool.

(** [fmt.Sprintf(format, args...)]: each verb consumes the next operand. *)
Fixpoint Sprintf (format : string) (args : list arg) : string :=
  match format with
  | EmptyString => EmptyString
  | String c rest =>
      match rest with
      | String v rest' =>
          if (Ascii.eqb c "%" && is_verb v)%bool then
            match args with
            | a :: args' => render a +:+ Sprintf rest' args'
            | [] => "%!" +:+ String v ("(MISSING)" +:+ Sprintf rest' [])
            end
          else String c (Sprintf rest args)
      | EmptyString => String c EmptyString
      end
  end.

(** [errors.Errorf(format, args...)] *)
Definition Errorf (format : string) (args : list arg) : error :=
  Fundamental (Sprintf format args).

(** [errors.Wrapf(err, format, args...)]: nil stays nil. *)
Definition Wrapf (e : option error) (format : string) (args : list arg) : option error :=
  Wrap e (Sprintf format args).

(** [strings.Contains(s, substr)] *)
Fixpoint Contains (s substr : string) : bool :=
  (String.prefix substr s ||
   match s with
   | EmptyString => false
   | String _ s' => Contains s' substr
   end)%bool.

End fmt.

(** ** Package pbm: the types the two source files use *)

Module pbm.
Import errors primitive.

(** [pbm.Status] is a string type; these two values are the ones the restore
    code names.  They are declared in package pbm, outside the files modelled
    here. *)
Definition Status : Type := string.
Definition StatusDone : Status := "done".
Definition StatusError : Status := "error".

(** [pbm.Command] is a string type too. *)
Definition Command : Type := string.
Definition CmdRestore : Command := "restore".

(** [pbm.NodeState]: the replica set member state an agent reports. *)
Inductive NodeState : Type :=
| NodeStateStartup
| NodeStatePrimary
| NodeStateSecondary
| NodeStateRecovering
| NodeStateArbiter
| NodeStateDown
| NodeStateUnknown.

Definition NodeState_eqb (a b : NodeState) : bool :=
  match a, b with
  | NodeStateStartup, NodeStateStartup
  | NodeStatePrimary, NodeStatePrimary
  | NodeStateSecondary, NodeStateSecondary
  | NodeStateRecovering, NodeStateRecovering
  | NodeStateArbiter, NodeStateArbiter
  | NodeStateDown, NodeStateDown
  | NodeStateUnknown, NodeStateUnknown => true
  | _, _ => false
  end.

(** [compress.CompressionType] *)
Inductive CompressionType : Type :=
| CompressionTypeNone
| CompressionTypeGZIP
| CompressionTypePGZIP
| CompressionTypeSNAPPY
| CompressionTypeLZ4
| CompressionTypeS2
| CompressionTypeZstandard.

Module Shard.
(** [pbm.Shard] *)
Record t : Type := mk { ID : string; RS : string; Host : string }.
End Shard.

Module RestoreReplset.
(** The per replica set record inside the restore metadata. *)
Record t : Type := mk { Name : string; Status : pbm.Status; Error : string }.
End RestoreReplset.

Module RestoreMeta.
(** [pbm.RestoreMeta]: the fields the restore code reads. *)
Record t : Type := mk {
  Name : string;
  Status : pbm.Status;
  Error : string;
  Hb : Timestamp;
  Replsets : list RestoreReplset.t
}.
End RestoreMeta.

Module LockHeader.
(** [pbm.LockHeader] (the field [Type] is spelled [Type_] here). *)
Record t : Type := mk { Type_ : Command; OPID : string; Replset : string }.
End LockHeader.

Module LockData.
(** [pbm.LockData]: the header it embeds and the heartbeat. *)
Record t : Type := mk { Header : LockHeader.t; Heartbeat : Timestamp }.
End LockData.

Module OplogChunk.
(** [pbm.OplogChunk] *)
Record t : Type := mk {
  RS : string;
  FName : string;
  Compression : CompressionType;
  StartTS : Timestamp;
  EndTS : Timestamp
}.
End OplogChunk.

Module AgentStat.
(** [pbm.AgentStat]: the fields the scoring reads.  [OK] is the first result
    of the method [a.OK()], which is declared outside the modelled files. *)
Record t : Type := mk {
  Node : string;
  RS : string;
  State : NodeState;
  Hidden : bool;
  OK : bool
}.
End AgentStat.

Module FileInfo.
(** [storage.FileInfo] *)
Record t : Type := mk { Name : string; Size : Z }.
End FileInfo.

Module BackupConf.
(** [cfg.Backup]: the priority map, nil when the configuration has none. *)
Record t : Type := mk { Priority : option (gmap string float) }.
End BackupConf.

Module Config.
Record t : Type := mk { Backup : BackupConf.t }.
End Config.

(** The methods and constants of package pbm that the modelled code calls.
    They are declared outside the modelled files, so the model is stated over
    any implementation of them: [St] is the state of the shared metadata
    store behind the connection [cn].  Reads return a result and leave the
    store as it is; [ChangeRestoreState] is the one write the restore code
    issues and returns the store after it. *)
Class PBM (St : Type) : Type := {
  StaleFrameSec : Z;
  GetConfig : St -> result Config.t;
  GetRestoreMeta : string -> St -> result RestoreMeta.t;
  ClusterTime : St -> result Timestamp;
  GetLockData : LockHeader.t -> St -> result LockData.t;
  ChangeRestoreState : string -> Status -> string -> St -> option error * St;
  PITRGetChunksSlice : string -> Timestamp -> Timestamp -> St -> result (list OplogChunk.t);
  MakeReverseRSMapFunc : option (gmap string string) -> string -> string
}.

(** [storage.Storage]: the two methods the restore code calls. *)
Class Storage (Stg Reader : Type) : Type := {
  FileStat : string -> Stg -> result FileInfo.t;
  SourceReader : string -> Stg -> result Reader
}.

(** What chunk replay needs besides the storage: [compress.Decompress] and
    the method [Apply] of [oplog.OplogRestore], which changes the state [O]
    of the replay (the target node and the transactions seen so far). *)
Class Replay (O Reader : Type) : Type := {
  Decompress : Reader -> CompressionType -> result Reader;
  Apply : Reader -> O -> (Timestamp * option error) * O
}.

(** *** bcp_nodes_priority.go *)

Definition defaultScore : float := 1%float.

(** A Go [map[float64][]string]: entries in insertion order, looked up with
    the float comparison [==].  A NaN key equals no key, itself included, so
    an entry under NaN is never found again and every insertion under NaN
    makes a new entry. *)
Definition scoremap : Type := list (float * list string).

(** [nodes, ok := m[sc]] *)
Fixpoint scoremap_lookup (m : scoremap) (sc : float) : option (list string) :=
  match m with
  | [] => None
  | (k, v) :: m' => if PrimFloat.eqb k sc then Some v else scoremap_lookup m' sc
  end.

(** [m[sc]] read as a value: a missing key gives the nil slice. *)
Definition scoremap_get (m : scoremap) (sc : float) : list string :=
  match scoremap_lookup m sc with
  | Some v => v
  | None => []
  end.

(** [m[sc] = v].  Over a key equal to [sc] the value is replaced; the model
    keeps the key that was there (the two can differ only as +0 and -0, and
    the map is never ranged over, so its keys are not observed). *)
Fixpoint scoremap_set (m : scoremap) (sc : float) (v : list string) : scoremap :=
  match m with
  | [] => [(sc, v)]
  | (k, w) :: m' =>
      if PrimFloat.eqb k sc then (k, v) :: m' else (k, w) :: scoremap_set m' sc v
  end.

(** [sort.Float64Slice.Less]: NaN sorts before every other value. *)
Definition Float64Slice_Less (x y : float) : bool :=
  (PrimFloat.ltb x y || (PrimFloat.is_nan x && negb (PrimFloat.is_nan y)))%bool.

(** [sort.Reverse(...).Less] *)
Definition Reverse_Less (x y : float) : bool := Float64Slice_Less y x.

(** [sort.Sort] with the order [less], as an insertion sort.  The scores of
    one replica set are pairwise different keys, so where none is NaN every
    sorting algorithm gives this same result. *)
Fixpoint sort_insert (less : float -> float -> bool) (x : float) (l : list float) : list float :=
  match l with
  | [] => [x]
  | y :: l' => if less y x then y :: sort_insert less x l' else x :: y :: l'
  end.

Definition sort_Sort (less : float -> float -> bool) (l : list float) : list float :=
  fold_right (sort_insert less) [] l.

Module nodeScores.
Record t : Type := mk { idx : list float; m : scoremap }.

(** The zero value, also what [Add] starts from (there with an empty map
    made by [make]; no write reaches the nil map). *)
Definition zero : t := {| idx := []; m := [] |}.

(** [func (s *nodeScores) add(node string, sc float64)], a pointer receiver. *)
Definition add (s : t) (node : string) (sc : float) : t :=
  let r := scoremap_lookup (m s) sc in
  let nodes := match r with Some v => v | None => [] end in
  let idx' := match r with Some _ => idx s | None => idx s ++ [sc] end in
  {| idx := idx'; m := scoremap_set (m s) sc (nodes ++ [node]) |}.

(** [func (s nodeScores) list() [][]string].  The sort is in place on the
    array that [s.idx] shares with the stored value, so the sorted index is
    returned along with the groups. *)
Definition list (s : t) : list (list string) * t :=
  let sorted := sort_Sort Reverse_Less (idx s) in
  (map (fun k => scoremap_get (m s) k) sorted, {| idx := sorted; m := m s |}).
End nodeScores.

Module NodesPriority.
Record t : Type := mk { m : gmap string nodeScores.t }.

(** [NewNodesPriority()] *)
Definition New : t := {| m := ∅ |}.

(** [func (n *NodesPriority) Add(rs, node string, sc float64)], a pointer receiver. *)
Definition Add (n : t) (rs node : string) (sc : float) : t :=
  let s := match m n !! rs with
           | Some s => s
           | None => nodeScores.zero
           end in
  {| m := <[rs := nodeScores.add s node sc]> (m n) |}.

(** [func (n *NodesPriority) RS(rs string) [][]string], a pointer receiver: the groups, and the
    receiver after the in-place sort of that replica set's index. *)
Definition RS (n : t) (rs : string) : list (list string) * t :=
  match m n !! rs with
  | Some s =>
      let '(groups, s') := nodeScores.list s in
      (groups, {| m := <[rs := s']> (m n) |})
  | None => (fst (nodeScores.list nodeScores.zero), n)
  end.
End NodesPriority.

Definition agentScore : Type := AgentStat.t -> float.

(** The scoring function [f] that [BcpNodesPriority] starts with. *)
Definition score_default (c : option (gmap string float)) : agentScore :=
  fun a =>
    match (match c with Some cm => cm !! AgentStat.Node a | None => None end) with
    | Some coeff => PrimFloat.mul defaultScore coeff
    | None =>
        if NodeState_eqb (AgentStat.State a) NodeStatePrimary then PrimFloat.div defaultScore 2%float
        else if AgentStat.Hidden a then PrimFloat.mul defaultScore 2%float
        else defaultScore
    end.

(** The scoring function that replaces it under the condition on the
    configuration. *)
Definition score_config (prio : option (gmap string float)) : agentScore :=
  fun a =>
    match (match prio with Some pm => pm !! AgentStat.Node a | None => None end) with
    | Some sc => if PrimFloat.ltb sc 0%float then defaultScore else sc
    | None => defaultScore
    end.

(** [m != nil] *)
Definition map_not_nil (mp : option (gmap string float)) : bool :=
  match mp with
  | Some _ => true
  | None => false
  end.

(** [len(m)] of a map that may be nil. *)
Definition map_len (mp : option (gmap string float)) : Z :=
  match mp with
  | Some pm => Z.of_nat (size pm)
  | None => 0
  end.

(** [func bcpNodesPriority(agents []AgentStat, f agentScore)] *)
Definition bcpNodesPriority (agents : list AgentStat.t) (f : agentScore) : NodesPriority.t :=
  fold_left
    (fun scores a =>
       if negb (AgentStat.OK a) then scores
       else NodesPriority.Add scores (AgentStat.RS a) (AgentStat.Node a) (f a))
    agents NodesPriority.New.

(** The scoring function [BcpNodesPriority] ends up with for the
    configuration [cfg]. *)
Definition BcpNodesPriority_score (c : option (gmap string float)) (cfg : Config.t) : agentScore :=
  let prio := BackupConf.Priority (Config.Backup cfg) in
  if (map_not_nil prio || (map_len prio >? 0))%bool
  then score_config prio
  else score_default c.

(** [func (p *PBM) BcpNodesPriority(c, agents)], which returns the priority
    list or an error. *)
Definition BcpNodesPriority {St : Type} `{PBM St} (p : St)
    (c : option (gmap string float)) (agents : list AgentStat.t) : result NodesPriority.t :=
  match GetConfig p with
  | Err err => Err (WithMessage err "get config")
  | Ok cfg => Ok (bcpNodesPriority agents (BcpNodesPriority_score c cfg))
  end.

(** *** Nominations *)

Module BackupRsNomination.
(** [pbm.BackupRsNomination]: the replica set, the nodes nominated, and the
    node that acknowledged. *)
Record t : Type := mk { RS : string; Nodes : list string; Ack : string }.
End BackupRsNomination.

Module BackupMeta.
(** [pbm.BackupMeta]: the fields [GetRSNominees] reads. *)
Record t : Type := mk { Name : string; Nomination : list BackupRsNomination.t }.
End BackupMeta.

Module NodeInfo.
(** [pbm.NodeInfo]: the replica set name, and the result of the method
    [inf.IsLeader()], which is declared outside the modelled files. *)
Record t : Type := mk { SetName : string; IsLeader : bool }.
End NodeInfo.

(** Two more methods of [pbm.PBM] that the modelled code calls: the read of
    the metadata of a backup, and the write of the status of one replica set
    in the metadata of a restore. *)
Class PBMMeta (St : Type) : Type := {
  GetBackupMeta : string -> St -> result BackupMeta.t;
  ChangeRestoreRSState : string -> string -> Status -> string -> St -> option error * St
}.

(** The loop of [GetRSNominees] over [bcp.Nomination]. *)
Fixpoint GetRSNominees_loop (nomination : list BackupRsNomination.t) (rsName : string)
    : result BackupRsNomination.t :=
  match nomination with
  | [] => Err (Sentinel ErrNotFound)
  | n :: rest =>
      if String.eqb (BackupRsNomination.RS n) rsName then Ok n
      else GetRSNominees_loop rest rsName
  end.

(** [func (p *PBM) GetRSNominees(bcpName, rsName string)], which returns the
    nomination or an error. *)
Definition GetRSNominees {St : Type} `{PBMMeta St} (p : St) (bcpName rsName : string)
    : result BackupRsNomination.t :=
  match GetBackupMeta bcpName p with
  | Err err => Err err
  | Ok bcp => GetRSNominees_loop (BackupMeta.Nomination bcp) rsName
  end.

End pbm.

(** ** Package restore *)

Module restore.
Import errors primitive fmt pbm.

(** How a loop body ends: it goes on with the next element, or the function
    returns. *)
Inductive flow (A R : Type) : Type :=
| Next (a : A)
| Ret (r : R).
Arguments Next {A R} a.
Arguments Ret {A R} r.

(** What the [select] of a polling loop takes at one iteration: the one
    second ticker, the timeout ticker, or the cancellation of the context.
    [Other f] is a step [f] that another agent makes on the shared store
    between two iterations. *)
Inductive event (St : Type) : Type :=
| Tick
| TimeOut
| Cancel
| Other (f : St -> St).
Arguments Tick {St}.
Arguments TimeOut {St}.
Arguments Cancel {St}.
Arguments Other {St} f.

(** The values [converged] holds when it returns: its two results, and its
    local copy [bmeta] of the restore metadata (None when the read of the
    metadata failed).  The copy is not a result of the Go function; it is kept
    to tell what the assignments to [bmeta.Status] and [bmeta.Error] touch. *)
Record outcome : Type := mkOutcome {
  ok : bool;
  err : option error;
  bmeta_local : option RestoreMeta.t
}.

Section WithStore.
Context {St : Type} `{PBM St}.

(** The staleness test of [converged] and of [waitForStatus],
    [heartbeat.T+pbm.StaleFrameSec < clusterTime.T], in uint32 arithmetic. *)
Definition stale (heartbeat clusterTime : Timestamp) : bool :=
  add32 (T heartbeat) StaleFrameSec <? T clusterTime.

(** The first part of the body of the inner loop of [converged]: the read of
    the shard's lock and the liveness check.  Some error when [converged]
    returns here. *)
Definition check_lock (cn : St) (opid : string) (status : Status) (clusterTime : Timestamp)
    (shard : RestoreReplset.t) : option error :=
  let r := GetLockData {| LockHeader.Type_ := CmdRestore;
                          LockHeader.OPID := opid;
                          LockHeader.Replset := RestoreReplset.Name shard |} cn in
  if (negb (String.eqb status StatusDone) && negb (IsNilable (err_of r) ErrNoDocuments))%bool then
    match r with
    | Err e =>
        Wrapf (Some e) "unable to read lock for shard %s" [AString (RestoreReplset.Name shard)]
    | Ok lock =>
        if stale (LockData.Heartbeat lock) clusterTime then
          Some (Errorf "lost shard %s, last beat ts: %d"
                  [AString (RestoreReplset.Name shard); AUint (T (LockData.Heartbeat lock))])
        else None
    end
  else None.

(** The inner loop of [converged], over [bmeta.Replsets], for the shard [sh]. *)
Fixpoint converged_replsets (cn : St) (opid : string) (status : Status) (clusterTime : Timestamp)
    (bmeta : RestoreMeta.t) (sh : Shard.t) (replsets : list RestoreReplset.t)
    (shardsToFinish : Z) : flow Z (RestoreMeta.t * error) :=
  match replsets with
  | [] => Next shardsToFinish
  | shard :: rest =>
      if String.eqb (RestoreReplset.Name shard) (Shard.RS sh) then
        match check_lock cn opid status clusterTime shard with
        | Some e => Ret (bmeta, e)
        | None =>
            if String.eqb (RestoreReplset.Status shard) status then
              converged_replsets cn opid status clusterTime bmeta sh rest (shardsToFinish - 1)
            else if String.eqb (RestoreReplset.Status shard) StatusError then
              Ret ({| RestoreMeta.Name := RestoreMeta.Name bmeta;
                      RestoreMeta.Status := StatusError;
                      RestoreMeta.Error := RestoreReplset.Error shard;
                      RestoreMeta.Hb := RestoreMeta.Hb bmeta;
                      RestoreMeta.Replsets := RestoreMeta.Replsets bmeta |},
                   Errorf "restore on the shard %s failed with: %s"
                     [AString (RestoreReplset.Name shard); AString (RestoreReplset.Error shard)])
            else converged_replsets cn opid status clusterTime bmeta sh rest shardsToFinish
        end
      else converged_replsets cn opid status clusterTime bmeta sh rest shardsToFinish
  end.

(** The outer loop of [converged], over [shards]. *)
Fixpoint converged_shards (cn : St) (opid : string) (status : Status) (clusterTime : Timestamp)
    (bmeta : RestoreMeta.t) (shards : list Shard.t) (shardsToFinish : Z)
    : flow Z (RestoreMeta.t * error) :=
  match shards with
  | [] => Next shardsToFinish
  | sh :: rest =>
      match converged_replsets cn opid status clusterTime bmeta sh
              (RestoreMeta.Replsets bmeta) shardsToFinish with
      | Ret r => Ret r
      | Next n => converged_shards cn opid status clusterTime bmeta rest n
      end
  end.

(** [converged] with the local copy of the metadata it ends with. *)
Definition converged_run (cn : St) (name opid : string) (shards : list Shard.t)
    (status : Status) : outcome * St :=
  let shardsToFinish := Z.of_nat (length shards) in
  match GetRestoreMeta name cn with
  | Err e => (mkOutcome false (Wrap (Some e) "get backup metadata") None, cn)
  | Ok bmeta =>
      match ClusterTime cn with
      | Err e => (mkOutcome false (Wrap (Some e) "read cluster time") (Some bmeta), cn)
      | Ok clusterTime =>
          match converged_shards cn opid status clusterTime bmeta shards shardsToFinish with
          | Ret (bmeta', e) => (mkOutcome false (Some e) (Some bmeta'), cn)
          | Next shardsToFinish =>
              if shardsToFinish =? 0 then
                match ChangeRestoreState name status EmptyString cn with
                | (Some e, cn') =>
                    (mkOutcome false (Wrapf (Some e) "update backup meta with %s" [AString status])
                       (Some bmeta), cn')
                | (None, cn') => (mkOutcome true None (Some bmeta), cn')
                end
              else (mkOutcome false None (Some bmeta), cn)
          end
      end
  end.

(** [func converged(cn *pbm.PBM, name, opid string, shards []pbm.Shard,
    status pbm.Status) (bool, error)], with the store after the call. *)
Definition converged (cn : St) (name opid : string) (shards : list Shard.t)
    (status : Status) : (bool * option error) * St :=
  let '(o, cn') := converged_run cn name opid shards status in
  ((ok o, err o), cn').

(** [func convergeCluster(cn, name, opid, shards, status) error] over a
    schedule of what its [select] takes.  The first result is None when the
    schedule ends while the loop is still polling; the loop has no timeout
    case, so [TimeOut] is passed over. *)
Fixpoint convergeCluster (sched : list (event St)) (cn : St) (name opid : string)
    (shards : list Shard.t) (status : Status) : option (option error) * St :=
  match sched with
  | [] => (None, cn)
  | Tick :: rest =>
      let '((ok, err), cn') := converged cn name opid shards status in
      match err with
      | Some e => (Some (Some e), cn')
      | None => if ok then (Some None, cn') else convergeCluster rest cn' name opid shards status
      end
  | Cancel :: _ => (Some None, cn)
  | TimeOut :: rest => convergeCluster rest cn name opid shards status
  | Other f :: rest => convergeCluster rest (f cn) name opid shards status
  end.

(** [func convergeClusterWithTimeout(cn, name, opid, shards, status, t) error] *)
Fixpoint convergeClusterWithTimeout (sched : list (event St)) (cn : St) (name opid : string)
    (shards : list Shard.t) (status : Status) : option (option error) * St :=
  match sched with
  | [] => (None, cn)
  | Tick :: rest =>
      let '((ok, err), cn') := converged cn name opid shards status in
      match err with
      | Some e => (Some (Some e), cn')
      | None =>
          if ok then (Some None, cn')
          else convergeClusterWithTimeout rest cn' name opid shards status
      end
  | TimeOut :: _ => (Some (Some (Sentinel errConvergeTimeOut)), cn)
  | Cancel :: _ => (Some None, cn)
  | Other f :: rest => convergeClusterWithTimeout rest (f cn) name opid shards status
  end.

(** The case of the ticker in the [select] of [waitForStatus]. *)
Definition waitForStatus_tick (cn : St) (name : string) (status : Status)
    : flow unit (option error) :=
  let r := GetRestoreMeta name cn in
  if IsNilable (err_of r) ErrNotFound then Next tt
  else
    match r with
    | Err e => Ret (Wrap (Some e) "get restore metadata")
    | Ok meta =>
        match ClusterTime cn with
        | Err e => Ret (Wrap (Some e) "read cluster time")
        | Ok clusterTime =>
            if stale (RestoreMeta.Hb meta) clusterTime then
              Ret (Some (Errorf "restore stuck, last beat ts: %d"
                           [AUint (T (RestoreMeta.Hb meta))]))
            else if String.eqb (RestoreMeta.Status meta) status then Ret None
            else if String.eqb (RestoreMeta.Status meta) StatusError then
              Ret (Some (Errorf "cluster failed: %s" [AString (RestoreMeta.Error meta)]))
            else Next tt
        end
    end.

(** [func waitForStatus(cn *pbm.PBM, name string, status pbm.Status) error]
    over a schedule; None when the schedule ends while it is still waiting. *)
Fixpoint waitForStatus (sched : list (event St)) (cn : St) (name : string)
    (status : Status) : option (option error) :=
  match sched with
  | [] => None
  | Tick :: rest =>
      match waitForStatus_tick cn name status with
      | Ret r => Some r
      | Next _ => waitForStatus rest cn name status
      end
  | Cancel :: _ => Some None
  | TimeOut :: rest => waitForStatus rest cn name status
  | Other f :: rest => waitForStatus rest (f cn) name status
  end.

Section WithStorage.
Context {Stg Reader : Type} `{Storage Stg Reader}.

(** The loop of [chunks] over the chunks, with the pointer [last]. *)
Fixpoint chunks_walk (stg : Stg) (last : Timestamp) (chunks : list OplogChunk.t)
    : option error :=
  match chunks with
  | [] => None
  | c :: rest =>
      if CompareTimestamp last (OplogChunk.StartTS c) =? -1 then
        Some (Errorf "integrity vilolated, expect chunk with start_ts %v, but got %v"
                [ATimestamp last; ATimestamp (OplogChunk.StartTS c)])
      else
        match FileStat (OplogChunk.FName c) stg with
        | Err e =>
            Some (Errorf "failed to ensure chunk %v.%v on the storage, file: %s, error: %v"
                    [ATimestamp (OplogChunk.StartTS c); ATimestamp (OplogChunk.EndTS c);
                     AString (OplogChunk.FName c); AError e])
        | Ok _ => chunks_walk stg (OplogChunk.EndTS c) rest
        end
  end.

(** [chunks[len(chunks)-1]] of a list that is not empty. *)
Definition last_chunk (chunks : list OplogChunk.t) (d : OplogChunk.t) : OplogChunk.t :=
  List.last chunks d.

(** [func chunks(cn, stg, from, to, rsName, rsMap) ([]pbm.OplogChunk, error)] *)
Definition chunks (cn : St) (stg : Stg) (from to : Timestamp) (rsName : string)
    (rsMap : option (gmap string string)) : result (list OplogChunk.t) :=
  let mapRevRS := MakeReverseRSMapFunc rsMap in
  match PITRGetChunksSlice (mapRevRS rsName) from to cn with
  | Err e => Err (WithMessage e "get chunks index")
  | Ok [] => Err (New "no chunks found")
  | Ok ((c0 :: _) as chunks) =>
      if CompareTimestamp (OplogChunk.EndTS (last_chunk chunks c0)) to =? -1 then
        Err (Errorf "no chunk with the target time, the last chunk ends on %v"
               [ATimestamp (OplogChunk.EndTS (last_chunk chunks c0))])
      else
        match chunks_walk stg from chunks with
        | Some e => Err e
        | None => Ok chunks
        end
  end.

End WithStorage.
End WithStore.

(** *** Chunk replay *)

Section WithReplay.
Context {Stg Reader O : Type} `{Storage Stg Reader} `{Replay O Reader}.

(** [func replayChunk(file, oplog, stg, c) (primitive.Timestamp, error)],
    with the replay state after the call. *)
Definition replayChunk (file : string) (oplog : O) (stg : Stg) (c : CompressionType)
    : (Timestamp * option error) * O :=
  match SourceReader file stg with
  | Err e => ((zeroTimestamp, Wrapf (Some e) "get object %s form the storage" [AString file]), oplog)
  | Ok or =>
      match Decompress or c with
      | Err e => ((zeroTimestamp, Wrapf (Some e) "decompress object %s" [AString file]), oplog)
      | Ok oplogReader =>
          let '((lts, e), oplog') := Apply oplogReader oplog in
          ((lts, Wrap e "apply oplog for chunk"), oplog')
      end
  end.

End WithReplay.

(** The loop of [applyOplog] over the chunks, over any function
    [replay] in the place of [replayChunk] and any state [S] that it changes:
    the timestamp of the last chunk replayed, or the error [applyOplog]
    returns from the loop. *)
Section ChunkLoop.
Context {S : Type}.
Variable replay : string -> CompressionType -> S -> (Timestamp * option error) * S.

(** One iteration: the replay, the retry and the test of the error. *)
Definition applyOplog_chunk (chnk : OplogChunk.t) (s : S) : result Timestamp * S :=
  let '((lts, err), s1) := replay (OplogChunk.FName chnk) (OplogChunk.Compression chnk) s in
  let '((lts, err), s2) :=
    if (match err with Some _ => true | None => false end && IsNilable err ErrCorrupt)%bool
    then replay (OplogChunk.FName chnk) CompressionTypeS2 s1
    else ((lts, err), s1) in
  match err with
  | Some e =>
      (Err (WithMessage e (Sprintf "replay chunk %v.%v"
                             [AUint (T (OplogChunk.StartTS chnk)); AUint (T (OplogChunk.EndTS chnk))])),
       s2)
  | None => (Ok lts, s2)
  end.

Fixpoint applyOplog_chunks (chunks : list OplogChunk.t) (lts : Timestamp) (s : S)
    : result Timestamp * S :=
  match chunks with
  | [] => (Ok lts, s)
  | chnk :: rest =>
      match applyOplog_chunk chnk s with
      | (Err e, s') => (Err e, s')
      | (Ok lts', s') => applyOplog_chunks rest lts' s'
      end
  end.

End ChunkLoop.

(** The loop as [applyOplog] runs it: with [replayChunk] on the storage [stg]. *)
Definition applyOplog_replay {Stg Reader O : Type} `{Storage Stg Reader} `{Replay O Reader}
    (stg : Stg) (chunks : list OplogChunk.t) (oplogRestore : O) : result Timestamp * O :=
  applyOplog_chunks (fun file c o => replayChunk file o stg c) chunks zeroTimestamp oplogRestore.

(** *** The duty of each agent *)

Section WithShardState.
Context {St : Type} `{PBM St} `{PBMMeta St}.

(** [type reconcileStatus func(status pbm.Status, timeout *time.Duration)
    error], run on the store: None when it has not returned. *)
Definition reconcileStatus : Type :=
  Status -> option Z -> St -> option (option error) * St.

(** [func toState(cn, status, bcp, inf, reconcileFn, wait) error].  The wait
    at the end runs over the schedule [sched]; the first result is None when
    the reconciliation or the wait has not returned, and the second is the
    store after the writes of [toState] and of the reconciliation. *)
Definition toState (sched : list (event St)) (cn : St) (status : Status) (bcp : string)
    (inf : NodeInfo.t) (reconcileFn : reconcileStatus) (wait : option Z)
    : option (option error) * St :=
  match ChangeRestoreRSState bcp (NodeInfo.SetName inf) status EmptyString cn with
  | (Some e, cn1) => (Some (Wrap (Some e) "set shard's status"), cn1)
  | (None, cn1) =>
      let reconciled :=
        if NodeInfo.IsLeader inf then reconcileFn status wait cn1 else (Some None, cn1) in
      match reconciled with
      | (None, cn2) => (None, cn2)
      | (Some (Some e), cn2) =>
          if Is e errConvergeTimeOut then
            (Some (Wrap (Some e) "couldn't get response from all shards"), cn2)
          else (Some (Wrapf (Some e) "check cluster for restore `%s`" [AString status]), cn2)
      | (Some None, cn2) =>
          match waitForStatus sched cn2 bcp status with
          | None => (None, cn2)
          | Some (Some e) => (Some (Wrapf (Some e) "waiting for %s" [AString status]), cn2)
          | Some None => (Some None, cn2)
          end
      end
  end.

End WithShardState.

End restore.

(** ** A call counter on the write path, and an in-memory store *)

Module monitor.
Import errors primitive fmt pbm restore.

(** One call of [ChangeRestoreState]: name, status, message. *)
Definition write_call : Type := (string * Status * string)%type.

(** A store together with the log of the [ChangeRestoreState] calls made on
    it: the same operations, the write recorded before it is passed on. *)
#[global] Instance LoggedPBM {St : Type} `{PBM St} : PBM (St * list write_call) := {|
  StaleFrameSec := StaleFrameSec (St := St);
  GetConfig := fun s => GetConfig (fst s);
  GetRestoreMeta := fun name s => GetRestoreMeta name (fst s);
  ClusterTime := fun s => ClusterTime (fst s);
  GetLockData := fun lh s => GetLockData lh (fst s);
  ChangeRestoreState := fun name status msg s =>
    let '(e, st') := ChangeRestoreState name status msg (fst s) in
    (e, (st', snd s ++ [(name, status, msg)]));
  PITRGetChunksSlice := fun rs from to s => PITRGetChunksSlice rs from to (fst s);
  MakeReverseRSMapFunc := MakeReverseRSMapFunc (St := St)
|}.

(** A replay state together with the log of the [replayChunk] calls made on
    it: file and codec of each attempt, in order. *)
Definition attempt : Type := (string * CompressionType)%type.

Definition logged_replay {S : Type}
    (replay : string -> CompressionType -> S -> (Timestamp * option error) * S)
    (file : string) (c : CompressionType) (s : S * list attempt)
    : (Timestamp * option error) * (S * list attempt) :=
  let '(r, s') := replay file c (fst s) in
  (r, (s', snd s ++ [(file, c)])).

(** An event of a schedule, on the store with the log: a step of another
    agent changes the store and leaves the log of this agent's calls. *)
Definition logged_event {St : Type} (ev : event St) : event (St * list write_call) :=
  match ev with
  | Tick => Tick
  | TimeOut => TimeOut
  | Cancel => Cancel
  | Other f => Other (fun s => (f (fst s), snd s))
  end.

End monitor.

Module memstore.
Import errors primitive fmt pbm restore.

(** Modelled from the spec: the shared metadata store behind [pbm.PBM], whose
    methods are declared outside the modelled files.  It holds the
    configuration, the restore records by name, the lock records, the cluster
    time and the index of oplog chunks; a record or lock that is not there is
    reported with the not-found error the callers test for, and the global
    status commit sets the status and the error of the named record. *)
Record t : Type := mk {
  config : Config.t;
  restores : list RestoreMeta.t;
  locks : list LockData.t;
  clusterTime : Timestamp;
  pitrChunks : list OplogChunk.t
}.

Definition header_eqb (a b : LockHeader.t) : bool :=
  (String.eqb (LockHeader.Type_ a) (LockHeader.Type_ b)
   && String.eqb (LockHeader.OPID a) (LockHeader.OPID b)
   && String.eqb (LockHeader.Replset a) (LockHeader.Replset b))%bool.

Definition getRestoreMeta (name : string) (s : t) : result RestoreMeta.t :=
  match find (fun r => String.eqb (RestoreMeta.Name r) name) (restores s) with
  | Some r => Ok r
  | None => Err (Sentinel ErrNotFound)
  end.

Definition getLockData (lh : LockHeader.t) (s : t) : result LockData.t :=
  match find (fun l => header_eqb (LockData.Header l) lh) (locks s) with
  | Some l => Ok l
  | None => Err (Sentinel ErrNoDocuments)
  end.

Definition changeRestoreState (name : string) (status : Status) (msg : string) (s : t)
    : option error * t :=
  (None,
   {| config := config s;
      restores :=
        map (fun r =>
               if String.eqb (RestoreMeta.Name r) name then
                 {| RestoreMeta.Name := RestoreMeta.Name r;
                    RestoreMeta.Status := status;
                    RestoreMeta.Error := msg;
                    RestoreMeta.Hb := RestoreMeta.Hb r;
                    RestoreMeta.Replsets := RestoreMeta.Replsets r |}
               else r)
            (restores s);
      locks := locks s;
      clusterTime := clusterTime s;
      pitrChunks := pitrChunks s |}).

(** The chunks of the replica set that start at or before [to] and end at or
    after [from], in the order of the index. *)
Definition pitrGetChunksSlice (rs : string) (from to : Timestamp) (s : t)
    : result (list OplogChunk.t) :=
  Ok (List.filter
        (fun c =>
           (String.eqb (OplogChunk.RS c) rs
            && negb (CompareTimestamp (OplogChunk.StartTS c) to =? 1)
            && negb (CompareTimestamp (OplogChunk.EndTS c) from =? -1))%bool)
        (pitrChunks s)).

(** The name a replica set had in the backup: the key that the map sends to
    [name], or [name] itself when there is none. *)
Definition makeReverseRSMapFunc (rsMap : option (gmap string string)) (name : string) : string :=
  match rsMap with
  | None => name
  | Some mp =>
      match find (fun kv => String.eqb (snd kv) name) (map_to_list mp) with
      | Some kv => fst kv
      | None => name
      end
  end.

#[global] Instance MemPBM : PBM t := {|
  StaleFrameSec := 30;
  GetConfig := fun s => Ok (config s);
  GetRestoreMeta := getRestoreMeta;
  ClusterTime := fun s => Ok (clusterTime s);
  GetLockData := getLockData;
  ChangeRestoreState := changeRestoreState;
  PITRGetChunksSlice := pitrGetChunksSlice;
  MakeReverseRSMapFunc := makeReverseRSMapFunc
|}.

(** Modelled from the spec: an object storage that holds, per file name, the
    codec the bytes were really written with and the timestamps of the
    operations in them.  A reader is that content with the codec it is read
    under; reading snappy over other bytes is the corrupt input condition of
    snappy, reading any other codec over other bytes is some other error. *)
Definition storage : Type := list (string * (CompressionType * list Z)).

Definition reader : Type := (option CompressionType * (CompressionType * list Z))%type.

Definition codec_eqb (a b : CompressionType) : bool :=
  match a, b with
  | CompressionTypeNone, CompressionTypeNone
  | CompressionTypeGZIP, CompressionTypeGZIP
  | CompressionTypePGZIP, CompressionTypePGZIP
  | CompressionTypeSNAPPY, CompressionTypeSNAPPY
  | CompressionTypeLZ4, CompressionTypeLZ4
  | CompressionTypeS2, CompressionTypeS2
  | CompressionTypeZstandard, CompressionTypeZstandard => true
  | _, _ => false
  end.

Definition lookup_file (file : string) (stg : storage) : option (CompressionType * list Z) :=
  match find (fun kv => String.eqb (fst kv) file) stg with
  | Some kv => Some (snd kv)
  | None => None
  end.

#[global] Instance MemStorage : Storage storage reader := {|
  FileStat := fun file stg =>
    match lookup_file file stg with
    | Some content => Ok {| FileInfo.Name := file; FileInfo.Size := Z.of_nat (length (snd content)) |}
    | None => Err (Fundamental "no such file")
    end;
  SourceReader := fun file stg =>
    match lookup_file file stg with
    | Some content => Ok (None, content)
    | None => Err (Fundamental "no such file")
    end
|}.

(** The replay state is the list of operations applied so far. *)
#[global] Instance MemReplay : Replay (list Z) reader := {|
  Decompress := fun r c => Ok (Some c, snd r);
  Apply := fun r applied =>
    match fst r with
    | Some c =>
        if codec_eqb c (fst (snd r)) then
          ((mkTimestamp (List.last (snd (snd r)) 0) 0, None), applied ++ snd (snd r))
        else if codec_eqb c CompressionTypeSNAPPY then
          ((zeroTimestamp, Some (Sentinel ErrCorrupt)), applied)
        else ((zeroTimestamp, Some (Fundamental "bad stream")), applied)
    | None => ((zeroTimestamp, Some (Fundamental "not decompressed")), applied)
    end
|}.

(** The store together with the backup records, for the two methods of
    [PBMMeta]: a backup that is not there is reported as not found, and the
    write of a replica set's status sets the status and the error of the
    record of that replica set in the named restore. *)
Record meta : Type := mkMeta {
  base : t;
  backups : list BackupMeta.t
}.

Definition getBackupMeta (name : string) (s : meta) : result BackupMeta.t :=
  match find (fun b => String.eqb (BackupMeta.Name b) name) (backups s) with
  | Some b => Ok b
  | None => Err (Sentinel ErrNotFound)
  end.

Definition changeRestoreRSState (name rsName : string) (status : Status) (msg : string)
    (s : meta) : option error * meta :=
  (None,
   {| base :=
        {| config := config (base s);
           restores :=
             map (fun r =>
                    if String.eqb (RestoreMeta.Name r) name then
                      {| RestoreMeta.Name := RestoreMeta.Name r;
                         RestoreMeta.Status := RestoreMeta.Status r;
                         RestoreMeta.Error := RestoreMeta.Error r;
                         RestoreMeta.Hb := RestoreMeta.Hb r;
                         RestoreMeta.Replsets :=
                           map (fun rs =>
                                  if String.eqb (RestoreReplset.Name rs) rsName then
                                    {| RestoreReplset.Name := RestoreReplset.Name rs;
                                       RestoreReplset.Status := status;
                                       RestoreReplset.Error := msg |}
                                  else rs)
                             (RestoreMeta.Replsets r) |}
                    else r)
               (restores (base s));
           locks := locks (base s);
           clusterTime := clusterTime (base s);
           pitrChunks := pitrChunks (base s) |};
      backups := backups s |}).

#[global] Instance MetaPBM : PBM meta := {|
  StaleFrameSec := 30;
  GetConfig := fun s => Ok (config (base s));
  GetRestoreMeta := fun name s => getRestoreMeta name (base s);
  ClusterTime := fun s => Ok (clusterTime (base s));
  GetLockData := fun lh s => getLockData lh (base s);
  ChangeRestoreState := fun name status msg s =>
    (fst (changeRestoreState name status msg (base s)),
     {| base := snd (changeRestoreState name status msg (base s)); backups := backups s |});
  PITRGetChunksSlice := fun rs from to s => pitrGetChunksSlice rs from to (base s);
  MakeReverseRSMapFunc := makeReverseRSMapFunc
|}.

#[global] Instance MetaPBMMeta : PBMMeta meta := {|
  GetBackupMeta := getBackupMeta;
  ChangeRestoreRSState := changeRestoreRSState
|}.

End memstore.

(** ** Predicates the properties are stated with *)

Module spec.
Import errors primitive fmt pbm restore.

(** The order of timestamps: by T, then by I. *)
Definition ts_lt (a b : Timestamp) : Prop := T a < T b \/ (T a = T b /\ I a < I b).
Definition ts_le (a b : Timestamp) : Prop := T a < T b \/ (T a = T b /\ I a <= I b).

(** The range of a uint32 value. *)
Definition uint32 (n : Z) : Prop := 0 <= n <= uint32_max.

Section Chunks.
Context {Stg Reader : Type} `{Storage Stg Reader}.

(** Every listed file exists in storage. *)
Definition files_exist (stg : Stg) (l : list OplogChunk.t) : Prop :=
  forall c, In c l -> exists fi, FileStat (OplogChunk.FName c) stg = Ok fi.

(** The condition in the words of the specification: the list is not empty,
    its last chunk ends at or after [to], each chunk starts where the one
    before it ends, and every file exists. *)
Definition stated_chunks_ok (stg : Stg) (to : Timestamp) (l : list OplogChunk.t) : Prop :=
  l <> [] /\
  (exists c, last l = Some c /\ ts_le to (OplogChunk.EndTS c)) /\
  (forall (i : nat) c1 c2, l !! i = Some c1 -> l !! S i = Some c2 ->
     OplogChunk.StartTS c2 = OplogChunk.EndTS c1) /\
  files_exist stg l.

(** The condition the code checks: the list is not empty, its last chunk ends
    at or after [to], the first chunk starts at or before [from], no chunk
    starts after the end of the one before it, and every file exists. *)
Definition chunks_ok (stg : Stg) (from to : Timestamp) (l : list OplogChunk.t) : Prop :=
  l <> [] /\
  (exists c, last l = Some c /\ ts_le to (OplogChunk.EndTS c)) /\
  (forall c, head l = Some c -> ts_le (OplogChunk.StartTS c) from) /\
  (forall (i : nat) c1 c2, l !! i = Some c1 -> l !! S i = Some c2 ->
     ts_le (OplogChunk.StartTS c2) (OplogChunk.EndTS c1)) /\
  files_exist stg l.

(** The walk of the code as a predicate: [last] is the end of the timeline
    covered so far. *)
Fixpoint covered (last : Timestamp) (l : list OplogChunk.t) : Prop :=
  match l with
  | [] => True
  | c :: rest => ts_le (OplogChunk.StartTS c) last /\ covered (OplogChunk.EndTS c) rest
  end.

(** The four errors of [chunks] after the index was read, each with what it
    identifies. *)
Inductive chunks_error (stg : Stg) (from to : Timestamp) (l : list OplogChunk.t) : error -> Prop :=
| chunks_error_empty :
    l = [] ->
    chunks_error stg from to l (New "no chunks found")
| chunks_error_target (c : OplogChunk.t) :
    last l = Some c ->
    ts_lt (OplogChunk.EndTS c) to ->
    chunks_error stg from to l
      (Errorf "no chunk with the target time, the last chunk ends on %v"
         [ATimestamp (OplogChunk.EndTS c)])
| chunks_error_gap (pre post : list OplogChunk.t) (c : OplogChunk.t) (expected : Timestamp) :
    l = pre ++ c :: post ->
    expected = match last pre with
               | Some p => OplogChunk.EndTS p
               | None => from
               end ->
    ts_lt expected (OplogChunk.StartTS c) ->
    chunks_error stg from to l
      (Errorf "integrity vilolated, expect chunk with start_ts %v, but got %v"
         [ATimestamp expected; ATimestamp (OplogChunk.StartTS c)])
| chunks_error_file (c : OplogChunk.t) (e : error) :
    In c l ->
    FileStat (OplogChunk.FName c) stg = Err e ->
    chunks_error stg from to l
      (Errorf "failed to ensure chunk %v.%v on the storage, file: %s, error: %v"
         [ATimestamp (OplogChunk.StartTS c); ATimestamp (OplogChunk.EndTS c);
          AString (OplogChunk.FName c); AError e]).

End Chunks.

Section Converged.
Context {St : Type} `{PBM St}.

(** The records of [bmeta.Replsets] that the two loops of [converged] reach,
    in the order they reach them: for each shard of [shards], the records
    with that shard's replica set name. *)
Definition visited (bmeta : RestoreMeta.t) (shards : list Shard.t) : list RestoreReplset.t :=
  flat_map
    (fun sh =>
       List.filter (fun shard => String.eqb (RestoreReplset.Name shard) (Shard.RS sh))
         (RestoreMeta.Replsets bmeta))
    shards.

(** The local copy of the metadata after the assignments to [bmeta.Status]
    and [bmeta.Error]. *)
Definition with_shard_error (bmeta : RestoreMeta.t) (shard : RestoreReplset.t) : RestoreMeta.t :=
  {| RestoreMeta.Name := RestoreMeta.Name bmeta;
     RestoreMeta.Status := StatusError;
     RestoreMeta.Error := RestoreReplset.Error shard;
     RestoreMeta.Hb := RestoreMeta.Hb bmeta;
     RestoreMeta.Replsets := RestoreMeta.Replsets bmeta |}.

(** What [converged] does with one record it reaches. *)
Definition visit (cn : St) (opid : string) (status : Status) (clusterTime : Timestamp)
    (bmeta : RestoreMeta.t) (shard : RestoreReplset.t) (n : Z)
    : flow Z (RestoreMeta.t * error) :=
  match check_lock cn opid status clusterTime shard with
  | Some e => Ret (bmeta, e)
  | None =>
      if String.eqb (RestoreReplset.Status shard) status then Next (n - 1)
      else if String.eqb (RestoreReplset.Status shard) StatusError then
        Ret (with_shard_error bmeta shard,
             Errorf "restore on the shard %s failed with: %s"
               [AString (RestoreReplset.Name shard); AString (RestoreReplset.Error shard)])
      else Next n
  end.

Fixpoint visit_all (cn : St) (opid : string) (status : Status) (clusterTime : Timestamp)
    (bmeta : RestoreMeta.t) (l : list RestoreReplset.t) (n : Z)
    : flow Z (RestoreMeta.t * error) :=
  match l with
  | [] => Next n
  | shard :: rest =>
      match visit cn opid status clusterTime bmeta shard n with
      | Ret r => Ret r
      | Next n' => visit_all cn opid status clusterTime bmeta rest n'
      end
  end.

(** A record that lets [converged] go on: its lock check passes and its
    status is the target or is not the error status. *)
Definition passes (cn : St) (opid : string) (status : Status) (clusterTime : Timestamp)
    (shard : RestoreReplset.t) : Prop :=
  check_lock cn opid status clusterTime shard = None /\
  (RestoreReplset.Status shard = status \/ RestoreReplset.Status shard <> StatusError).

(** How many records of a list have the target status. *)
Definition count_status (status : Status) (l : list RestoreReplset.t) : Z :=
  Z.of_nat (length (List.filter (fun shard => String.eqb (RestoreReplset.Status shard) status) l)).

(** The header of the lock that [converged] reads for a record. *)
Definition lock_header (opid : string) (shard : RestoreReplset.t) : LockHeader.t :=
  {| LockHeader.Type_ := CmdRestore; LockHeader.OPID := opid;
     LockHeader.Replset := RestoreReplset.Name shard |}.

(** Every shard of [shards] has a record with its name whose status is the
    target and whose lock check passes. *)
Definition all_reached (cn : St) (opid : string) (status : Status) (clusterTime : Timestamp)
    (bmeta : RestoreMeta.t) (shards : list Shard.t) : Prop :=
  forall sh, In sh shards ->
    exists shard, In shard (RestoreMeta.Replsets bmeta) /\
      RestoreReplset.Name shard = Shard.RS sh /\
      RestoreReplset.Status shard = status /\
      check_lock cn opid status clusterTime shard = None.

(** One record per replica set name in the metadata. *)
Definition unique_replsets (bmeta : RestoreMeta.t) : Prop :=
  List.NoDup (map RestoreReplset.Name (RestoreMeta.Replsets bmeta)).


End Converged.

(** The error that the chunk loop of [applyOplog] returns for a chunk whose
    replay failed with [e]: [e] wrapped with the chunk's range. *)
Definition chunk_error (chnk : OplogChunk.t) (e : error) : error :=
  WithMessage e (Sprintf "replay chunk %v.%v"
                   [AUint (T (OplogChunk.StartTS chnk)); AUint (T (OplogChunk.EndTS chnk))]).

(** The two attempts the loop can make for a chunk. *)
Definition own_attempt (chnk : OplogChunk.t) : monitor.attempt :=
  (OplogChunk.FName chnk, OplogChunk.Compression chnk).
Definition s2_attempt (chnk : OplogChunk.t) : monitor.attempt :=
  (OplogChunk.FName chnk, CompressionTypeS2).

(** The scoring in the words of the specification: the configured priorities
    are used when that map is not empty, the default rules otherwise. *)
Definition stated_score (c : option (gmap string float)) (cfg : Config.t) : agentScore :=
  let prio := BackupConf.Priority (Config.Backup cfg) in
  if map_len prio >? 0 then score_config prio else score_default c.

(** *** Groups of nodes *)

(** The nodes added with a score equal to [k], in the order they were added. *)
Definition nodes_with (k : float) (adds : list (string * float)) : list string :=
  map fst (List.filter (fun p => PrimFloat.eqb (snd p) k) adds).

(** The calls [Add(rs, node, score)] that [bcpNodesPriority] makes for the
    replica set [rs]: one for each agent of [rs] that reports healthy, in the
    order of [agents], with the score that [f] gives it. *)
Definition healthy_adds (rs : string) (agents : list AgentStat.t) (f : agentScore)
    : list (string * float) :=
  map (fun a => (AgentStat.Node a, f a))
    (List.filter (fun a => (AgentStat.OK a && String.eqb (AgentStat.RS a) rs)%bool) agents).

(** The scores of one replica set after a sequence of [add]. *)
Definition build (adds : list (string * float)) : nodeScores.t :=
  fold_left (fun s p => nodeScores.add s (fst p) (snd p)) adds nodeScores.zero.

(** No two scores of the list are equal. *)
Fixpoint distinct_keys (ks : list float) : Prop :=
  match ks with
  | [] => True
  | k :: rest => Forall (fun k' => PrimFloat.eqb k k' = false) rest /\ distinct_keys rest
  end.

(** Each score is above every score after it. *)
Definition strictly_descending (ks : list float) : Prop :=
  StronglySorted (fun x y => PrimFloat.ltb y x = true) ks.

(** A lookup result for a list of nodes: no entry for the empty list. *)
Definition nonempty_entry (nodes : list string) : option (list string) :=
  match nodes with
  | [] => None
  | _ => Some nodes
  end.

(** The claim on the groups, in the words of the specification: scores [ks]
    in strictly descending order, one group per score holding the nodes added
    with that score, and the groups together are the nodes added. *)
Definition stated_groups (adds : list (string * float)) (groups : list (list string)) : Prop :=
  exists ks,
    strictly_descending ks /\
    groups = map (fun k => nodes_with k adds) ks /\
    Permutation (concat groups) (map fst adds).

(** *** Schedules of the polling loops *)

Section Schedules.
Context {St : Type}.

(** The store after the steps that the other agents make during a schedule,
    and nothing else. *)
Fixpoint others (sched : list (event St)) (cn : St) : St :=
  match sched with
  | [] => cn
  | Other f :: rest => others rest (f cn)
  | _ :: rest => others rest cn
  end.

(** The schedule holds a cancellation, or a firing of the timeout ticker. *)
Definition has_cancel (sched : list (event St)) : bool :=
  existsb (fun ev => match ev with Cancel => true | _ => false end) sched.

Definition has_timeout (sched : list (event St)) : bool :=
  existsb (fun ev => match ev with TimeOut => true | _ => false end) sched.

End Schedules.

(** The record of a nomination list that [GetRSNominees] is to find for
    [rsName]: the first one with that replica set name. *)
Definition first_nominee (nomination : list BackupRsNomination.t) (rsName : string)
    (n : BackupRsNomination.t) : Prop :=
  exists pre post,
    nomination = pre ++ n :: post /\
    BackupRsNomination.RS n = rsName /\
    Forall (fun x => BackupRsNomination.RS x <> rsName) pre.

(** What a run of a convergence loop, on the store with the log of this
    agent's writes, may have written when it started with the log [log]:
    nothing, or the one commit of the target status, and then the loop has
    returned, with nil or with the error of that write. *)
Definition one_commit {St : Type} (name : string) (status : Status)
    (log : list monitor.write_call)
    (r : option (option error) * (St * list monitor.write_call)) : Prop :=
  snd (snd r) = log \/
  (snd (snd r) = log ++ [(name, status, EmptyString)] /\
   (fst r = Some None \/
    exists e, fst r = Some (Wrapf (Some e) "update backup meta with %s" [AString status]))).

(** The agents whose nodes [bcpNodesPriority] adds under the replica set
    [rs]. *)
Definition own_healthy (rs : string) (a : AgentStat.t) : bool :=
  (AgentStat.OK a && String.eqb (AgentStat.RS a) rs)%bool.

End spec.

(** ** Concrete stores and inputs *)

Module examples.
Import errors primitive fmt pbm restore.

Definition ts (t : Z) : Timestamp := {| T := t; I := 0 |}.

Definition chunk (rs fname : string) (c : CompressionType) (s e : Z) : OplogChunk.t :=
  {| OplogChunk.RS := rs; OplogChunk.FName := fname; OplogChunk.Compression := c;
     OplogChunk.StartTS := ts s; OplogChunk.EndTS := ts e |}.

Definition no_config : Config.t := {| Config.Backup := {| BackupConf.Priority := None |} |}.

(** A store that holds only an index of chunks. *)
Definition chunk_store (l : list OplogChunk.t) : memstore.t :=
  {| memstore.config := no_config; memstore.restores := []; memstore.locks := [];
     memstore.clusterTime := ts 100; memstore.pitrChunks := l |}.

(** Two chunks of rs0 that overlap: the second starts at 5, the first ends
    at 10. *)
Definition overlapping : list OplogChunk.t :=
  [chunk "rs0" "rs0/0-10.s2" CompressionTypeS2 0 10;
   chunk "rs0" "rs0/5-20.s2" CompressionTypeS2 5 20].

(** Two chunks of rs0 that follow each other exactly. *)
Definition contiguous : list OplogChunk.t :=
  [chunk "rs0" "rs0/10-20.s2" CompressionTypeS2 10 20;
   chunk "rs0" "rs0/20-30.s2" CompressionTypeS2 20 30].

Definition files : memstore.storage :=
  [("rs0/0-10.s2", (CompressionTypeS2, [1; 9]));
   ("rs0/5-20.s2", (CompressionTypeS2, [6; 19]));
   ("rs0/10-20.s2", (CompressionTypeS2, [11; 19]));
   ("rs0/20-30.s2", (CompressionTypeS2, [21; 29]))].

(** A restore named restore1 under the operation op1. *)
Definition replset (name : string) (status : Status) (e : string) : RestoreReplset.t :=
  {| RestoreReplset.Name := name; RestoreReplset.Status := status; RestoreReplset.Error := e |}.

Definition lock (rs : string) (hb : Z) : LockData.t :=
  {| LockData.Header := {| LockHeader.Type_ := CmdRestore; LockHeader.OPID := "op1";
                           LockHeader.Replset := rs |};
     LockData.Heartbeat := ts hb |}.

Definition shard (rs : string) : Shard.t :=
  {| Shard.ID := rs; Shard.RS := rs; Shard.Host := rs +:+ "/localhost:27018" |}.

Definition restore_meta (status : Status) (hb : Z) (replsets : list RestoreReplset.t)
    : RestoreMeta.t :=
  {| RestoreMeta.Name := "restore1"; RestoreMeta.Status := status;
     RestoreMeta.Error := EmptyString; RestoreMeta.Hb := ts hb;
     RestoreMeta.Replsets := replsets |}.

(** A store with that one restore record, in global status starting, the
    given locks and the cluster time [ct]. *)
Definition restore_store (replsets : list RestoreReplset.t) (locks : list LockData.t) (ct : Z)
    : memstore.t :=
  {| memstore.config := no_config;
     memstore.restores := [restore_meta "starting" 95 replsets];
     memstore.locks := locks;
     memstore.clusterTime := ts ct;
     memstore.pitrChunks := [] |}.

(** rs0 and rs1 both report running; the lock of rs1 was last refreshed at 10
    and the cluster time is 100. *)
Definition stale_rs1 : memstore.t :=
  restore_store [replset "rs0" "running" EmptyString; replset "rs1" "running" EmptyString]
    [lock "rs0" 95; lock "rs1" 10] 100.

(** rs0 and rs1 both report running; rs1 has no lock record. *)
Definition missing_rs1 : memstore.t :=
  restore_store [replset "rs0" "running" EmptyString; replset "rs1" "running" EmptyString]
    [lock "rs0" 95] 100.

(** rs1 reports the error status with the message disk full; its lock is
    fresh. *)
Definition failed_rs1 : memstore.t :=
  restore_store [replset "rs0" "running" EmptyString; replset "rs1" "error" "disk full"]
    [lock "rs0" 95; lock "rs1" 96] 100.

(** rs1 reports the error status and its lock is stale as well. *)
Definition failed_stale_rs1 : memstore.t :=
  restore_store [replset "rs0" "running" EmptyString; replset "rs1" "error" "disk full"]
    [lock "rs0" 95; lock "rs1" 10] 100.

(** rs0, rs1 and rs2 all report running, with fresh locks. *)
Definition all_running : memstore.t :=
  restore_store
    [replset "rs0" "running" EmptyString; replset "rs1" "running" EmptyString;
     replset "rs2" "running" EmptyString]
    [lock "rs0" 95; lock "rs1" 96; lock "rs2" 97] 100.

Definition two_shards : list Shard.t := [shard "rs0"; shard "rs1"].
Definition three_shards : list Shard.t := [shard "rs0"; shard "rs1"; shard "rs2"].

(** A store with no restore record yet. *)
Definition no_record : memstore.t := chunk_store [].

(** A restore record with the global status [status], the error [e] and a
    heartbeat last refreshed at [hb], and a store that holds it at cluster
    time 100. *)
Definition global_meta (status : Status) (e : string) (hb : Z) : RestoreMeta.t :=
  {| RestoreMeta.Name := "restore1"; RestoreMeta.Status := status;
     RestoreMeta.Error := e; RestoreMeta.Hb := ts hb; RestoreMeta.Replsets := [] |}.

Definition global_store (status : Status) (e : string) (hb : Z) : memstore.t :=
  {| memstore.config := no_config;
     memstore.restores := [global_meta status e hb];
     memstore.locks := [];
     memstore.clusterTime := ts 100;
     memstore.pitrChunks := [] |}.

(** rs0 reports running and rs1 is still starting; both locks are fresh. *)
Definition waiting_rs1 : memstore.t :=
  restore_store [replset "rs0" "running" EmptyString; replset "rs1" "starting" EmptyString]
    [lock "rs0" 95; lock "rs1" 96] 100.

(** A chunk written by an old version: S2 bytes in a file with the snappy
    extension, recorded as snappy; and a chunk whose bytes are gzip but which
    is recorded as zstd. *)
Definition mislabeled : OplogChunk.t :=
  chunk "rs0" "rs0/0-10.snappy" CompressionTypeSNAPPY 0 10.

Definition damaged : OplogChunk.t :=
  chunk "rs0" "rs0/10-20.zst" CompressionTypeZstandard 10 20.

Definition old_files : memstore.storage :=
  [("rs0/0-10.snappy", (CompressionTypeS2, [1; 9]));
   ("rs0/10-20.zst", (CompressionTypeGZIP, [11; 19]))].

(** [replayChunk] on the storage [stg], as the loop of [applyOplog] calls it. *)
Definition replay_from (stg : memstore.storage) (file : string) (c : CompressionType)
    (applied : list Z) : (Timestamp * option error) * list Z :=
  replayChunk file applied stg c.

(** Agents of the replica set rs0. *)
Definition agent (node : string) (state : NodeState) (hidden ok : bool) : AgentStat.t :=
  {| AgentStat.Node := node; AgentStat.RS := "rs0"; AgentStat.State := state;
     AgentStat.Hidden := hidden; AgentStat.OK := ok |}.

(** A configuration whose priority map is there but empty, as decoded from a
    document with [priority: {}]. *)
Definition empty_priority : Config.t :=
  {| Config.Backup := {| BackupConf.Priority := Some ∅ |} |}.

(** The coefficient 3 for the node n1. *)
Definition coefficients : option (gmap string float) := Some {[ "n1" := 3%float ]}.

(** A configuration whose priority for n1 is NaN, and the healthy agents n1
    and n2 of rs0. *)
Definition nan_priority : Config.t :=
  {| Config.Backup := {| BackupConf.Priority := Some {[ "n1" := PrimFloat.nan ]} |} |}.

Definition two_agents : list AgentStat.t :=
  [agent "n1" NodeStateSecondary false true; agent "n2" NodeStateSecondary false true].

(** A primary, a hidden node that reports unhealthy, a hidden node and a
    plain secondary, with no priority configured and no coefficients. *)
Definition four_agents : list AgentStat.t :=
  [agent "n1" NodeStatePrimary false true; agent "n2" NodeStateSecondary true false;
   agent "n3" NodeStateSecondary true true; agent "n4" NodeStateSecondary false true].

(** A store that holds only the configuration [cfg]. *)
Definition config_store (cfg : Config.t) : memstore.t :=
  {| memstore.config := cfg; memstore.restores := []; memstore.locks := [];
     memstore.clusterTime := ts 100; memstore.pitrChunks := [] |}.

(** The secondary n1, the primary n2 and the hidden n3, all healthy. *)
Definition three_agents : list AgentStat.t :=
  [agent "n1" NodeStateSecondary false true; agent "n2" NodeStatePrimary false true;
   agent "n3" NodeStateSecondary true true].

(** The store of rs0 and rs1 on which rs1 is still starting, with no backup
    records, and the node of rs1 as a follower and as the leader. *)
Definition waiting_meta : memstore.meta :=
  {| memstore.base := waiting_rs1; memstore.backups := [] |}.

Definition node_of (rs : string) (leader : bool) : NodeInfo.t :=
  {| NodeInfo.SetName := rs; NodeInfo.IsLeader := leader |}.

(** A backup whose nominations name rs0, rs1 and rs0 once more. *)
Definition nominated : BackupMeta.t :=
  {| BackupMeta.Name := "backup1";
     BackupMeta.Nomination :=
       [ {| BackupRsNomination.RS := "rs0"; BackupRsNomination.Nodes := ["n1"];
            BackupRsNomination.Ack := "n1" |};
         {| BackupRsNomination.RS := "rs1"; BackupRsNomination.Nodes := ["n4"; "n5"];
            BackupRsNomination.Ack := EmptyString |};
         {| BackupRsNomination.RS := "rs0"; BackupRsNomination.Nodes := ["n2"];
            BackupRsNomination.Ack := EmptyString |} ] |}.

Definition backup_store : memstore.meta :=
  {| memstore.base := no_record; memstore.backups := [nominated] |}.

(** Agents of two replica sets, one of rs0 unhealthy. *)
Definition mixed_agents : list AgentStat.t :=
  [agent "n1" NodeStatePrimary false true;
   {| AgentStat.Node := "m1"; AgentStat.RS := "rs1"; AgentStat.State := NodeStateSecondary;
      AgentStat.Hidden := false; AgentStat.OK := true |};
   agent "n2" NodeStateSecondary true false;
   agent "n3" NodeStateSecondary false true].

(** A configuration that gives n1 the priority 2.5 and n2 the priority -1. *)
Definition some_priority : Config.t :=
  {| Config.Backup :=
       {| BackupConf.Priority := Some (<[ "n1" := 2.5%float ]> {[ "n2" := (-1)%float ]}) |} |}.

End examples.

(** * Properties *)

Import errors primitive fmt pbm restore monitor spec.

(** ** Timestamps *)

Lemma CompareTimestamp_lt (a b : Timestamp) :
  (CompareTimestamp a b =? -1) = true <-> ts_lt a b.
Proof.
  unfold CompareTimestamp, ts_lt.
  destruct (Z.gtb_spec (T a) (T b)), (Z.ltb_spec (T a) (T b)),
    (Z.gtb_spec (I a) (I b)), (Z.ltb_spec (I a) (I b));
    rewrite ?Z.eqb_eq, ?Z.eqb_neq; split; intros; try lia; try discriminate.
Qed.

Lemma CompareTimestamp_ge (a b : Timestamp) :
  (CompareTimestamp a b =? -1) = false <-> ts_le b a.
Proof.
  unfold CompareTimestamp, ts_le.
  destruct (Z.gtb_spec (T a) (T b)), (Z.ltb_spec (T a) (T b)),
    (Z.gtb_spec (I a) (I b)), (Z.ltb_spec (I a) (I b));
    rewrite ?Z.eqb_eq, ?Z.eqb_neq; split; intros; try lia; try discriminate.
Qed.

Lemma ts_lt_not_le (a b : Timestamp) : ts_lt a b <-> ~ ts_le b a.
Proof. unfold ts_lt, ts_le. lia. Qed.

(** ** The chunk continuity validator *)

Section ChunksProps.
Context {St : Type} `{PBM St} {Stg Reader : Type} `{Storage Stg Reader}.

Lemma last_List_last (l : list OplogChunk.t) (d : OplogChunk.t) :
  l <> [] -> last l = Some (List.last l d).
Proof.
  induction l as [|c l IH]; [congruence|]. intros _.
  destruct l as [|c' l]; [reflexivity|].
  change (last (c :: c' :: l)) with (last (c' :: l)).
  change (List.last (c :: c' :: l) d) with (List.last (c' :: l) d).
  apply IH. congruence.
Qed.

(** The recursive reading of the timeline agrees with the one by positions. *)
Lemma covered_positions (l : list OplogChunk.t) (from : Timestamp) :
  covered from l <->
  (forall c, head l = Some c -> ts_le (OplogChunk.StartTS c) from) /\
  (forall (i : nat) c1 c2, l !! i = Some c1 -> l !! S i = Some c2 ->
     ts_le (OplogChunk.StartTS c2) (OplogChunk.EndTS c1)).
Proof.
  revert from. induction l as [|c l IH]; intros from; simpl.
  - split; [intros _|trivial]. split; intros; discriminate.
  - rewrite IH. split.
    + intros (Hc & Hhd & Hadj). split.
      * intros c' [= <-]. exact Hc.
      * intros [|i] c1 c2 H1 H2; simpl in *.
        -- injection H1 as <-. apply Hhd. destruct l; simpl in *; congruence.
        -- eapply Hadj; eassumption.
    + intros (Hhd & Hadj). split; [apply Hhd; reflexivity|]. split.
      * intros c' Hc'. apply (Hadj 0%nat c c'); [reflexivity|].
        destruct l; simpl in *; congruence.
      * intros i c1 c2 H1 H2. apply (Hadj (S i) c1 c2); assumption.
Qed.

(** The walk passes exactly on a covered timeline whose files all exist. *)
Lemma chunks_walk_None (stg : Stg) (l : list OplogChunk.t) (from : Timestamp) :
  chunks_walk stg from l = None <-> covered from l /\ files_exist stg l.
Proof.
  revert from. induction l as [|c l IH]; intros from; simpl.
  - split; [intros _|trivial]. split; [exact Logic.I|]. intros c [].
  - destruct (CompareTimestamp from (OplogChunk.StartTS c) =? -1) eqn:Hcmp.
    + apply CompareTimestamp_lt, ts_lt_not_le in Hcmp.
      split; [discriminate|]. intros [[Hc _] _]. contradiction.
    + apply CompareTimestamp_ge in Hcmp.
      destruct (FileStat (OplogChunk.FName c) stg) as [fi|e] eqn:Hstat.
      * rewrite IH. split.
        -- intros [Hcov Hfiles]. split; [split; assumption|].
           intros c' [<-|Hin]; [eauto|apply Hfiles, Hin].
        -- intros [[_ Hcov] Hfiles]. split; [assumption|].
           intros c' Hin. apply Hfiles. right. exact Hin.
      * split; [discriminate|]. intros [_ Hfiles].
        destruct (Hfiles c (or_introl eq_refl)) as [fi Hfi]. congruence.
Qed.

(** When the walk fails, its error names the gap or the missing file. *)
Lemma chunks_walk_Some (stg : Stg) (from to : Timestamp) (whole : list OplogChunk.t) :
  forall (l pre : list OplogChunk.t) (cur : Timestamp) (e : error),
    whole = pre ++ l ->
    cur = match last pre with
          | Some p => OplogChunk.EndTS p
          | None => from
          end ->
    chunks_walk stg cur l = Some e ->
    chunks_error stg from to whole e.
Proof.
  induction l as [|c l IH]; intros pre cur e Hwhole Hcur; simpl; [discriminate|].
  destruct (CompareTimestamp cur (OplogChunk.StartTS c) =? -1) eqn:Hcmp.
  - intros [= <-]. apply CompareTimestamp_lt in Hcmp.
    eapply chunks_error_gap; eassumption.
  - destruct (FileStat (OplogChunk.FName c) stg) as [fi|err] eqn:Hstat.
    + intros Hwalk. apply (IH (pre ++ [c]) (OplogChunk.EndTS c) e).
      * rewrite Hwhole, <- app_assoc. reflexivity.
      * rewrite last_snoc. reflexivity.
      * exact Hwalk.
    + intros [= <-]. apply chunks_error_file; [|exact Hstat].
      rewrite Hwhole. apply in_or_app. right. left. reflexivity.
Qed.

(** C1, as the code has it.  Once the index of chunks was read as the list
    [l], [chunks] returns [l] if and only if [l] is not empty, its last chunk
    ends at or after [to], its first chunk starts at or before [from], no
    chunk starts after the end of the chunk before it (a gap fails, an overlap
    does not), and every listed file exists in storage; otherwise it fails
    with the error of the violation: empty list, target time not covered,
    gap, or missing file. *)
Theorem chunks_succeeds_iff (cn : St) (stg : Stg) (from to : Timestamp) (rsName : string)
    (rsMap : option (gmap string string)) (l : list OplogChunk.t) :
  PITRGetChunksSlice (MakeReverseRSMapFunc rsMap rsName) from to cn = Ok l ->
  (chunks cn stg from to rsName rsMap = Ok l <-> chunks_ok stg from to l) /\
  (~ chunks_ok stg from to l ->
   exists e, chunks cn stg from to rsName rsMap = Err e /\ chunks_error stg from to l e).
Proof.
  intros Hfetch. unfold chunks. rewrite Hfetch.
  destruct l as [|c0 l0].
  { split.
    - split; [discriminate|]. intros [Hne _]. congruence.
    - intros _. eexists. split; [reflexivity|]. apply chunks_error_empty. reflexivity. }
  set (l := c0 :: l0). unfold last_chunk.
  assert (Hlast : last l = Some (List.last l c0)) by (apply last_List_last; discriminate).
  destruct (CompareTimestamp (OplogChunk.EndTS (List.last l c0)) to =? -1) eqn:Hto.
  { apply CompareTimestamp_lt in Hto. split.
    - split; [discriminate|]. intros (_ & (c & Hc & Hle) & _).
      rewrite Hlast in Hc. injection Hc as <-.
      apply ts_lt_not_le in Hto. contradiction.
    - intros _. eexists. split; [reflexivity|].
      eapply chunks_error_target; eassumption. }
  apply CompareTimestamp_ge in Hto.
  destruct (chunks_walk stg from l) as [e|] eqn:Hwalk.
  - assert (Hnot : ~ (covered from l /\ files_exist stg l)).
    { rewrite <- chunks_walk_None, Hwalk. discriminate. }
    split.
    + split; [discriminate|]. intros (_ & _ & Hhd & Hadj & Hfiles).
      exfalso. apply Hnot. split; [|exact Hfiles].
      apply covered_positions. split; assumption.
    + intros _. exists e. split; [reflexivity|].
      apply (chunks_walk_Some stg from to l l [] from e); [reflexivity|reflexivity|exact Hwalk].
  - apply chunks_walk_None in Hwalk. destruct Hwalk as [Hcov Hfiles].
    apply covered_positions in Hcov. destruct Hcov as [Hhd Hadj].
    assert (Hok : chunks_ok stg from to l).
    { split; [discriminate|]. split; [eauto|]. split; [exact Hhd|]. split; assumption. }
    split; [split; [intros _; exact Hok|reflexivity]|].
    intros Hnot. contradiction.
Qed.

End ChunksProps.

(** The validator on the contiguous chunks 10-20 and 20-30 for the range
    from 10 to 25. *)
Lemma chunks_succeeds_iff_witness :
  (chunks (examples.chunk_store examples.contiguous) examples.files
     (examples.ts 10) (examples.ts 25) "rs0" None = Ok examples.contiguous
   <-> chunks_ok examples.files (examples.ts 10) (examples.ts 25) examples.contiguous) /\
  (~ chunks_ok examples.files (examples.ts 10) (examples.ts 25) examples.contiguous ->
   exists e,
     chunks (examples.chunk_store examples.contiguous) examples.files
       (examples.ts 10) (examples.ts 25) "rs0" None = Err e /\
     chunks_error examples.files (examples.ts 10) (examples.ts 25) examples.contiguous e).
Proof.
  apply (chunks_succeeds_iff (examples.chunk_store examples.contiguous) examples.files
           (examples.ts 10) (examples.ts 25) "rs0" None examples.contiguous).
  reflexivity.
Defined.

(** C1 as stated fails in both directions.  Two chunks that overlap (0-10 and
    5-20) are accepted for the range from 0 to 15, though the second does not
    start where the first ends; and the contiguous chunks 10-20 and 20-30,
    which meet every stated condition for the target 25, are refused for the
    range from 5 to 25, because the first chunk starts after [from]. *)
Lemma chunks_stated_counterexample :
  (chunks (examples.chunk_store examples.overlapping) examples.files
     (examples.ts 0) (examples.ts 15) "rs0" None = Ok examples.overlapping /\
   ~ stated_chunks_ok examples.files (examples.ts 15) examples.overlapping) /\
  (stated_chunks_ok examples.files (examples.ts 25) examples.contiguous /\
   chunks (examples.chunk_store examples.contiguous) examples.files
     (examples.ts 5) (examples.ts 25) "rs0" None =
   Err (Fundamental "integrity vilolated, expect chunk with start_ts {5 0}, but got {10 0}")).
Proof.
  split; split.
  - reflexivity.
  - intros (_ & _ & Hadj & _).
    specialize (Hadj 0%nat _ _ eq_refl eq_refl). discriminate Hadj.
  - split; [discriminate|]. split; [|split].
    + eexists. split; [reflexivity|]. unfold ts_le. simpl. lia.
    + intros [|[|i]] c1 c2 H1 H2; simpl in *; try discriminate.
      injection H1 as <-. injection H2 as <-. reflexivity.
    + intros c [<-|[<-|[]]]; eexists; reflexivity.
  - reflexivity.
Qed.

(** ** Text of errors *)

Lemma prefix_append (sub s : string) : String.prefix sub (sub +:+ s) = true.
Proof.
  induction sub as [|c sub IH]; simpl.
  - destruct s; reflexivity.
  - destruct (ascii_dec c c); [exact IH|congruence].
Qed.

Lemma Contains_String (c : ascii) (s sub : string) :
  Contains s sub = true -> Contains (String c s) sub = true.
Proof. intros Hs. simpl. rewrite Hs. apply orb_true_r. Qed.

Lemma Contains_of_prefix (s sub : string) :
  String.prefix sub s = true -> Contains s sub = true.
Proof. intros Hp. destruct s; unfold Contains; rewrite Hp; reflexivity. Qed.

Lemma Contains_prefix (sub s : string) : Contains (sub +:+ s) sub = true.
Proof. apply Contains_of_prefix, prefix_append. Qed.

Lemma Contains_append (a s sub : string) :
  Contains s sub = true -> Contains (a +:+ s) sub = true.
Proof.
  intros Hs. induction a as [|c a IH]; [exact Hs|]. apply Contains_String, IH.
Qed.

(** The text of the error that [converged] makes for a shard in the error
    status holds the shard's name and the shard's message. *)
Lemma shard_error_text (shardName shardError : string) :
  let e := Errorf "restore on the shard %s failed with: %s"
             [AString shardName; AString shardError] in
  Contains (Error e) shardName = true /\ Contains (Error e) shardError = true.
Proof.
  split.
  - change (Contains ("restore on the shard " +:+ shardName +:+ " failed with: " +:+
                      shardError +:+ EmptyString) shardName = true).
    apply Contains_append, Contains_prefix.
  - change (Contains ("restore on the shard " +:+ shardName +:+ " failed with: " +:+
                      shardError +:+ EmptyString) shardError = true).
    apply Contains_append, Contains_append, Contains_append, Contains_prefix.
Qed.

(** ** Leader convergence *)

Section ConvergedProps.
Context {St : Type} `{PBM St}.
Implicit Types (cn : St) (opid name : string) (status : Status) (ct : Timestamp).
Implicit Types (bmeta : RestoreMeta.t) (shard : RestoreReplset.t) (sh : Shard.t).

(** The inner loop reaches the records with the shard's name, in order. *)
Lemma converged_replsets_visit cn opid status ct bmeta sh (replsets : list RestoreReplset.t) (n : Z) :
  converged_replsets cn opid status ct bmeta sh replsets n =
  visit_all cn opid status ct bmeta
    (List.filter (fun shard => String.eqb (RestoreReplset.Name shard) (Shard.RS sh)) replsets) n.
Proof.
  revert n. induction replsets as [|shard rest IH]; intros n; simpl; [reflexivity|].
  destruct (String.eqb (RestoreReplset.Name shard) (Shard.RS sh)); [|apply IH].
  simpl. unfold visit.
  destruct (check_lock cn opid status ct shard); [reflexivity|].
  destruct (String.eqb (RestoreReplset.Status shard) status); [apply IH|].
  destruct (String.eqb (RestoreReplset.Status shard) StatusError); [reflexivity|apply IH].
Qed.

Lemma visit_all_app cn opid status ct bmeta (l1 l2 : list RestoreReplset.t) (n : Z) :
  visit_all cn opid status ct bmeta (l1 ++ l2) n =
  match visit_all cn opid status ct bmeta l1 n with
  | Ret r => Ret r
  | Next n' => visit_all cn opid status ct bmeta l2 n'
  end.
Proof.
  revert n. induction l1 as [|shard l1 IH]; intros n; simpl; [reflexivity|].
  destruct (visit cn opid status ct bmeta shard n); [apply IH|reflexivity].
Qed.

(** The two loops together are one pass over the records reached. *)
Lemma converged_shards_visit cn opid status ct bmeta (shards : list Shard.t) (n : Z) :
  converged_shards cn opid status ct bmeta shards n =
  visit_all cn opid status ct bmeta (visited bmeta shards) n.
Proof.
  revert n. induction shards as [|sh rest IH]; intros n; simpl; [reflexivity|].
  unfold visited. simpl. rewrite visit_all_app, converged_replsets_visit.
  destruct (visit_all cn opid status ct bmeta _ n); [apply IH|reflexivity].
Qed.

Lemma visit_passes cn opid status ct bmeta shard (n : Z) :
  passes cn opid status ct shard ->
  visit cn opid status ct bmeta shard n =
  Next (n - count_status status [shard]).
Proof.
  intros [Hlock Hst]. unfold visit, count_status. rewrite Hlock. simpl.
  destruct (String.eqb_spec (RestoreReplset.Status shard) status) as [Heq|Hne].
  - reflexivity.
  - destruct (String.eqb_spec (RestoreReplset.Status shard) StatusError) as [Heq'|Hne'].
    + destruct Hst; contradiction.
    + simpl. f_equal. lia.
Qed.

Lemma count_status_cons status shard (l : list RestoreReplset.t) :
  count_status status (shard :: l) = count_status status [shard] + count_status status l.
Proof.
  unfold count_status. simpl.
  destruct (String.eqb (RestoreReplset.Status shard) status); simpl; lia.
Qed.

(** The records that pass are counted and the pass goes on after them. *)
Lemma visit_all_passes cn opid status ct bmeta (pre l : list RestoreReplset.t) (n : Z) :
  Forall (passes cn opid status ct) pre ->
  visit_all cn opid status ct bmeta (pre ++ l) n =
  visit_all cn opid status ct bmeta l (n - count_status status pre).
Proof.
  intros Hpre. revert n. induction Hpre as [|shard pre Hshard Hpre IH]; intros n; simpl.
  - f_equal. unfold count_status. simpl. lia.
  - rewrite (visit_passes _ _ _ _ _ _ _ Hshard), IH, (count_status_cons _ shard pre).
    f_equal. lia.
Qed.

(** [converged] once both reads succeeded. *)
Lemma converged_run_reads cn name opid (shards : list Shard.t) status bmeta ct :
  GetRestoreMeta name cn = Ok bmeta ->
  ClusterTime cn = Ok ct ->
  converged_run cn name opid shards status =
  match visit_all cn opid status ct bmeta (visited bmeta shards) (Z.of_nat (length shards)) with
  | Ret (bmeta', e) => (mkOutcome false (Some e) (Some bmeta'), cn)
  | Next n =>
      if n =? 0 then
        match ChangeRestoreState name status EmptyString cn with
        | (Some e, cn') =>
            (mkOutcome false (Wrapf (Some e) "update backup meta with %s" [AString status])
               (Some bmeta), cn')
        | (None, cn') => (mkOutcome true None (Some bmeta), cn')
        end
      else (mkOutcome false None (Some bmeta), cn)
  end.
Proof.
  intros Hmeta Hct. unfold converged_run. rewrite Hmeta, Hct, converged_shards_visit.
  reflexivity.
Qed.

(** The first record that does not pass decides the call. *)
Lemma converged_run_first_failure cn name opid (shards : list Shard.t) status bmeta ct
    (pre post : list RestoreReplset.t) shard (r : RestoreMeta.t * error) :
  GetRestoreMeta name cn = Ok bmeta ->
  ClusterTime cn = Ok ct ->
  visited bmeta shards = pre ++ shard :: post ->
  Forall (passes cn opid status ct) pre ->
  (forall n, visit cn opid status ct bmeta shard n = Ret r) ->
  converged_run cn name opid shards status = (mkOutcome false (Some (snd r)) (Some (fst r)), cn).
Proof.
  intros Hmeta Hct Hvis Hpre Hvisit.
  rewrite (converged_run_reads _ _ _ _ _ _ _ Hmeta Hct), Hvis, visit_all_passes by assumption.
  simpl. rewrite Hvisit. destruct r. reflexivity.
Qed.

(** A heartbeat that lags the cluster time by more than the stale frame is
    stale for the code: the uint32 addition does not wrap below a uint32
    cluster time. *)
Lemma stale_lt (hb ct : Timestamp) :
  uint32 (T hb) -> uint32 StaleFrameSec -> uint32 (T ct) ->
  T hb + StaleFrameSec < T ct -> stale hb ct = true.
Proof.
  unfold stale, add32, uint32, uint32_max. intros Hhb Hframe Hct Hlt.
  rewrite Z.mod_small by lia. apply Z.ltb_lt. exact Hlt.
Qed.

(** C2, as the code has it.  For a record that [converged] reaches after
    records that all pass: while the target status is not done, a read of the
    lock that fails with an error other than the no-documents error makes
    [converged] fail with that error wrapped with the shard's name, and a lock
    that is there with a heartbeat that lags the cluster time by more than
    [StaleFrameSec] makes it fail with the lost-shard error.  A lock that is
    missing (the read fails with the no-documents error) passes the check
    under every target status, and under the target status done every lock
    passes it. *)
Theorem converged_lock_check cn name opid (shards : list Shard.t) status bmeta ct
    (pre post : list RestoreReplset.t) shard :
  GetRestoreMeta name cn = Ok bmeta ->
  ClusterTime cn = Ok ct ->
  visited bmeta shards = pre ++ shard :: post ->
  Forall (passes cn opid status ct) pre ->
  (status <> StatusDone ->
   (forall e, GetLockData (lock_header opid shard) cn = Err e ->
      Is e ErrNoDocuments = false ->
      converged cn name opid shards status =
      ((false, Wrapf (Some e) "unable to read lock for shard %s"
                 [AString (RestoreReplset.Name shard)]), cn)) /\
   (forall lock, GetLockData (lock_header opid shard) cn = Ok lock ->
      uint32 (T (LockData.Heartbeat lock)) -> uint32 StaleFrameSec -> uint32 (T ct) ->
      T (LockData.Heartbeat lock) + StaleFrameSec < T ct ->
      converged cn name opid shards status =
      ((false, Some (Errorf "lost shard %s, last beat ts: %d"
                       [AString (RestoreReplset.Name shard);
                        AUint (T (LockData.Heartbeat lock))])), cn))) /\
  ((status = StatusDone \/
    exists e, GetLockData (lock_header opid shard) cn = Err e /\ Is e ErrNoDocuments = true) ->
   check_lock cn opid status ct shard = None).
Proof.
  intros Hmeta Hct Hvis Hpre. split; [intros Hstatus; split|].
  - intros e Hlock Hnodoc. unfold converged.
    rewrite (converged_run_first_failure cn name opid shards status bmeta ct pre post shard
               (bmeta, WithMessage e (Sprintf "unable to read lock for shard %s"
                                        [AString (RestoreReplset.Name shard)])));
      try assumption; [reflexivity|].
    intros n. unfold visit, check_lock. fold (lock_header opid shard). rewrite Hlock. simpl.
    rewrite Hnodoc. apply String.eqb_neq in Hstatus. rewrite Hstatus. reflexivity.
  - intros lock Hlock Hhb Hframe Hctr Hlag. unfold converged.
    rewrite (converged_run_first_failure cn name opid shards status bmeta ct pre post shard
               (bmeta, Errorf "lost shard %s, last beat ts: %d"
                         [AString (RestoreReplset.Name shard);
                          AUint (T (LockData.Heartbeat lock))]));
      try assumption; [reflexivity|].
    intros n. unfold visit, check_lock. fold (lock_header opid shard). rewrite Hlock. simpl.
    apply String.eqb_neq in Hstatus. rewrite Hstatus. simpl.
    rewrite stale_lt by assumption. reflexivity.
  - intros [->|(e & Hlock & Hnodoc)]; unfold check_lock; fold (lock_header opid shard).
    + reflexivity.
    + rewrite Hlock. simpl. rewrite Hnodoc, andb_false_r. reflexivity.
Qed.

(** C3, as the code has it.  For a record in the error status that
    [converged] reaches after records that all pass, and whose own lock check
    passes (the lock check of a record comes before the look at its status),
    with a target status other than the error status: [converged] returns
    false and an error whose text holds the shard's name and the shard's error
    message, so [convergeCluster] returns that error at the tick that sees it;
    the status and the message are set in the local copy of the metadata, and
    the store is the one the call started with. *)
Theorem converged_shard_error cn name opid (shards : list Shard.t) status bmeta ct
    (pre post : list RestoreReplset.t) shard :
  GetRestoreMeta name cn = Ok bmeta ->
  ClusterTime cn = Ok ct ->
  visited bmeta shards = pre ++ shard :: post ->
  Forall (passes cn opid status ct) pre ->
  check_lock cn opid status ct shard = None ->
  RestoreReplset.Status shard = StatusError ->
  status <> StatusError ->
  let e := Errorf "restore on the shard %s failed with: %s"
             [AString (RestoreReplset.Name shard); AString (RestoreReplset.Error shard)] in
  converged cn name opid shards status = ((false, Some e), cn) /\
  Contains (Error e) (RestoreReplset.Name shard) = true /\
  Contains (Error e) (RestoreReplset.Error shard) = true /\
  (forall sched, convergeCluster (Tick :: sched) cn name opid shards status = (Some (Some e), cn)) /\
  bmeta_local (fst (converged_run cn name opid shards status)) = Some (with_shard_error bmeta shard).
Proof.
  intros Hmeta Hct Hvis Hpre Hlock Hst Hstatus e.
  assert (Hrun : converged_run cn name opid shards status =
                 (mkOutcome false (Some e) (Some (with_shard_error bmeta shard)), cn)).
  { apply (converged_run_first_failure cn name opid shards status bmeta ct pre post shard
             (with_shard_error bmeta shard, e)); try assumption.
    intros n. unfold visit. rewrite Hlock, Hst.
    destruct (String.eqb_spec StatusError status) as [Heq|_]; [congruence|].
    rewrite String.eqb_refl. reflexivity. }
  assert (Hconv : converged cn name opid shards status = ((false, Some e), cn)).
  { unfold converged. rewrite Hrun. reflexivity. }
  split; [exact Hconv|].
  destruct (shard_error_text (RestoreReplset.Name shard) (RestoreReplset.Error shard))
    as [Hname Hmsg].
  split; [exact Hname|]. split; [exact Hmsg|]. split.
  - intros sched. simpl. rewrite Hconv. reflexivity.
  - rewrite Hrun. reflexivity.
Qed.

Lemma filter_name_none (l : list RestoreReplset.t) (rs : string) :
  ~ In rs (map RestoreReplset.Name l) ->
  List.filter (fun shard => String.eqb (RestoreReplset.Name shard) rs) l = [].
Proof.
  induction l as [|z l IH]; intros Hrs; [reflexivity|]. simpl.
  destruct (String.eqb_spec (RestoreReplset.Name z) rs) as [Heq|_].
  - exfalso. apply Hrs. left. exact Heq.
  - apply IH. intros Hin. apply Hrs. right. exact Hin.
Qed.

(** With one record per name, the inner loop reaches at most one record. *)
Lemma filter_name_unique (l : list RestoreReplset.t) (r : RestoreReplset.t) :
  List.NoDup (map RestoreReplset.Name l) -> In r l ->
  List.filter (fun shard => String.eqb (RestoreReplset.Name shard) (RestoreReplset.Name r)) l = [r].
Proof.
  induction l as [|x l IH]; intros Hnd Hin; [destruct Hin|].
  simpl in Hnd. apply List.NoDup_cons_iff in Hnd. destruct Hnd as [Hx Hnd]. simpl.
  destruct Hin as [->|Hin].
  - rewrite String.eqb_refl, (filter_name_none l _ Hx). reflexivity.
  - destruct (String.eqb_spec (RestoreReplset.Name x) (RestoreReplset.Name r)) as [Heq|_].
    + exfalso. apply Hx. rewrite Heq. apply in_map. exact Hin.
    + apply IH; assumption.
Qed.


Lemma count_status_app status (l1 l2 : list RestoreReplset.t) :
  count_status status (l1 ++ l2) = count_status status l1 + count_status status l2.
Proof. unfold count_status. rewrite List.filter_app, length_app. lia. Qed.





Lemma visited_cons bmeta sh (shards : list Shard.t) :
  visited bmeta (sh :: shards) =
  List.filter (fun shard => String.eqb (RestoreReplset.Name shard) (Shard.RS sh))
    (RestoreMeta.Replsets bmeta) ++ visited bmeta shards.
Proof. reflexivity. Qed.



(** With one record per name, shards that each have a record with the target
    status and a passing lock check are reached once each. *)
Lemma all_reached_visited cn opid status ct bmeta (shards : list Shard.t) :
  unique_replsets bmeta ->
  all_reached cn opid status ct bmeta shards ->
  Forall (passes cn opid status ct) (visited bmeta shards) /\
  count_status status (visited bmeta shards) = Z.of_nat (length shards).
Proof.
  intros Hu. induction shards as [|sh rest IH]; intros Hall.
  - split; [constructor|reflexivity].
  - destruct (Hall sh (or_introl eq_refl)) as (shard & Hin & Hname & Hst & Hlock).
    destruct IH as [IHp IHc].
    { intros sh' Hin'. apply Hall. right. exact Hin'. }
    rewrite visited_cons, <- Hname, (filter_name_unique _ shard Hu Hin).
    split.
    + constructor; [|exact IHp]. split; [exact Hlock|left; exact Hst].
    + rewrite count_status_app, IHc. unfold count_status at 1. simpl.
      rewrite Hst, String.eqb_refl. simpl length. lia.
Qed.

End ConvergedProps.

(** *** With the call counter on the write path *)

Section LoggedProps.
Context {St : Type} `{PBM St}.
Implicit Types (cn : St) (opid name : string) (status : Status) (ct : Timestamp).
Implicit Types (bmeta : RestoreMeta.t) (shard : RestoreReplset.t) (sh : Shard.t).

Lemma check_lock_logged cn (log : list write_call) opid status ct shard :
  check_lock (cn, log) opid status ct shard = check_lock cn opid status ct shard.
Proof. reflexivity. Qed.

Lemma visit_all_logged cn (log : list write_call) opid status ct bmeta
    (l : list RestoreReplset.t) (n : Z) :
  visit_all (cn, log) opid status ct bmeta l n = visit_all cn opid status ct bmeta l n.
Proof.
  revert n. induction l as [|shard l IH]; intros n; simpl; [reflexivity|].
  unfold visit. rewrite check_lock_logged.
  destruct (check_lock cn opid status ct shard); [reflexivity|].
  destruct (String.eqb (RestoreReplset.Status shard) status); [apply IH|].
  destruct (String.eqb (RestoreReplset.Status shard) StatusError); [reflexivity|apply IH].
Qed.

(** [converged] on the store with the counter, once both reads succeeded. *)
Lemma converged_run_logged cn (log : list write_call) name opid (shards : list Shard.t)
    status bmeta ct :
  GetRestoreMeta name cn = Ok bmeta ->
  ClusterTime cn = Ok ct ->
  converged_run (cn, log) name opid shards status =
  match visit_all cn opid status ct bmeta (visited bmeta shards) (Z.of_nat (length shards)) with
  | Ret (bmeta', e) => (mkOutcome false (Some e) (Some bmeta'), (cn, log))
  | Next n =>
      if n =? 0 then
        (mkOutcome (match fst (ChangeRestoreState name status EmptyString cn) with
                    | None => true
                    | Some _ => false
                    end)
           (Wrapf (fst (ChangeRestoreState name status EmptyString cn))
              "update backup meta with %s" [AString status])
           (Some bmeta),
         (snd (ChangeRestoreState name status EmptyString cn),
          log ++ [(name, status, EmptyString)]))
      else (mkOutcome false None (Some bmeta), (cn, log))
  end.
Proof.
  intros Hmeta Hct.
  assert (Hmeta' : GetRestoreMeta name (cn, log) = Ok bmeta) by exact Hmeta.
  assert (Hct' : ClusterTime (cn, log) = Ok ct) by exact Hct.
  rewrite (converged_run_reads (cn, log) name opid shards status bmeta ct Hmeta' Hct').
  rewrite visit_all_logged.
  destruct (visit_all cn opid status ct bmeta (visited bmeta shards) (Z.of_nat (length shards)))
    as [n|[bmeta' e]]; [|reflexivity].
  destruct (n =? 0); [|reflexivity].
  simpl. destruct (ChangeRestoreState name status EmptyString cn) as [[e|] cn']; reflexivity.
Qed.

(** C4, as the code has it.  When every shard has a record with the target
    status whose lock check passes (one record per replica set name),
    [converged] issues the write of the global status once, recorded by the
    call counter; if the write succeeds it returns true, and [convergeCluster]
    returns success at that tick without polling further.  [converged] does
    not read the global status, so a call made after the commit, while the
    shards still all match, issues the same write once more. *)
Theorem converged_commit cn name opid (shards : list Shard.t) status bmeta ct
    (log : list write_call) :
  GetRestoreMeta name cn = Ok bmeta ->
  ClusterTime cn = Ok ct ->
  unique_replsets bmeta ->
  all_reached cn opid status ct bmeta shards ->
  let w := ChangeRestoreState name status EmptyString cn in
  let log' := log ++ [(name, status, EmptyString)] in
  converged (cn, log) name opid shards status =
  ((match fst w with None => true | Some _ => false end,
    Wrapf (fst w) "update backup meta with %s" [AString status]),
   (snd w, log')) /\
  (fst w = None ->
   forall sched,
     convergeCluster (Tick :: sched) (cn, log) name opid shards status =
     (Some None, (snd w, log'))) /\
  (forall bmeta' ct',
     GetRestoreMeta name (snd w) = Ok bmeta' ->
     ClusterTime (snd w) = Ok ct' ->
     unique_replsets bmeta' ->
     all_reached (snd w) opid status ct' bmeta' shards ->
     snd (snd (converged (snd w, log') name opid shards status)) =
     log' ++ [(name, status, EmptyString)]).
Proof.
  assert (Hcall : forall cn0 (log0 : list write_call) bmeta0 ct0,
            GetRestoreMeta name cn0 = Ok bmeta0 ->
            ClusterTime cn0 = Ok ct0 ->
            unique_replsets bmeta0 ->
            all_reached cn0 opid status ct0 bmeta0 shards ->
            converged (cn0, log0) name opid shards status =
            ((match fst (ChangeRestoreState name status EmptyString cn0) with
              | None => true
              | Some _ => false
              end,
              Wrapf (fst (ChangeRestoreState name status EmptyString cn0))
                "update backup meta with %s" [AString status]),
             (snd (ChangeRestoreState name status EmptyString cn0),
              log0 ++ [(name, status, EmptyString)]))).
  { intros cn0 log0 bmeta0 ct0 Hmeta Hct Hu Hall. unfold converged.
    rewrite (converged_run_logged cn0 log0 name opid shards status bmeta0 ct0 Hmeta Hct).
    destruct (all_reached_visited cn0 opid status ct0 bmeta0 shards Hu Hall) as [Hp Hc].
    rewrite <- (app_nil_r (visited bmeta0 shards)), visit_all_passes by exact Hp.
    simpl. rewrite Hc, Z.sub_diag. reflexivity. }
  intros Hmeta Hct Hu Hall w log'.
  pose proof (Hcall cn log bmeta ct Hmeta Hct Hu Hall) as Hconv.
  split; [exact Hconv|]. split.
  - intros Hw sched. simpl. fold w log' in Hconv. rewrite Hconv, Hw. reflexivity.
  - intros bmeta' ct' Hmeta' Hct' Hu' Hall'.
    rewrite (Hcall (snd w) log' bmeta' ct' Hmeta' Hct' Hu' Hall'). reflexivity.
Qed.


End LoggedProps.

(** *** The convergence properties on concrete stores *)

(** rs0 passes and the lock of rs1 was last refreshed at 10 while the cluster
    time is 100, with a stale frame of 30: the call fails with the lost-shard
    error for rs1. *)
Lemma converged_lock_check_witness :
  converged examples.stale_rs1 "restore1" "op1" examples.two_shards "running" =
  ((false, Some (Fundamental "lost shard rs1, last beat ts: 10")), examples.stale_rs1).
Proof.
  assert (Hpre : Forall (passes examples.stale_rs1 "op1" "running" (examples.ts 100))
                   [examples.replset "rs0" "running" EmptyString]).
  { constructor; [|constructor]. split; [reflexivity|left; reflexivity]. }
  destruct (converged_lock_check examples.stale_rs1 "restore1" "op1" examples.two_shards
              "running"
              (examples.restore_meta "starting" 95
                 [examples.replset "rs0" "running" EmptyString;
                  examples.replset "rs1" "running" EmptyString])
              (examples.ts 100)
              [examples.replset "rs0" "running" EmptyString] []
              (examples.replset "rs1" "running" EmptyString)) as [Hfail _];
    [reflexivity|reflexivity|reflexivity|exact Hpre|].
  assert (Hne : "running" <> StatusDone) by discriminate.
  destruct (Hfail Hne) as [_ Hstale].
  apply (Hstale (examples.lock "rs1" 10)).
  - reflexivity.
  - unfold uint32, uint32_max. simpl. lia.
  - unfold uint32, uint32_max. simpl. lia.
  - unfold uint32, uint32_max. simpl. lia.
  - simpl. lia.
Defined.

(** C2 as stated fails on a missing lock.  The target status is running, not
    done; the shard rs1 has no lock record, so the read of its lock gives the
    no-documents error; and [converged] returns true with no error and commits
    the status. *)
Lemma converged_missing_lock_counterexample :
  "running" <> StatusDone /\
  GetLockData (lock_header "op1" (examples.replset "rs1" "running" EmptyString))
    examples.missing_rs1 = Err (Sentinel ErrNoDocuments) /\
  converged examples.missing_rs1 "restore1" "op1" examples.two_shards "running" =
  ((true, None), snd (ChangeRestoreState "restore1" "running" EmptyString examples.missing_rs1)).
Proof. split; [discriminate|]. split; reflexivity. Qed.

(** rs0 passes, the lock of rs1 is fresh and rs1 reports the error status
    with the message disk full. *)
Lemma converged_shard_error_witness :
  converged examples.failed_rs1 "restore1" "op1" examples.two_shards "running" =
  ((false, Some (Fundamental "restore on the shard rs1 failed with: disk full")),
   examples.failed_rs1).
Proof.
  assert (Hpre : Forall (passes examples.failed_rs1 "op1" "running" (examples.ts 100))
                   [examples.replset "rs0" "running" EmptyString]).
  { constructor; [|constructor]. split; [reflexivity|left; reflexivity]. }
  assert (Hne : "running" <> StatusError) by discriminate.
  destruct (converged_shard_error examples.failed_rs1 "restore1" "op1" examples.two_shards
              "running"
              (examples.restore_meta "starting" 95
                 [examples.replset "rs0" "running" EmptyString;
                  examples.replset "rs1" "error" "disk full"])
              (examples.ts 100)
              [examples.replset "rs0" "running" EmptyString] []
              (examples.replset "rs1" "error" "disk full")) as [Hconv _];
    [reflexivity|reflexivity|reflexivity|exact Hpre|reflexivity|reflexivity|exact Hne|].
  exact Hconv.
Defined.

(** C3 as stated fails on its priority and on the record.  When rs1 reports
    the error status with the message disk full and its lock is stale as well,
    [converged] returns the lost-shard error, whose text does not hold the
    message; and when the lock is fresh and [converged] returns the error of
    the shard, the store after the call is the store before it, in which the
    restore record still has the status starting and an empty error. *)
Lemma converged_shard_error_counterexample :
  (converged examples.failed_stale_rs1 "restore1" "op1" examples.two_shards "running" =
   ((false, Some (Fundamental "lost shard rs1, last beat ts: 10")), examples.failed_stale_rs1) /\
   Contains "lost shard rs1, last beat ts: 10" "disk full" = false) /\
  GetRestoreMeta "restore1"
    (snd (converged examples.failed_rs1 "restore1" "op1" examples.two_shards "running")) =
  Ok (examples.restore_meta "starting" 95
        [examples.replset "rs0" "running" EmptyString;
         examples.replset "rs1" "error" "disk full"]).
Proof. split; [split|]; reflexivity. Qed.

(** rs0, rs1 and rs2 all report running with fresh locks: one call commits
    running, and the counter holds that one write. *)
Lemma converged_commit_witness :
  converged (examples.all_running, []) "restore1" "op1" examples.three_shards "running" =
  ((true, None),
   (snd (ChangeRestoreState "restore1" "running" EmptyString examples.all_running),
    [("restore1", "running", EmptyString)])).
Proof.
  assert (Hu : unique_replsets
                 (examples.restore_meta "starting" 95
                    [examples.replset "rs0" "running" EmptyString;
                     examples.replset "rs1" "running" EmptyString;
                     examples.replset "rs2" "running" EmptyString])).
  { unfold unique_replsets. simpl.
    repeat (apply List.NoDup_cons; [simpl; intuition discriminate|]). apply List.NoDup_nil. }
  assert (Hall : all_reached examples.all_running "op1" "running" (examples.ts 100)
                   (examples.restore_meta "starting" 95
                      [examples.replset "rs0" "running" EmptyString;
                       examples.replset "rs1" "running" EmptyString;
                       examples.replset "rs2" "running" EmptyString])
                   examples.three_shards).
  { intros sh [<-|[<-|[<-|[]]]].
    - exists (examples.replset "rs0" "running" EmptyString). simpl. auto 6.
    - exists (examples.replset "rs1" "running" EmptyString). simpl. auto 6.
    - exists (examples.replset "rs2" "running" EmptyString). simpl. auto 6. }
  destruct (converged_commit examples.all_running "restore1" "op1" examples.three_shards
              "running"
              (examples.restore_meta "starting" 95
                 [examples.replset "rs0" "running" EmptyString;
                  examples.replset "rs1" "running" EmptyString;
                  examples.replset "rs2" "running" EmptyString])
              (examples.ts 100) []) as [Hconv _];
    [reflexivity|reflexivity|exact Hu|exact Hall|].
  exact Hconv.
Defined.

(** C4 as stated fails on the repeated call.  After the call that commits
    running, with one write counted, a second call for the same target returns
    true again and the counter holds two writes: the second call is not a pure
    read. *)
Lemma converged_repeat_counterexample :
  let first := converged (examples.all_running, []) "restore1" "op1" examples.three_shards
                 "running" in
  let second := converged (snd first) "restore1" "op1" examples.three_shards "running" in
  fst first = (true, None) /\
  snd (snd first) = [("restore1", "running", EmptyString)] /\
  fst second = (true, None) /\
  snd (snd second) = [("restore1", "running", EmptyString); ("restore1", "running", EmptyString)].
Proof. repeat split; reflexivity. Qed.

(** ** The wait of the followers and the cancellation of the loops *)

Section WaitProps.
Context {St : Type} `{PBM St}.
Implicit Types (cn : St) (opid name : string) (status : Status) (ct : Timestamp).

Lemma waitForStatus_ticks_not_found cn name status (n : nat) (rest : list (event St)) (e : error) :
  GetRestoreMeta name cn = Err e ->
  Is e ErrNotFound = true ->
  waitForStatus (repeat Tick n ++ rest) cn name status = waitForStatus rest cn name status.
Proof.
  intros Hmeta Hnf. induction n as [|n IH]; [reflexivity|].
  simpl. unfold waitForStatus_tick. rewrite Hmeta. simpl. rewrite Hnf. exact IH.
Qed.

(** C8.  One tick of [waitForStatus] takes the first of these that applies.
    While the restore record is not found, the tick is passed with no error
    and the wait goes on, for any number of ticks.  A record whose heartbeat
    lags the cluster time by more than [StaleFrameSec] ends the wait with the
    restore-stuck error.  Otherwise a record in the target status ends it
    with success, and a record in the error status ends it with an error that
    carries the message of the record. *)
Theorem waitForStatus_cases cn name status :
  (forall e n rest, GetRestoreMeta name cn = Err e -> Is e ErrNotFound = true ->
     waitForStatus_tick cn name status = Next tt /\
     waitForStatus (repeat Tick n) cn name status = None /\
     waitForStatus (repeat Tick n ++ rest) cn name status = waitForStatus rest cn name status) /\
  (forall meta ct rest, GetRestoreMeta name cn = Ok meta -> ClusterTime cn = Ok ct ->
     uint32 (T (RestoreMeta.Hb meta)) -> uint32 StaleFrameSec -> uint32 (T ct) ->
     T (RestoreMeta.Hb meta) + StaleFrameSec < T ct ->
     waitForStatus (Tick :: rest) cn name status =
     Some (Some (Errorf "restore stuck, last beat ts: %d" [AUint (T (RestoreMeta.Hb meta))]))) /\
  (forall meta ct rest, GetRestoreMeta name cn = Ok meta -> ClusterTime cn = Ok ct ->
     stale (RestoreMeta.Hb meta) ct = false ->
     RestoreMeta.Status meta = status ->
     waitForStatus (Tick :: rest) cn name status = Some None) /\
  (forall meta ct rest, GetRestoreMeta name cn = Ok meta -> ClusterTime cn = Ok ct ->
     stale (RestoreMeta.Hb meta) ct = false ->
     RestoreMeta.Status meta = StatusError ->
     status <> StatusError ->
     waitForStatus (Tick :: rest) cn name status =
     Some (Some (Errorf "cluster failed: %s" [AString (RestoreMeta.Error meta)])) /\
     Contains (Error (Errorf "cluster failed: %s" [AString (RestoreMeta.Error meta)]))
       (RestoreMeta.Error meta) = true).
Proof.
  split; [|split; [|split]].
  - intros e n rest Hmeta Hnf. split; [|split].
    + unfold waitForStatus_tick. rewrite Hmeta. simpl. rewrite Hnf. reflexivity.
    + rewrite <- (app_nil_r (repeat Tick n)).
      rewrite (waitForStatus_ticks_not_found cn name status n [] e Hmeta Hnf). reflexivity.
    + exact (waitForStatus_ticks_not_found cn name status n rest e Hmeta Hnf).
  - intros meta ct rest Hmeta Hct Hhb Hframe Hctr Hlag. simpl.
    unfold waitForStatus_tick. rewrite Hmeta, Hct. simpl.
    rewrite stale_lt by assumption. reflexivity.
  - intros meta ct rest Hmeta Hct Hfresh Hst. simpl.
    unfold waitForStatus_tick. rewrite Hmeta, Hct. simpl.
    rewrite Hfresh, Hst, String.eqb_refl. reflexivity.
  - intros meta ct rest Hmeta Hct Hfresh Hst Hstatus. split.
    + simpl. unfold waitForStatus_tick. rewrite Hmeta, Hct. simpl.
      rewrite Hfresh, Hst.
      destruct (String.eqb_spec StatusError status) as [Heq|_]; [congruence|].
      rewrite String.eqb_refl. reflexivity.
    + change (Contains ("cluster failed: " +:+ RestoreMeta.Error meta +:+ EmptyString)
                (RestoreMeta.Error meta) = true).
      apply Contains_append, Contains_prefix.
Qed.

Lemma convergeCluster_cancel cn name opid (shards : list Shard.t) status
    (pre rest : list (event St)) :
  fst (convergeCluster pre cn name opid shards status) = None ->
  convergeCluster (pre ++ Cancel :: rest) cn name opid shards status =
  (Some None, snd (convergeCluster pre cn name opid shards status)).
Proof.
  revert cn. induction pre as [|ev pre IH]; intros cn; simpl; [reflexivity|].
  destruct ev as [| | |f]; simpl.
  - destruct (converged cn name opid shards status) as [[ok err] cn'].
    destruct err; [discriminate|]. destruct ok; [discriminate|]. apply IH.
  - apply IH.
  - discriminate.
  - apply IH.
Qed.

Lemma convergeClusterWithTimeout_cancel cn name opid (shards : list Shard.t) status
    (pre rest : list (event St)) :
  fst (convergeClusterWithTimeout pre cn name opid shards status) = None ->
  convergeClusterWithTimeout (pre ++ Cancel :: rest) cn name opid shards status =
  (Some None, snd (convergeClusterWithTimeout pre cn name opid shards status)).
Proof.
  revert cn. induction pre as [|ev pre IH]; intros cn; simpl; [reflexivity|].
  destruct ev as [| | |f]; simpl.
  - destruct (converged cn name opid shards status) as [[ok err] cn'].
    destruct err; [discriminate|]. destruct ok; [discriminate|]. apply IH.
  - discriminate.
  - discriminate.
  - apply IH.
Qed.

Lemma waitForStatus_cancel cn name status (pre rest : list (event St)) :
  waitForStatus pre cn name status = None ->
  waitForStatus (pre ++ Cancel :: rest) cn name status = Some None.
Proof.
  revert cn. induction pre as [|ev pre IH]; intros cn; simpl; [reflexivity|].
  destruct ev as [| | |f]; simpl.
  - destruct (waitForStatus_tick cn name status); [apply IH|discriminate].
  - apply IH.
  - discriminate.
  - apply IH.
Qed.

(** C9.  In each of the three polling loops, when the [select] takes the
    cancellation of the context while the loop is still polling (after any
    events [pre] that did not end it), the loop returns nil, whatever the
    store, the shards and the target status are; the cancellation itself
    changes nothing in the store. *)
Theorem polling_loops_cancel cn name opid (shards : list Shard.t) status
    (pre rest : list (event St)) :
  (fst (convergeCluster pre cn name opid shards status) = None ->
   convergeCluster (pre ++ Cancel :: rest) cn name opid shards status =
   (Some None, snd (convergeCluster pre cn name opid shards status))) /\
  (fst (convergeClusterWithTimeout pre cn name opid shards status) = None ->
   convergeClusterWithTimeout (pre ++ Cancel :: rest) cn name opid shards status =
   (Some None, snd (convergeClusterWithTimeout pre cn name opid shards status))) /\
  (waitForStatus pre cn name status = None ->
   waitForStatus (pre ++ Cancel :: rest) cn name status = Some None) /\
  convergeCluster (Cancel :: rest) cn name opid shards status = (Some None, cn) /\
  convergeClusterWithTimeout (Cancel :: rest) cn name opid shards status = (Some None, cn) /\
  waitForStatus (Cancel :: rest) cn name status = Some None.
Proof.
  split; [apply convergeCluster_cancel|].
  split; [apply convergeClusterWithTimeout_cancel|].
  split; [apply waitForStatus_cancel|].
  repeat split; reflexivity.
Qed.

End WaitProps.

(** The four cases of the wait on concrete stores: no record yet, a record
    whose heartbeat is 10 at cluster time 100, a fresh record in the target
    status, and a fresh record in the error status with the message disk
    full. *)
Lemma waitForStatus_cases_witness :
  waitForStatus (repeat Tick 3) examples.no_record "restore1" "running" = None /\
  waitForStatus [Tick] (examples.global_store "starting" EmptyString 10) "restore1" "running" =
  Some (Some (Fundamental "restore stuck, last beat ts: 10")) /\
  waitForStatus [Tick] (examples.global_store "running" EmptyString 95) "restore1" "running" =
  Some None /\
  waitForStatus [Tick] (examples.global_store "error" "disk full" 95) "restore1" "running" =
  Some (Some (Fundamental "cluster failed: disk full")).
Proof.
  split; [|split; [|split]].
  - destruct (waitForStatus_cases examples.no_record "restore1" "running") as [Hnf _].
    destruct (Hnf (Sentinel ErrNotFound) 3%nat []) as (_ & Hwait & _);
      [reflexivity|reflexivity|].
    exact Hwait.
  - destruct (waitForStatus_cases (examples.global_store "starting" EmptyString 10)
                "restore1" "running") as (_ & Hstuck & _).
    apply (Hstuck (examples.global_meta "starting" EmptyString 10) (examples.ts 100) []);
      [reflexivity|reflexivity|unfold uint32, uint32_max; simpl; lia
      |unfold uint32, uint32_max; simpl; lia|unfold uint32, uint32_max; simpl; lia|simpl; lia].
  - destruct (waitForStatus_cases (examples.global_store "running" EmptyString 95)
                "restore1" "running") as (_ & _ & Hdone & _).
    apply (Hdone (examples.global_meta "running" EmptyString 95) (examples.ts 100) []);
      reflexivity.
  - destruct (waitForStatus_cases (examples.global_store "error" "disk full" 95)
                "restore1" "running") as (_ & _ & _ & Hfail).
    destruct (Hfail (examples.global_meta "error" "disk full" 95) (examples.ts 100) [])
      as [Hwait _];
      [reflexivity|reflexivity|reflexivity|reflexivity|discriminate|].
    exact Hwait.
Defined.

(** While rs1 is still starting, two ticks leave the three loops polling;
    the cancellation then ends each of them with nil. *)
Lemma polling_loops_cancel_witness :
  convergeCluster ([Tick; Tick] ++ Cancel :: [Tick]) examples.waiting_rs1
    "restore1" "op1" examples.two_shards "running" = (Some None, examples.waiting_rs1) /\
  convergeClusterWithTimeout ([Tick; Tick] ++ Cancel :: [TimeOut]) examples.waiting_rs1
    "restore1" "op1" examples.two_shards "running" = (Some None, examples.waiting_rs1) /\
  waitForStatus ([Tick; Tick] ++ Cancel :: [Tick]) examples.waiting_rs1 "restore1" "running" =
  Some None.
Proof.
  split; [|split].
  - destruct (polling_loops_cancel examples.waiting_rs1 "restore1" "op1" examples.two_shards
                "running" [Tick; Tick] [Tick]) as (Hc & _).
    apply Hc. reflexivity.
  - destruct (polling_loops_cancel examples.waiting_rs1 "restore1" "op1" examples.two_shards
                "running" [Tick; Tick] [TimeOut]) as (_ & Hc & _).
    apply Hc. reflexivity.
  - destruct (polling_loops_cancel examples.waiting_rs1 "restore1" "op1" examples.two_shards
                "running" [Tick; Tick] [Tick]) as (_ & _ & Hc & _).
    apply Hc. reflexivity.
Defined.


(** ** Replay of the chunks *)

Section ReplayProps.
Context {S : Type}.
Variable replay : string -> CompressionType -> S -> (Timestamp * option error) * S.

(** The log of attempts is an observer: the loop computes the same with it. *)
Lemma applyOplog_chunk_logged (chnk : OplogChunk.t) (s : S) (log : list attempt) :
  fst (applyOplog_chunk (logged_replay replay) chnk (s, log)) =
  fst (applyOplog_chunk replay chnk s) /\
  fst (snd (applyOplog_chunk (logged_replay replay) chnk (s, log))) =
  snd (applyOplog_chunk replay chnk s).
Proof.
  unfold applyOplog_chunk, logged_replay. simpl.
  destruct (replay (OplogChunk.FName chnk) (OplogChunk.Compression chnk) s)
    as [[lts1 [e1|]] s1]; simpl.
  - destruct (Is e1 ErrCorrupt); simpl.
    + destruct (replay (OplogChunk.FName chnk) CompressionTypeS2 s1) as [[lts2 [e2|]] s2];
        simpl; split; reflexivity.
    + split; reflexivity.
  - split; reflexivity.
Qed.

Lemma applyOplog_chunks_logged (chunks : list OplogChunk.t) (lts : Timestamp) (s : S)
    (log : list attempt) :
  fst (applyOplog_chunks (logged_replay replay) chunks lts (s, log)) =
  fst (applyOplog_chunks replay chunks lts s) /\
  fst (snd (applyOplog_chunks (logged_replay replay) chunks lts (s, log))) =
  snd (applyOplog_chunks replay chunks lts s).
Proof.
  revert lts s log. induction chunks as [|chnk rest IH]; intros lts s log; simpl.
  - split; reflexivity.
  - pose proof (applyOplog_chunk_logged chnk s log) as [Hres Hst].
    destruct (applyOplog_chunk (logged_replay replay) chnk (s, log)) as [r1 [s1 log1]].
    destruct (applyOplog_chunk replay chnk s) as [r2 s2].
    simpl in Hres, Hst. subst r2 s2.
    destruct r1 as [lts'|e]; [apply IH|split; reflexivity].
Qed.

(** The attempts made for one chunk are its own, or its own and then S2. *)
Lemma applyOplog_chunk_attempts (chnk : OplogChunk.t) (s : S) (log : list attempt) :
  exists a,
    snd (snd (applyOplog_chunk (logged_replay replay) chnk (s, log))) = log ++ a /\
    (a = [own_attempt chnk] \/ a = [own_attempt chnk; s2_attempt chnk]).
Proof.
  unfold applyOplog_chunk, logged_replay, own_attempt, s2_attempt. cbn [fst snd].
  destruct (replay (OplogChunk.FName chnk) (OplogChunk.Compression chnk) s)
    as [[lts1 [e1|]] s1]; cbn [fst snd IsNilable andb].
  - destruct (Is e1 ErrCorrupt).
    + destruct (replay (OplogChunk.FName chnk) CompressionTypeS2 s1) as [[lts2 [e2|]] s2];
        cbn [fst snd]; eexists; (split; [rewrite <- app_assoc; reflexivity|right; reflexivity]).
    + eexists. split; [reflexivity|left; reflexivity].
  - eexists. split; [reflexivity|left; reflexivity].
Qed.

(** Over the whole loop: the chunks are tried in order, each at most twice,
    under its own codec and then under S2, and no chunk after one that failed
    is tried. *)
Lemma applyOplog_chunks_attempts (chunks : list OplogChunk.t) (lts : Timestamp) (s : S)
    (log : list attempt) :
  exists attempts : list (list attempt),
    snd (snd (applyOplog_chunks (logged_replay replay) chunks lts (s, log))) =
    log ++ concat attempts /\
    (length attempts <= length chunks)%nat /\
    Forall2 (fun chnk a => a = [own_attempt chnk] \/ a = [own_attempt chnk; s2_attempt chnk])
      (firstn (length attempts) chunks) attempts /\
    (forall lts', fst (applyOplog_chunks (logged_replay replay) chunks lts (s, log)) = Ok lts' ->
       length attempts = length chunks).
Proof.
  revert lts s log. induction chunks as [|chnk rest IH]; intros lts s log.
  - exists []. simpl. rewrite app_nil_r.
    split; [reflexivity|]. split; [lia|]. split; [constructor|reflexivity].
  - simpl applyOplog_chunks.
    destruct (applyOplog_chunk_attempts chnk s log) as (a & Hlog & Ha).
    destruct (applyOplog_chunk (logged_replay replay) chnk (s, log)) as [[lts'|e] [s' log']].
    + simpl in Hlog. subst log'.
      destruct (IH lts' s' (log ++ a)) as (attempts & Hfinal & Hlen & Hall & Hok).
      exists (a :: attempts). simpl. rewrite Hfinal, <- app_assoc.
      split; [reflexivity|]. split; [lia|]. split; [constructor; assumption|].
      intros lts'' Hres. f_equal. apply (Hok lts''). exact Hres.
    + simpl in Hlog. subst log'. exists [a]. simpl. rewrite app_nil_r.
      split; [reflexivity|]. split; [lia|]. split; [constructor; [exact Ha|constructor]|].
      discriminate.
Qed.

(** C5.  For each chunk the loop first replays the file under the recorded
    codec.  If that fails with an error that is the corrupt input error of
    snappy, it replays the same file once more, under S2, and makes no third
    attempt: the result of the chunk is the result of that second attempt.  If
    it fails with any other error there is no second attempt.  An error that
    is left ends the loop at once, before any later chunk is tried, and is
    returned wrapped with the start and end of the chunk. *)
Theorem applyOplog_snappy_fallback (chnk : OplogChunk.t) (rest : list OplogChunk.t)
    (lts0 : Timestamp) (s : S) (log : list attempt) :
  let first := replay (OplogChunk.FName chnk) (OplogChunk.Compression chnk) s in
  let second := replay (OplogChunk.FName chnk) CompressionTypeS2 (snd first) in
  let r := applyOplog_chunk (logged_replay replay) chnk (s, log) in
  (snd (fst first) = None ->
   r = (Ok (fst (fst first)), (snd first, log ++ [own_attempt chnk]))) /\
  (forall e, snd (fst first) = Some e -> Is e ErrCorrupt = true ->
   r = (match snd (fst second) with
        | None => Ok (fst (fst second))
        | Some e2 => Err (chunk_error chnk e2)
        end,
        (snd second, log ++ [own_attempt chnk; s2_attempt chnk]))) /\
  (forall e, snd (fst first) = Some e -> Is e ErrCorrupt = false ->
   r = (Err (chunk_error chnk e), (snd first, log ++ [own_attempt chnk]))) /\
  (forall e, fst r = Err e ->
   applyOplog_chunks (logged_replay replay) (chnk :: rest) lts0 (s, log) = (Err e, snd r)) /\
  (forall lts, fst r = Ok lts ->
   applyOplog_chunks (logged_replay replay) (chnk :: rest) lts0 (s, log) =
   applyOplog_chunks (logged_replay replay) rest lts (snd r)).
Proof.
  intros first second r.
  assert (Hloop : forall res st, r = (res, st) ->
            applyOplog_chunks (logged_replay replay) (chnk :: rest) lts0 (s, log) =
            match res with
            | Err e => (Err e, st)
            | Ok lts => applyOplog_chunks (logged_replay replay) rest lts st
            end).
  { intros res st Hr. subst r. simpl. rewrite Hr. destruct res; reflexivity. }
  assert (Hlast : (forall e, fst r = Err e ->
                     applyOplog_chunks (logged_replay replay) (chnk :: rest) lts0 (s, log) =
                     (Err e, snd r)) /\
                  (forall lts, fst r = Ok lts ->
                     applyOplog_chunks (logged_replay replay) (chnk :: rest) lts0 (s, log) =
                     applyOplog_chunks (logged_replay replay) rest lts (snd r))).
  { destruct r as [res st] eqn:Hr. rewrite (Hloop res st eq_refl). simpl.
    split; intros x ->; reflexivity. }
  destruct Hlast as [Hlast1 Hlast2].
  repeat split; try assumption; clear Hloop Hlast1 Hlast2; subst first second r;
    unfold applyOplog_chunk, logged_replay, own_attempt, s2_attempt, chunk_error;
    cbn [fst snd];
    destruct (replay (OplogChunk.FName chnk) (OplogChunk.Compression chnk) s)
      as [[lts1 err1] s1]; cbn [fst snd].
  - intros ->. reflexivity.
  - intros e -> Hc. cbn [IsNilable andb]. rewrite Hc.
    destruct (replay (OplogChunk.FName chnk) CompressionTypeS2 s1) as [[lts2 [e2|]] s2];
      cbn [fst snd]; rewrite <- app_assoc; reflexivity.
  - intros e -> Hc. cbn [IsNilable andb]. rewrite Hc. reflexivity.
Qed.

End ReplayProps.

(** [replayChunk] reports the corrupt input of snappy exactly when the read,
    the decompression or the application below it did. *)
Lemma replayChunk_corrupt {Stg Reader O : Type} `{Storage Stg Reader} `{Replay O Reader}
    (file : string) (oplog : O) (stg : Stg) (c : CompressionType) :
  IsNilable (snd (fst (replayChunk file oplog stg c))) ErrCorrupt =
  match SourceReader file stg with
  | Err e => Is e ErrCorrupt
  | Ok or =>
      match Decompress or c with
      | Err e => Is e ErrCorrupt
      | Ok oplogReader => IsNilable (snd (fst (Apply oplogReader oplog))) ErrCorrupt
      end
  end.
Proof.
  unfold replayChunk.
  destruct (SourceReader file stg) as [or|e]; [|reflexivity].
  destruct (Decompress or c) as [rd|e]; [|reflexivity].
  destruct (Apply rd oplog) as [[lts [e|]] o']; reflexivity.
Qed.

(** A file of S2 bytes recorded as snappy is replayed at the second attempt,
    under S2. *)
Lemma applyOplog_snappy_fallback_witness :
  applyOplog_chunk (logged_replay (examples.replay_from examples.old_files))
    examples.mislabeled ([], []) =
  (Ok (examples.ts 9),
   ([1; 9], [("rs0/0-10.snappy", CompressionTypeSNAPPY); ("rs0/0-10.snappy", CompressionTypeS2)])).
Proof.
  destruct (applyOplog_snappy_fallback (examples.replay_from examples.old_files)
              examples.mislabeled [] zeroTimestamp [] []) as (_ & Hretry & _).
  exact (Hretry (WithMessage (Sentinel ErrCorrupt) "apply oplog for chunk") eq_refl eq_refl).
Defined.

(** The loop on three chunks: the first is S2 bytes recorded as snappy and is
    replayed at the second attempt, the second is gzip bytes recorded as zstd
    and fails with another error at its only attempt, and the third is never
    tried. *)
Lemma applyOplog_chunks_example :
  applyOplog_chunks (logged_replay (examples.replay_from examples.old_files))
    [examples.mislabeled; examples.damaged;
     examples.chunk "rs0" "rs0/20-30.s2" CompressionTypeS2 20 30]
    zeroTimestamp ([], []) =
  (Err (WithMessage (WithMessage (Fundamental "bad stream") "apply oplog for chunk")
          "replay chunk 10.20"),
   ([1; 9],
    [("rs0/0-10.snappy", CompressionTypeSNAPPY); ("rs0/0-10.snappy", CompressionTypeS2);
     ("rs0/10-20.zst", CompressionTypeZstandard)])).
Proof. reflexivity. Qed.

(** ** Scores of the nodes *)

(** The default rules, the first that applies: coefficient, primary, hidden,
    default. *)
Lemma score_default_rules (c : option (gmap string float)) (a : AgentStat.t) :
  (forall cm coeff, c = Some cm -> cm !! AgentStat.Node a = Some coeff ->
     score_default c a = PrimFloat.mul defaultScore coeff) /\
  ((c = None \/ exists cm, c = Some cm /\ cm !! AgentStat.Node a = None) ->
   (AgentStat.State a = NodeStatePrimary ->
    score_default c a = PrimFloat.div defaultScore 2%float) /\
   (AgentStat.State a <> NodeStatePrimary -> AgentStat.Hidden a = true ->
    score_default c a = PrimFloat.mul defaultScore 2%float) /\
   (AgentStat.State a <> NodeStatePrimary -> AgentStat.Hidden a = false ->
    score_default c a = defaultScore)).
Proof.
  unfold score_default. split.
  - intros cm coeff -> ->. reflexivity.
  - intros Hc.
    assert (Hlk : match c with Some cm => cm !! AgentStat.Node a | None => None end = None).
    { destruct Hc as [->|(cm & -> & Hcm)]; [reflexivity|exact Hcm]. }
    rewrite Hlk. split; [|split].
    + intros ->. reflexivity.
    + intros Hst ->. destruct (AgentStat.State a); try reflexivity. congruence.
    + intros Hst ->. destruct (AgentStat.State a); try reflexivity. congruence.
Qed.

(** The rules under a configuration: the configured score, or the default
    one for a node that is absent or whose configured score is below zero. *)
Lemma score_config_rules (pm : gmap string float) (a : AgentStat.t) :
  (pm !! AgentStat.Node a = None -> score_config (Some pm) a = defaultScore) /\
  (forall sc, pm !! AgentStat.Node a = Some sc -> PrimFloat.ltb sc 0%float = true ->
     score_config (Some pm) a = defaultScore) /\
  (forall sc, pm !! AgentStat.Node a = Some sc -> PrimFloat.ltb sc 0%float = false ->
     score_config (Some pm) a = sc).
Proof.
  unfold score_config. split; [|split].
  - intros ->. reflexivity.
  - intros sc -> ->. reflexivity.
  - intros sc -> ->. reflexivity.
Qed.

(** Where the priority map is nil or holds an entry, the code scores as
    stated: by the configuration when there is one, by the default rules and
    the coefficients otherwise. *)
Lemma BcpNodesPriority_score_stated (c : option (gmap string float)) (cfg : Config.t) :
  BackupConf.Priority (Config.Backup cfg) = None \/
  0 < map_len (BackupConf.Priority (Config.Backup cfg)) ->
  BcpNodesPriority_score c cfg = stated_score c cfg.
Proof.
  unfold BcpNodesPriority_score, stated_score.
  intros [->|Hlen]; [reflexivity|].
  apply Z.gtb_lt in Hlen. rewrite Hlen, orb_true_r. reflexivity.
Qed.

(** Under a priority map that is there but empty every node scores the
    default, whatever the coefficients and the node are. *)
Lemma BcpNodesPriority_score_empty (c : option (gmap string float)) (cfg : Config.t)
    (a : AgentStat.t) :
  BackupConf.Priority (Config.Backup cfg) = Some ∅ ->
  BcpNodesPriority_score c cfg a = defaultScore.
Proof.
  intros Hprio. unfold BcpNodesPriority_score, score_config. rewrite Hprio. simpl.
  rewrite lookup_empty. reflexivity.
Qed.

(** C6 at the input where the code leaves it.  Under a priority map that is
    not nil but empty, every node scores the default 1: the coefficient 3 of
    n1 is not applied, the primary n2 does not score 0.5 and the hidden n3
    does not score 2, which are the scores stated for a cluster with no
    priority configuration; so [BcpNodesPriority] returns the three nodes in
    one group, where the stated scores give the groups n1, n3, n2. *)
Theorem BcpNodesPriority_empty_priority :
  let n1 := examples.agent "n1" NodeStateSecondary false true in
  let n2 := examples.agent "n2" NodeStatePrimary false true in
  let n3 := examples.agent "n3" NodeStateSecondary true true in
  map_len (BackupConf.Priority (Config.Backup examples.empty_priority)) = 0 /\
  (BcpNodesPriority_score examples.coefficients examples.empty_priority n1 = 1%float /\
   stated_score examples.coefficients examples.empty_priority n1 = 3%float) /\
  (BcpNodesPriority_score examples.coefficients examples.empty_priority n2 = 1%float /\
   stated_score examples.coefficients examples.empty_priority n2 = 0.5%float) /\
  (BcpNodesPriority_score examples.coefficients examples.empty_priority n3 = 1%float /\
   stated_score examples.coefficients examples.empty_priority n3 = 2%float) /\
  (exists n,
     BcpNodesPriority (examples.config_store examples.empty_priority) examples.coefficients
       examples.three_agents = Ok n /\
     fst (NodesPriority.RS n "rs0") = [["n1"; "n2"; "n3"]]) /\
  fst (NodesPriority.RS
         (bcpNodesPriority examples.three_agents
            (stated_score examples.coefficients examples.empty_priority)) "rs0") =
  [["n1"]; ["n3"]; ["n2"]].
Proof.
  repeat split; try reflexivity.
  eexists. split; reflexivity.
Qed.

(** ** Comparison of float64 scores *)

Lemma SFcompare_antisym (x y : spec_float) (c : comparison) :
  SFcompare x y = Some c -> SFcompare y x = Some (CompOpp c).
Proof.
  destruct x as [sx|sx| |sx mx ex], y as [sy|sy| |sy my ey]; simpl;
    try discriminate; try (intros [= <-]; destruct sx; try destruct sy; reflexivity).
  intros [= <-]. f_equal.
  change (Pos.compare_cont Eq mx my) with (Pos.compare mx my).
  change (Pos.compare_cont Eq my mx) with (Pos.compare my mx).
  rewrite (Z.compare_antisym ex ey), (Pos.compare_antisym mx my).
  destruct sx, sy; try reflexivity;
    destruct (ex ?= ey); simpl; try reflexivity;
    destruct (mx ?= my)%positive; reflexivity.
Qed.

Lemma SFcompare_Eq_cong (x y z : spec_float) :
  SFcompare x y = Some Eq -> SFcompare x z = SFcompare y z.
Proof.
  destruct x as [sx|sx| |sx mx ex], y as [sy|sy| |sy my ey]; simpl;
    try discriminate;
    try (destruct sx; discriminate); try (destruct sy; discriminate).
  - intros _. destruct z; reflexivity.
  - destruct sx, sy; try discriminate; reflexivity.
  - intros [= Hc].
    change (Pos.compare_cont Eq mx my) with (Pos.compare mx my) in Hc.
    assert (sx = sy /\ ex = ey /\ mx = my) as (-> & -> & ->).
    { destruct sx, sy; try discriminate;
        destruct (Z.compare_spec ex ey); try discriminate;
        destruct (Pos.compare_spec mx my); try discriminate; auto. }
    reflexivity.
Qed.

Lemma SFcompare_Lt_trans (x y z : spec_float) :
  SFcompare x y = Some Lt -> SFcompare y z = Some Lt -> SFcompare x z = Some Lt.
Proof.
  destruct x as [sx|sx| |sx mx ex], y as [sy|sy| |sy my ey], z as [sz|sz| |sz mz ez]; simpl;
    try discriminate;
    try (destruct sx; try destruct sy; try destruct sz; simpl; congruence).
  intros [= H1] [= H2]. f_equal.
  destruct sx, sy, sz; try discriminate; try reflexivity;
    change (Pos.compare_cont Eq mx my) with (Pos.compare mx my) in H1;
    change (Pos.compare_cont Eq my mz) with (Pos.compare my mz) in H2;
    change (Pos.compare_cont Eq mx mz) with (Pos.compare mx mz);
    destruct (Z.compare_spec ex ey), (Z.compare_spec ey ez), (Z.compare_spec ex ez);
    try discriminate; try lia; try reflexivity;
    destruct (Pos.compare_spec mx my), (Pos.compare_spec my mz), (Pos.compare_spec mx mz);
    simpl in *; try discriminate; try lia; try reflexivity.
Qed.

Lemma SFcompare_Some (x y : spec_float) :
  x <> S754_nan -> y <> S754_nan -> exists c, SFcompare x y = Some c.
Proof.
  destruct x, y; simpl; intros Hx Hy; try congruence; eauto.
Qed.

Lemma not_nan_SF (x : float) : PrimFloat.is_nan x = false -> Prim2SF x <> S754_nan.
Proof.
  unfold PrimFloat.is_nan. rewrite FloatAxioms.eqb_spec. unfold SFeqb. intros H Hn.
  rewrite Hn in H. discriminate H.
Qed.

Lemma float_eqb_refl (x : float) : PrimFloat.is_nan x = false -> PrimFloat.eqb x x = true.
Proof. unfold PrimFloat.is_nan. destruct (PrimFloat.eqb x x); [reflexivity|discriminate]. Qed.

Lemma float_eqb_sym (x y : float) : PrimFloat.eqb x y = PrimFloat.eqb y x.
Proof.
  rewrite !FloatAxioms.eqb_spec. unfold SFeqb.
  destruct (SFcompare (Prim2SF x) (Prim2SF y)) as [c|] eqn:Hxy.
  - rewrite (SFcompare_antisym _ _ _ Hxy). destruct c; reflexivity.
  - destruct (SFcompare (Prim2SF y) (Prim2SF x)) as [c|] eqn:Hyx; [|reflexivity].
    rewrite (SFcompare_antisym _ _ _ Hyx) in Hxy. discriminate.
Qed.

Lemma float_eqb_cong (x y z : float) :
  PrimFloat.eqb x y = true ->
  PrimFloat.eqb x z = PrimFloat.eqb y z /\ PrimFloat.ltb z x = PrimFloat.ltb z y.
Proof.
  rewrite !FloatAxioms.eqb_spec, !FloatAxioms.ltb_spec. unfold SFeqb, SFltb. intros H.
  destruct (SFcompare (Prim2SF x) (Prim2SF y)) as [[| |]|] eqn:Hxy; try discriminate.
  split; [rewrite (SFcompare_Eq_cong _ _ (Prim2SF z) Hxy); reflexivity|].
  pose proof (SFcompare_Eq_cong _ _ (Prim2SF z) Hxy) as Hz.
  destruct (SFcompare (Prim2SF z) (Prim2SF x)) as [c|] eqn:Hzx.
  - apply SFcompare_antisym in Hzx. rewrite Hz in Hzx. apply SFcompare_antisym in Hzx.
    rewrite Hzx. destruct c; reflexivity.
  - destruct (SFcompare (Prim2SF z) (Prim2SF y)) as [c|] eqn:Hzy; [|reflexivity].
    apply SFcompare_antisym in Hzy. rewrite <- Hz in Hzy. apply SFcompare_antisym in Hzy.
    congruence.
Qed.

Lemma float_ltb_asym (x y : float) : PrimFloat.ltb x y = true -> PrimFloat.ltb y x = false.
Proof.
  rewrite !FloatAxioms.ltb_spec. unfold SFltb.
  destruct (SFcompare (Prim2SF x) (Prim2SF y)) as [[| |]|] eqn:Hxy; try discriminate.
  rewrite (SFcompare_antisym _ _ _ Hxy). reflexivity.
Qed.

Lemma float_ltb_total (x y : float) :
  PrimFloat.is_nan x = false -> PrimFloat.is_nan y = false ->
  PrimFloat.ltb x y = false -> PrimFloat.eqb x y = false -> PrimFloat.ltb y x = true.
Proof.
  intros Hx Hy. apply not_nan_SF in Hx, Hy.
  rewrite !FloatAxioms.ltb_spec, FloatAxioms.eqb_spec. unfold SFltb, SFeqb.
  destruct (SFcompare_Some _ _ Hx Hy) as [c Hc]. rewrite Hc, (SFcompare_antisym _ _ _ Hc).
  destruct c; simpl; congruence.
Qed.

Lemma float_ltb_trans (x y z : float) :
  PrimFloat.ltb x y = true -> PrimFloat.ltb y z = true -> PrimFloat.ltb x z = true.
Proof.
  rewrite !FloatAxioms.ltb_spec. unfold SFltb.
  destruct (SFcompare (Prim2SF x) (Prim2SF y)) as [[| |]|] eqn:Hxy; try discriminate.
  destruct (SFcompare (Prim2SF y) (Prim2SF z)) as [[| |]|] eqn:Hyz; try discriminate.
  rewrite (SFcompare_Lt_trans _ _ _ Hxy Hyz). reflexivity.
Qed.

Lemma float_eqb_cong_r (x y z : float) :
  PrimFloat.eqb x y = true -> PrimFloat.eqb z x = PrimFloat.eqb z y.
Proof.
  intros Hxy. rewrite (float_eqb_sym z x), (float_eqb_sym z y).
  apply (float_eqb_cong x y z Hxy).
Qed.

Lemma float_eqb_not_nan (x y : float) :
  PrimFloat.eqb x y = true -> PrimFloat.is_nan x = false /\ PrimFloat.is_nan y = false.
Proof.
  intros Hxy. unfold PrimFloat.is_nan.
  rewrite (proj1 (float_eqb_cong x y x Hxy)), (float_eqb_sym y x), Hxy.
  rewrite <- (float_eqb_cong_r x y y Hxy), (float_eqb_sym y x), Hxy. auto.
Qed.

(** ** The map from scores to nodes *)

(** The association list behaves as a map whose keys are compared with the
    float comparison. *)
Lemma scoremap_lookup_set (m : scoremap) (sc : float) (v : list string) (k : float) :
  scoremap_lookup (scoremap_set m sc v) k =
  if PrimFloat.eqb sc k then Some v else scoremap_lookup m k.
Proof.
  induction m as [|[k0 w] m IH]; simpl; [reflexivity|].
  destruct (PrimFloat.eqb k0 sc) eqn:H0; simpl.
  - rewrite (proj1 (float_eqb_cong k0 sc k H0)). destruct (PrimFloat.eqb sc k); reflexivity.
  - rewrite IH. destruct (PrimFloat.eqb k0 k) eqn:Hk; [|reflexivity].
    destruct (PrimFloat.eqb sc k) eqn:Hs; [|reflexivity].
    rewrite (float_eqb_cong_r sc k k0 Hs) in H0. congruence.
Qed.

Lemma scoremap_set_keys (m : scoremap) (sc : float) (v : list string) :
  map fst (scoremap_set m sc v) =
  match scoremap_lookup m sc with
  | Some _ => map fst m
  | None => map fst m ++ [sc]
  end.
Proof.
  induction m as [|[k0 w] m IH]; simpl; [reflexivity|].
  destruct (PrimFloat.eqb k0 sc); simpl; [reflexivity|].
  rewrite IH. destruct (scoremap_lookup m sc); reflexivity.
Qed.

Lemma nodes_with_snoc (k : float) (adds : list (string * float)) (node : string) (sc : float) :
  nodes_with k (adds ++ [(node, sc)]) =
  nodes_with k adds ++ (if PrimFloat.eqb sc k then [node] else []).
Proof.
  unfold nodes_with. rewrite List.filter_app, map_app. simpl.
  destruct (PrimFloat.eqb sc k); reflexivity.
Qed.

Lemma nodes_with_cong (k k' : float) (adds : list (string * float)) :
  PrimFloat.eqb k k' = true -> nodes_with k adds = nodes_with k' adds.
Proof.
  intros Hk. unfold nodes_with. f_equal. apply List.filter_ext.
  intros p. apply float_eqb_cong_r. exact Hk.
Qed.

Lemma nodes_with_nil (k : float) (adds : list (string * float)) :
  nodes_with k adds = [] <-> Forall (fun p => PrimFloat.eqb (snd p) k = false) adds.
Proof.
  unfold nodes_with. induction adds as [|p adds IH]; simpl.
  - split; [constructor|reflexivity].
  - destruct (PrimFloat.eqb (snd p) k) eqn:Hp; simpl.
    + split; [discriminate|]. intros Hall. inversion Hall; congruence.
    + rewrite IH. split; [intros Hall; constructor; assumption|].
      intros Hall. inversion Hall; assumption.
Qed.

Lemma nonempty_entry_snoc (l : list string) (node : string) :
  nonempty_entry (l ++ [node]) = Some (l ++ [node]).
Proof. destruct l; reflexivity. Qed.

Lemma build_snoc (adds : list (string * float)) (node : string) (sc : float) :
  build (adds ++ [(node, sc)]) = nodeScores.add (build adds) node sc.
Proof. unfold build. rewrite fold_left_app. reflexivity. Qed.

(** After any sequence of [add], the map holds under each score exactly the
    nodes added with that score, in the order they were added. *)
Lemma build_lookup (adds : list (string * float)) (k : float) :
  scoremap_lookup (nodeScores.m (build adds)) k = nonempty_entry (nodes_with k adds).
Proof.
  revert k. induction adds as [|[node sc] adds IH] using rev_ind; intros k; [reflexivity|].
  rewrite build_snoc, nodes_with_snoc. unfold nodeScores.add. simpl.
  rewrite scoremap_lookup_set, (IH sc).
  assert (Hnodes : match nonempty_entry (nodes_with sc adds) with
                   | Some v => v
                   | None => []
                   end = nodes_with sc adds).
  { destruct (nodes_with sc adds); reflexivity. }
  rewrite Hnodes.
  destruct (PrimFloat.eqb sc k) eqn:Hk.
  - rewrite (nodes_with_cong sc k adds Hk). symmetry. apply nonempty_entry_snoc.
  - rewrite app_nil_r. apply IH.
Qed.

(** The index holds the keys of the map, in the order of their first use. *)
Lemma build_keys (adds : list (string * float)) :
  map fst (nodeScores.m (build adds)) = nodeScores.idx (build adds).
Proof.
  induction adds as [|[node sc] adds IH] using rev_ind; [reflexivity|].
  rewrite build_snoc. unfold nodeScores.add. simpl.
  rewrite scoremap_set_keys, IH.
  destruct (scoremap_lookup (nodeScores.m (build adds)) sc); reflexivity.
Qed.

Lemma build_idx_In (adds : list (string * float)) (k : float) :
  In k (nodeScores.idx (build adds)) -> exists node, In (node, k) adds.
Proof.
  induction adds as [|[node sc] adds IH] using rev_ind; [intros []|].
  rewrite build_snoc. unfold nodeScores.add. simpl.
  intros Hin.
  assert (Hcases : In k (nodeScores.idx (build adds)) \/ k = sc).
  { destruct (scoremap_lookup (nodeScores.m (build adds)) sc); [left; exact Hin|].
    apply in_app_or in Hin. destruct Hin as [Hin|[<-|[]]]; auto. }
  destruct Hcases as [Hold| ->].
  - destruct (IH Hold) as [n Hn]. exists n. apply in_or_app. left. exact Hn.
  - exists node. apply in_or_app. right. left. reflexivity.
Qed.

Lemma distinct_keys_snoc (l : list float) (sc : float) :
  distinct_keys l -> Forall (fun k => PrimFloat.eqb k sc = false) l ->
  distinct_keys (l ++ [sc]).
Proof.
  induction l as [|k l IH]; simpl; intros Hd Hall.
  - split; [constructor|exact Logic.I].
  - destruct Hd as [Hk Hd]. inversion Hall as [|? ? Hksc Hall']; subst.
    split; [|apply IH; assumption].
    apply List.Forall_app. split; [exact Hk|]. constructor; [exact Hksc|constructor].
Qed.

(** No two scores of the index are equal. *)
Lemma build_idx_distinct (adds : list (string * float)) :
  distinct_keys (nodeScores.idx (build adds)).
Proof.
  induction adds as [|[node sc] adds IH] using rev_ind; [exact Logic.I|].
  rewrite build_snoc. unfold nodeScores.add. simpl.
  destruct (scoremap_lookup (nodeScores.m (build adds)) sc) eqn:Hlk; [exact IH|].
  apply distinct_keys_snoc; [exact IH|].
  rewrite build_lookup in Hlk.
  assert (Hnil : nodes_with sc adds = []) by (destruct (nodes_with sc adds); [reflexivity|discriminate]).
  apply nodes_with_nil in Hnil. rewrite List.Forall_forall in Hnil.
  apply List.Forall_forall. intros k Hk.
  destruct (build_idx_In adds k Hk) as [n Hn]. exact (Hnil (n, k) Hn).
Qed.

(** Every score added, if not NaN, is equal to a score of the index. *)
Lemma build_idx_cover (adds : list (string * float)) :
  forall p, In p adds -> PrimFloat.is_nan (snd p) = false ->
    exists k, In k (nodeScores.idx (build adds)) /\ PrimFloat.eqb k (snd p) = true.
Proof.
  induction adds as [|[node sc] adds IH] using rev_ind; [intros p []|].
  intros p Hin Hnan. rewrite build_snoc. unfold nodeScores.add. simpl.
  assert (Hgrow : forall k, In k (nodeScores.idx (build adds)) ->
            In k (match scoremap_lookup (nodeScores.m (build adds)) sc with
                  | Some _ => nodeScores.idx (build adds)
                  | None => nodeScores.idx (build adds) ++ [sc]
                  end)).
  { intros k Hk. destruct (scoremap_lookup _ sc); [exact Hk|]. apply in_or_app. left. exact Hk. }
  apply in_app_or in Hin. destruct Hin as [Hin|[<-|[]]].
  - destruct (IH p Hin Hnan) as (k & Hk & Heq). exists k. split; [apply Hgrow, Hk|exact Heq].
  - simpl in Hnan. simpl.
    destruct (scoremap_lookup (nodeScores.m (build adds)) sc) eqn:Hlk.
    + rewrite build_lookup in Hlk.
      destruct (List.filter (fun q => PrimFloat.eqb (snd q) sc) adds) as [|q qs] eqn:Hf.
      { unfold nodes_with in Hlk. rewrite Hf in Hlk. discriminate Hlk. }
      assert (Hq : In q (List.filter (fun q => PrimFloat.eqb (snd q) sc) adds))
        by (rewrite Hf; left; reflexivity).
      apply filter_In in Hq. destruct Hq as [Hq Hqsc].
      destruct (IH q Hq (proj1 (float_eqb_not_nan _ _ Hqsc))) as (k & Hk & Heq).
      exists k. split; [exact Hk|].
      rewrite <- (float_eqb_cong_r (snd q) sc k Hqsc). exact Heq.
    + exists sc. split; [apply in_or_app; right; left; reflexivity|].
      apply float_eqb_refl. exact Hnan.
Qed.

(** ** The sort of the index *)

Lemma SFcompare_refl (x : spec_float) : x <> S754_nan -> SFcompare x x = Some Eq.
Proof.
  destruct x as [s|s| |s m e]; simpl; intros Hx; try congruence.
  - destruct s; reflexivity.
  - change (Pos.compare_cont Eq m m) with (Pos.compare m m).
    rewrite Z.compare_refl, Pos.compare_refl. destruct s; reflexivity.
Qed.

Lemma float_ltb_not_nan (x y : float) :
  PrimFloat.ltb x y = true -> PrimFloat.is_nan x = false /\ PrimFloat.is_nan y = false.
Proof.
  rewrite FloatAxioms.ltb_spec. unfold SFltb, PrimFloat.is_nan.
  rewrite !FloatAxioms.eqb_spec. unfold SFeqb.
  destruct (Prim2SF x) as [sx|sx| |sx mx ex] eqn:Hx, (Prim2SF y) as [sy|sy| |sy my ey] eqn:Hy;
    try discriminate; intros _;
    rewrite !SFcompare_refl by discriminate; auto.
Qed.

Lemma sort_insert_perm (less : float -> float -> bool) (x : float) (l : list float) :
  Permutation (sort_insert less x l) (x :: l).
Proof.
  induction l as [|y l IH]; simpl; [reflexivity|].
  destruct (less y x); [|reflexivity].
  rewrite IH. apply perm_swap.
Qed.

(** The sort rearranges the index and loses nothing. *)
Lemma sort_Sort_perm (less : float -> float -> bool) (l : list float) :
  Permutation (sort_Sort less l) l.
Proof.
  induction l as [|x l IH]; simpl; [reflexivity|].
  rewrite sort_insert_perm. apply perm_skip. exact IH.
Qed.

(** The order of the reversed float slice never puts two values both ways. *)
Lemma Reverse_Less_asym (x y : float) :
  Reverse_Less y x = true -> Reverse_Less x y = false.
Proof.
  unfold Reverse_Less, Float64Slice_Less. intros Hyx.
  apply orb_true_iff in Hyx. destruct Hyx as [Hlt|Hnan].
  - destruct (float_ltb_not_nan x y Hlt) as [Hx Hy].
    rewrite (float_ltb_asym x y Hlt), Hy. reflexivity.
  - apply andb_true_iff in Hnan. destruct Hnan as [Hx Hy].
    apply negb_true_iff in Hy. rewrite Hy, andb_false_l, orb_false_r.
    destruct (PrimFloat.ltb y x) eqn:Hlt; [|reflexivity].
    destruct (float_ltb_not_nan y x Hlt) as [_ Hx']. congruence.
Qed.

Lemma sort_insert_sorted (x : float) (l : list float) :
  Sorted (fun a b => Reverse_Less b a = false) l ->
  Sorted (fun a b => Reverse_Less b a = false) (sort_insert Reverse_Less x l).
Proof.
  induction l as [|y l IH]; simpl; intros Hs.
  - constructor; constructor.
  - apply Sorted_inv in Hs. destruct Hs as [Hs Hhd].
    destruct (Reverse_Less y x) eqn:Hyx.
    + constructor; [apply IH, Hs|].
      destruct l as [|z l]; simpl.
      * constructor. apply Reverse_Less_asym. exact Hyx.
      * destruct (Reverse_Less z x).
        -- constructor. inversion Hhd; assumption.
        -- constructor. apply Reverse_Less_asym. exact Hyx.
    + constructor; [constructor; assumption|]. constructor. exact Hyx.
Qed.

(** After the sort no score stands before one it should follow. *)
Lemma sort_Sort_sorted (l : list float) :
  Sorted (fun a b => Reverse_Less b a = false) (sort_Sort Reverse_Less l).
Proof.
  induction l as [|x l IH]; simpl; [constructor|]. apply sort_insert_sorted, IH.
Qed.

Lemma distinct_keys_perm (l l' : list float) :
  Permutation l l' -> distinct_keys l -> distinct_keys l'.
Proof.
  induction 1 as [|x l l' Hp IH|x y l|l l' l'' Hp1 IH1 Hp2 IH2]; simpl.
  - trivial.
  - intros [Hx Hd]. split; [|apply IH, Hd].
    eapply Permutation_Forall; eassumption.
  - intros [Hy [Hx Hd]]. inversion Hy as [|? ? Hyx Hy']; subst.
    split; [|split; assumption].
    constructor; [|exact Hx]. rewrite float_eqb_sym. exact Hyx.
  - intros Hd. apply IH2, IH1, Hd.
Qed.

(** Sorted scores that are pairwise different and not NaN go strictly down. *)
Lemma sorted_strictly_descending (l : list float) :
  Forall (fun k => PrimFloat.is_nan k = false) l ->
  distinct_keys l ->
  Sorted (fun a b => Reverse_Less b a = false) l ->
  strictly_descending l.
Proof.
  intros Hnan Hd Hs. unfold strictly_descending.
  apply Sorted_StronglySorted.
  { intros x y z Hyx Hzy. exact (float_ltb_trans z y x Hzy Hyx). }
  induction Hs as [|a l Hs IH Hhd]; [constructor|].
  inversion Hnan as [|? ? Ha Hnan']; subst. destruct Hd as [Hak Hd].
  constructor; [apply IH; assumption|].
  destruct Hhd as [|b l Hab]; constructor.
  inversion Hnan' as [|? ? Hb _]; subst. inversion Hak as [|? ? Heq _]; subst.
  unfold Reverse_Less, Float64Slice_Less in Hab.
  apply orb_false_iff in Hab. destruct Hab as [Hlt _].
  apply float_ltb_total; assumption.
Qed.

(** ** The groups together *)

Lemma nodes_with_cons (k : float) (p : string * float) (adds : list (string * float)) :
  nodes_with k (p :: adds) =
  if PrimFloat.eqb (snd p) k then fst p :: nodes_with k adds else nodes_with k adds.
Proof. unfold nodes_with. simpl. destruct (PrimFloat.eqb (snd p) k); reflexivity. Qed.

Lemma concat_groups_none (sc : float) (n : string) (g : float -> list string) (ks : list float) :
  Forall (fun k => PrimFloat.eqb sc k = false) ks ->
  concat (map (fun k => if PrimFloat.eqb sc k then n :: g k else g k) ks) = concat (map g ks).
Proof.
  induction 1 as [|k ks Hk Hks IH]; simpl; [reflexivity|]. rewrite Hk, IH. reflexivity.
Qed.

(** A node whose score is equal to one of pairwise different scores falls
    into exactly one group. *)
Lemma concat_groups_one (sc : float) (n : string) (g : float -> list string) (ks : list float) :
  distinct_keys ks ->
  (exists k, In k ks /\ PrimFloat.eqb k sc = true) ->
  Permutation (concat (map (fun k => if PrimFloat.eqb sc k then n :: g k else g k) ks))
    (n :: concat (map g ks)).
Proof.
  induction ks as [|k ks IH]; simpl; intros Hd (k0 & Hin & Hk0); [destruct Hin|].
  destruct Hd as [Hk Hd].
  destruct (PrimFloat.eqb sc k) eqn:Hsck.
  - rewrite concat_groups_none; [reflexivity|].
    eapply List.Forall_impl; [|exact Hk]. simpl. intros k' Hkk'.
    rewrite (proj1 (float_eqb_cong sc k k' Hsck)). exact Hkk'.
  - destruct Hin as [->|Hin].
    + rewrite float_eqb_sym in Hk0. congruence.
    + rewrite (IH Hd (ex_intro _ k0 (conj Hin Hk0))).
      symmetry. apply Permutation_middle.
Qed.

(** Groups taken at pairwise different scores that cover every score added
    hold, together, each node added exactly as often as it was added. *)
Lemma groups_permutation (ks : list float) (adds : list (string * float)) :
  distinct_keys ks ->
  (forall p, In p adds -> exists k, In k ks /\ PrimFloat.eqb k (snd p) = true) ->
  Permutation (concat (map (fun k => nodes_with k adds) ks)) (map fst adds).
Proof.
  intros Hd. induction adds as [|p adds IH]; intros Hcover.
  - clear Hd Hcover. unfold nodes_with. simpl.
    induction ks as [|k ks IHk]; simpl; [reflexivity|exact IHk].
  - simpl map at 2.
    rewrite (map_ext (fun k => nodes_with k (p :: adds))
               (fun k => if PrimFloat.eqb (snd p) k then fst p :: nodes_with k adds
                         else nodes_with k adds) (fun k => nodes_with_cons k p adds)).
    rewrite concat_groups_one; [|exact Hd|apply Hcover; left; reflexivity].
    apply perm_skip. apply IH. intros q Hq. apply Hcover. right. exact Hq.
Qed.

(** ** The priority list of a replica set *)

Lemma bcpNodesPriority_fold (agents : list AgentStat.t) (f : agentScore) (rs : string)
    (n0 : NodesPriority.t) :
  default nodeScores.zero
    (NodesPriority.m
       (fold_left
          (fun scores a =>
             if negb (AgentStat.OK a) then scores
             else NodesPriority.Add scores (AgentStat.RS a) (AgentStat.Node a) (f a))
          agents n0) !! rs) =
  fold_left (fun s p => nodeScores.add s (fst p) (snd p)) (healthy_adds rs agents f)
    (default nodeScores.zero (NodesPriority.m n0 !! rs)).
Proof.
  revert n0. induction agents as [|a agents IH]; intros n0; [reflexivity|].
  simpl fold_left at 1. rewrite IH. unfold healthy_adds. simpl List.filter.
  destruct (AgentStat.OK a); simpl; [|reflexivity].
  destruct (String.eqb_spec (AgentStat.RS a) rs) as [->|Hne]; simpl.
  - rewrite lookup_insert_eq. simpl. destruct (NodesPriority.m n0 !! rs); reflexivity.
  - rewrite lookup_insert_ne by exact Hne. reflexivity.
Qed.

(** The scores that [bcpNodesPriority] holds for a replica set are those of
    the healthy agents of that replica set, added in the order of [agents]. *)
Lemma bcpNodesPriority_build (agents : list AgentStat.t) (f : agentScore) (rs : string) :
  default nodeScores.zero (NodesPriority.m (bcpNodesPriority agents f) !! rs) =
  build (healthy_adds rs agents f).
Proof. unfold bcpNodesPriority. rewrite bcpNodesPriority_fold. reflexivity. Qed.

Lemma RS_list (n : NodesPriority.t) (rs : string) :
  fst (NodesPriority.RS n rs) =
  fst (nodeScores.list (default nodeScores.zero (NodesPriority.m n !! rs))).
Proof.
  unfold NodesPriority.RS. destruct (NodesPriority.m n !! rs) as [s|]; simpl; reflexivity.
Qed.

(** The groups of [list]: for each score of the sorted index, the nodes added
    with that score. *)
Lemma list_groups (adds : list (string * float)) :
  fst (nodeScores.list (build adds)) =
  map (fun k => nodes_with k adds) (sort_Sort Reverse_Less (nodeScores.idx (build adds))).
Proof.
  unfold nodeScores.list. simpl. apply map_ext. intros k.
  unfold scoremap_get. rewrite build_lookup.
  destruct (nodes_with k adds); reflexivity.
Qed.

(** C7, as the code has it.  For the healthy agents of a replica set whose
    scores are not NaN, [RS] returns, for scores in strictly descending
    order, the group of the nodes that were added with that score; the groups
    together hold exactly the nodes of the healthy agents of the replica
    set, so a node of an agent that reports unhealthy comes from no [Add]. *)
Theorem RS_groups (agents : list AgentStat.t) (f : agentScore) (rs : string) :
  Forall (fun p => PrimFloat.is_nan (snd p) = false) (healthy_adds rs agents f) ->
  stated_groups (healthy_adds rs agents f)
    (fst (NodesPriority.RS (bcpNodesPriority agents f) rs)) /\
  (forall group node,
     In group (fst (NodesPriority.RS (bcpNodesPriority agents f) rs)) -> In node group ->
     exists a, In a agents /\ AgentStat.OK a = true /\ AgentStat.RS a = rs /\
               AgentStat.Node a = node).
Proof.
  intros Hnan.
  set (adds := healthy_adds rs agents f) in *.
  assert (Hgroups : fst (NodesPriority.RS (bcpNodesPriority agents f) rs) =
                    map (fun k => nodes_with k adds)
                      (sort_Sort Reverse_Less (nodeScores.idx (build adds)))).
  { rewrite RS_list, bcpNodesPriority_build. apply list_groups. }
  set (ks := sort_Sort Reverse_Less (nodeScores.idx (build adds))) in *.
  assert (Hperm : Permutation ks (nodeScores.idx (build adds))) by apply sort_Sort_perm.
  assert (Hd : distinct_keys ks).
  { apply (distinct_keys_perm (nodeScores.idx (build adds))); [symmetry; exact Hperm|].
    apply build_idx_distinct. }
  assert (Hks : Forall (fun k => PrimFloat.is_nan k = false) ks).
  { apply List.Forall_forall. intros k Hk.
    apply (Permutation_in _ Hperm) in Hk.
    destruct (build_idx_In adds k Hk) as [n Hn].
    rewrite List.Forall_forall in Hnan. exact (Hnan (n, k) Hn). }
  assert (Hall : Permutation (concat (map (fun k => nodes_with k adds) ks)) (map fst adds)).
  { apply groups_permutation; [exact Hd|].
    intros p Hp. rewrite List.Forall_forall in Hnan.
    destruct (build_idx_cover adds p Hp (Hnan p Hp)) as (k & Hk & Heq).
    exists k. split; [|exact Heq]. apply (Permutation_in _ (Permutation_sym Hperm)). exact Hk. }
  split.
  - exists ks. split; [|split].
    + apply sorted_strictly_descending; [exact Hks|exact Hd|apply sort_Sort_sorted].
    + exact Hgroups.
    + rewrite Hgroups. exact Hall.
  - intros group node Hgroup Hnode. rewrite Hgroups in Hgroup.
    assert (Hin : In node (map fst adds)).
    { apply (Permutation_in _ Hall). apply in_concat. exists group. split; assumption. }
    apply in_map_iff in Hin. destruct Hin as ([n sc] & Hn & Hp). simpl in Hn. subst n.
    unfold adds, healthy_adds in Hp. apply in_map_iff in Hp.
    destruct Hp as (a & Ha & Hfa). injection Ha as Hnode' _.
    apply filter_In in Hfa. destruct Hfa as [Hin Hok].
    apply andb_true_iff in Hok. destruct Hok as [Hok Hrs].
    exists a. repeat split; try assumption. apply String.eqb_eq. exact Hrs.
Qed.

(** With no priority configured: the primary n1 scores 0.5, the hidden n3
    scores 2, the plain n4 scores 1, and n2, which reports unhealthy, is in no
    group. *)
Lemma RS_four_agents :
  fst (NodesPriority.RS
         (bcpNodesPriority examples.four_agents (BcpNodesPriority_score None examples.no_config))
         "rs0") = [["n3"]; ["n4"]; ["n1"]].
Proof. reflexivity. Qed.

(** The groups of these four agents are as stated. *)
Lemma RS_groups_witness :
  stated_groups
    (healthy_adds "rs0" examples.four_agents (BcpNodesPriority_score None examples.no_config))
    (fst (NodesPriority.RS
            (bcpNodesPriority examples.four_agents
               (BcpNodesPriority_score None examples.no_config)) "rs0")).
Proof.
  apply (RS_groups examples.four_agents (BcpNodesPriority_score None examples.no_config) "rs0").
  repeat constructor.
Defined.

(** C7 as stated fails on a score that is NaN.  With the priority of n1
    configured as NaN, the healthy agents n1 and n2 of rs0 are added with the
    scores NaN and 1; [RS] returns the group of n2 and an empty group, and n1
    is in neither. *)
Lemma RS_groups_nan_counterexample :
  let f := BcpNodesPriority_score None examples.nan_priority in
  healthy_adds "rs0" examples.two_agents f = [("n1", PrimFloat.nan); ("n2", 1%float)] /\
  fst (NodesPriority.RS (bcpNodesPriority examples.two_agents f) "rs0") = [["n2"]; []] /\
  ~ stated_groups (healthy_adds "rs0" examples.two_agents f)
      (fst (NodesPriority.RS (bcpNodesPriority examples.two_agents f) "rs0")).
Proof.
  intros f. split; [reflexivity|]. split; [reflexivity|].
  intros (ks & _ & _ & Hperm).
  apply Permutation_length in Hperm. vm_compute in Hperm. discriminate Hperm.
Qed.

(** * Further properties *)

(** ** The range that validated chunks cover *)

Section ChunksCoverage.
Context {St : Type} `{PBM St} {Stg Reader : Type} `{Storage Stg Reader}.

Lemma ts_le_trans (a b c : Timestamp) : ts_le a b -> ts_le b c -> ts_le a c.
Proof. unfold ts_le. lia. Qed.

Lemma ts_le_total (a b : Timestamp) : ts_le a b \/ ts_lt b a.
Proof. unfold ts_le, ts_lt. lia. Qed.

Lemma ts_lt_le (a b : Timestamp) : ts_lt a b -> ts_le a b.
Proof. unfold ts_le, ts_lt. lia. Qed.

(** A timeline without gaps from [cur] on holds every time between [cur]
    and the end of its last chunk. *)
Lemma covered_holds (l : list OplogChunk.t) :
  forall (cur t : Timestamp) (c : OplogChunk.t),
    covered cur l -> last l = Some c -> ts_le cur t -> ts_le t (OplogChunk.EndTS c) ->
    exists c', In c' l /\ ts_le (OplogChunk.StartTS c') t /\ ts_le t (OplogChunk.EndTS c').
Proof.
  induction l as [|c0 l IH]; intros cur t c Hcov Hlast Hlow Hhigh; [discriminate|].
  simpl in Hcov. destruct Hcov as [Hstart Hcov].
  destruct (ts_le_total t (OplogChunk.EndTS c0)) as [Hin|Hpast].
  - exists c0. split; [left; reflexivity|]. split; [|exact Hin].
    exact (ts_le_trans _ _ _ Hstart Hlow).
  - destruct l as [|c1 l].
    + simpl in Hlast. injection Hlast as <-.
      apply ts_lt_not_le in Hpast. contradiction.
    + change (last (c0 :: c1 :: l)) with (last (c1 :: l)) in Hlast.
      destruct (IH (OplogChunk.EndTS c0) t c Hcov Hlast (ts_lt_le _ _ Hpast) Hhigh)
        as (c' & Hc' & Hs & He).
      exists c'. split; [right; exact Hc'|]. split; assumption.
Qed.

(** What a successful call of [chunks] has checked. *)
Lemma chunks_Ok_inv (cn : St) (stg : Stg) (from to : Timestamp) (rsName : string)
    (rsMap : option (gmap string string)) (l : list OplogChunk.t) :
  chunks cn stg from to rsName rsMap = Ok l ->
  PITRGetChunksSlice (MakeReverseRSMapFunc rsMap rsName) from to cn = Ok l /\
  (exists c, last l = Some c /\ ts_le to (OplogChunk.EndTS c)) /\
  covered from l /\ files_exist stg l.
Proof.
  unfold chunks.
  destruct (PITRGetChunksSlice (MakeReverseRSMapFunc rsMap rsName) from to cn)
    as [[|c0 l0]|e]; try discriminate.
  unfold last_chunk.
  destruct (CompareTimestamp (OplogChunk.EndTS (List.last (c0 :: l0) c0)) to =? -1) eqn:Hto;
    [discriminate|].
  destruct (chunks_walk stg from (c0 :: l0)) as [e|] eqn:Hwalk; [discriminate|].
  intros [= <-]. apply chunks_walk_None in Hwalk. destruct Hwalk as [Hcov Hfiles].
  split; [reflexivity|]. split; [|split; assumption].
  exists (List.last (c0 :: l0) c0). split; [apply last_List_last; discriminate|].
  apply CompareTimestamp_ge. exact Hto.
Qed.

(** X1.  When [chunks] succeeds, the chunks it returns cover the requested
    range: every time from [from] to [to] lies between the start and the end
    of a returned chunk whose file exists in storage. *)
Theorem chunks_cover_range (cn : St) (stg : Stg) (from to : Timestamp) (rsName : string)
    (rsMap : option (gmap string string)) (l : list OplogChunk.t) (t : Timestamp) :
  chunks cn stg from to rsName rsMap = Ok l ->
  ts_le from t -> ts_le t to ->
  exists c fi, In c l /\
    ts_le (OplogChunk.StartTS c) t /\ ts_le t (OplogChunk.EndTS c) /\
    FileStat (OplogChunk.FName c) stg = Ok fi.
Proof.
  intros Hok Hlow Hhigh.
  apply chunks_Ok_inv in Hok. destruct Hok as (_ & (c & Hlast & Hto) & Hcov & Hfiles).
  destruct (covered_holds l from t c Hcov Hlast Hlow (ts_le_trans _ _ _ Hhigh Hto))
    as (c' & Hin & Hs & He).
  destruct (Hfiles c' Hin) as [fi Hfi].
  exists c', fi. auto.
Qed.

End ChunksCoverage.

(** The contiguous chunks 10-20 and 20-30 hold the time 22 of the range from
    10 to 25. *)
Lemma chunks_cover_range_witness :
  exists c fi, In c examples.contiguous /\
    ts_le (OplogChunk.StartTS c) (examples.ts 22) /\
    ts_le (examples.ts 22) (OplogChunk.EndTS c) /\
    FileStat (OplogChunk.FName c) examples.files = Ok fi.
Proof.
  apply (chunks_cover_range (examples.chunk_store examples.contiguous) examples.files
           (examples.ts 10) (examples.ts 25) "rs0" None examples.contiguous (examples.ts 22)).
  - reflexivity.
  - unfold ts_le. simpl. lia.
  - unfold ts_le. simpl. lia.
Defined.

(** ** The files that the validation of chunks looks at *)

Section ChunksFrame.
Context {St : Type} `{PBM St} {Stg Reader : Type} `{Storage Stg Reader}.

Lemma chunks_walk_frame (stg stg' : Stg) (l : list OplogChunk.t) :
  forall last : Timestamp,
    (forall c, In c l ->
       FileStat (OplogChunk.FName c) stg' = FileStat (OplogChunk.FName c) stg) ->
    chunks_walk stg' last l = chunks_walk stg last l.
Proof.
  induction l as [|c l IH]; intros last Hsame; simpl; [reflexivity|].
  rewrite (Hsame c (or_introl eq_refl)).
  destruct (CompareTimestamp last (OplogChunk.StartTS c) =? -1); [reflexivity|].
  destruct (FileStat (OplogChunk.FName c) stg); [|reflexivity].
  apply IH. intros c' Hc'. apply Hsame. right. exact Hc'.
Qed.

(** X2.  [chunks] looks at the storage only through [FileStat] on the files
    that the index names for the requested range: two storages on which
    these calls give the same give the same result of [chunks], whatever else
    they hold. *)
Theorem chunks_reads_listed_files (cn : St) (stg stg' : Stg) (from to : Timestamp)
    (rsName : string) (rsMap : option (gmap string string)) :
  (forall l c,
     PITRGetChunksSlice (MakeReverseRSMapFunc rsMap rsName) from to cn = Ok l ->
     In c l ->
     FileStat (OplogChunk.FName c) stg' = FileStat (OplogChunk.FName c) stg) ->
  chunks cn stg' from to rsName rsMap = chunks cn stg from to rsName rsMap.
Proof.
  intros Hsame. unfold chunks.
  destruct (PITRGetChunksSlice (MakeReverseRSMapFunc rsMap rsName) from to cn)
    as [[|c0 l0]|e]; try reflexivity.
  destruct (CompareTimestamp (OplogChunk.EndTS (last_chunk (c0 :: l0) c0)) to =? -1);
    [reflexivity|].
  rewrite (chunks_walk_frame stg stg' (c0 :: l0) from); [reflexivity|].
  intros c Hc. exact (Hsame (c0 :: l0) c eq_refl Hc).
Qed.

End ChunksFrame.

(** A storage that holds one more file than [examples.files], a file that the
    index does not name, validates the same. *)
Lemma chunks_reads_listed_files_witness :
  chunks (examples.chunk_store examples.contiguous)
    (("rs0/stray.s2", (CompressionTypeS2, [1])) :: examples.files)
    (examples.ts 10) (examples.ts 25) "rs0" None =
  chunks (examples.chunk_store examples.contiguous) examples.files
    (examples.ts 10) (examples.ts 25) "rs0" None.
Proof.
  apply (chunks_reads_listed_files (examples.chunk_store examples.contiguous) examples.files
           (("rs0/stray.s2", (CompressionTypeS2, [1])) :: examples.files)
           (examples.ts 10) (examples.ts 25) "rs0" None).
  intros l c Hl Hc. injection Hl as <-.
  destruct Hc as [<-|[<-|[]]]; reflexivity.
Defined.

(** ** The polling loops as a whole *)

Section LoopProps.
Context {St : Type} `{PBM St}.
Implicit Types (cn : St) (opid name : string) (status : Status) (ct : Timestamp).
Implicit Types (bmeta : RestoreMeta.t) (shard : RestoreReplset.t) (sh : Shard.t).

(** A record that no shard names is not reached. *)
Lemma visited_unrecorded bmeta (shards : list Shard.t) :
  (forall sh shard, In sh shards -> In shard (RestoreMeta.Replsets bmeta) ->
     RestoreReplset.Name shard <> Shard.RS sh) ->
  visited bmeta shards = [].
Proof.
  intros Hno. unfold visited.
  induction shards as [|sh shards IH]; simpl; [reflexivity|].
  rewrite IH by (intros sh' shard Hsh; apply Hno; right; exact Hsh).
  rewrite app_nil_r.
  assert (Hsh : forall shard, In shard (RestoreMeta.Replsets bmeta) ->
                  RestoreReplset.Name shard <> Shard.RS sh).
  { intros shard. apply Hno. left. reflexivity. }
  clear Hno IH.
  induction (RestoreMeta.Replsets bmeta) as [|r l IHl]; simpl; [reflexivity|].
  destruct (String.eqb_spec (RestoreReplset.Name r) (Shard.RS sh)) as [Heq|_].
  - exfalso. exact (Hsh r (or_introl eq_refl) Heq).
  - apply IHl. intros shard Hin. apply Hsh. right. exact Hin.
Qed.

(** X3.  Shards that have no record in the restore metadata keep [converged]
    waiting: with at least one shard, none of which has a record under its
    replica set name, the call returns false with no error and leaves the
    store as it is, whatever the records of other replica sets say; with no
    shard at all the counter starts at zero and the call goes to the write of
    the target status at once. *)
Theorem converged_unrecorded_shards cn name opid (shards : list Shard.t) status bmeta ct :
  GetRestoreMeta name cn = Ok bmeta ->
  ClusterTime cn = Ok ct ->
  (forall sh shard, In sh shards -> In shard (RestoreMeta.Replsets bmeta) ->
     RestoreReplset.Name shard <> Shard.RS sh) ->
  converged cn name opid shards status =
  match shards with
  | [] =>
      let w := ChangeRestoreState name status EmptyString cn in
      ((match fst w with None => true | Some _ => false end,
        Wrapf (fst w) "update backup meta with %s" [AString status]), snd w)
  | _ :: _ => ((false, None), cn)
  end.
Proof.
  intros Hmeta Hct Hno. unfold converged.
  rewrite (converged_run_reads cn name opid shards status bmeta ct Hmeta Hct).
  rewrite (visited_unrecorded bmeta shards Hno). simpl visit_all.
  destruct shards as [|sh shards].
  - simpl. destruct (ChangeRestoreState name status EmptyString cn) as [[e|] cn']; reflexivity.
  - replace (Z.of_nat (length (sh :: shards)) =? 0) with false; [reflexivity|].
    symmetry. apply Z.eqb_neq. simpl length. lia.
Qed.

(** A call of [converged] that returns false and no error has written
    nothing. *)
Lemma converged_false_nil cn name opid (shards : list Shard.t) status cn' :
  converged cn name opid shards status = ((false, None), cn') -> cn' = cn.
Proof.
  unfold converged, converged_run.
  destruct (GetRestoreMeta name cn) as [bmeta|e]; [|simpl; congruence].
  destruct (ClusterTime cn) as [ct|e]; [|simpl; congruence].
  destruct (converged_shards cn opid status ct bmeta shards (Z.of_nat (length shards)))
    as [n|[bmeta' e]]; [|simpl; congruence].
  destruct (n =? 0); [|simpl; congruence].
  destruct (ChangeRestoreState name status EmptyString cn) as [[e|] cn1]; simpl; congruence.
Qed.

(** X4.  While [convergeCluster] or [convergeClusterWithTimeout] is still
    polling it has written nothing: the store is the one it started on with
    the steps of the other agents applied, and nothing else. *)
Theorem polling_writes_nothing cn name opid (shards : list Shard.t) status
    (sched : list (event St)) :
  (fst (convergeCluster sched cn name opid shards status) = None ->
   snd (convergeCluster sched cn name opid shards status) = others sched cn) /\
  (fst (convergeClusterWithTimeout sched cn name opid shards status) = None ->
   snd (convergeClusterWithTimeout sched cn name opid shards status) = others sched cn).
Proof.
  split; revert cn; induction sched as [|ev sched IH]; intros cn; simpl; try reflexivity;
    destruct ev as [| | |f]; simpl; try discriminate; try apply IH.
  - destruct (converged cn name opid shards status) as [[ok err] cn'] eqn:Hc.
    destruct err; [discriminate|]. destruct ok; [discriminate|].
    apply converged_false_nil in Hc. subst cn'. apply IH.
  - destruct (converged cn name opid shards status) as [[ok err] cn'] eqn:Hc.
    destruct err; [discriminate|]. destruct ok; [discriminate|].
    apply converged_false_nil in Hc. subst cn'. apply IH.
Qed.

(** X6.  [convergeClusterWithTimeout] differs from [convergeCluster] by the
    timeout ticker alone: over events among which that ticker does not fire
    the two return the same and leave the same store, and when it fires
    while the loop is still polling the loop returns [errConvergeTimeOut]
    itself, not wrapped, with nothing written by that iteration. *)
Theorem convergeClusterWithTimeout_timeout cn name opid (shards : list Shard.t) status
    (pre rest : list (event St)) :
  (has_timeout pre = false ->
   convergeClusterWithTimeout pre cn name opid shards status =
   convergeCluster pre cn name opid shards status) /\
  (fst (convergeClusterWithTimeout pre cn name opid shards status) = None ->
   convergeClusterWithTimeout (pre ++ TimeOut :: rest) cn name opid shards status =
   (Some (Some (Sentinel errConvergeTimeOut)),
    snd (convergeClusterWithTimeout pre cn name opid shards status))).
Proof.
  split.
  - revert cn. induction pre as [|ev pre IH]; intros cn; simpl; [reflexivity|].
    destruct ev as [| | |f]; simpl; intros Hno.
    + destruct (converged cn name opid shards status) as [[ok err] cn'].
      destruct err; [reflexivity|]. destruct ok; [reflexivity|]. apply IH. exact Hno.
    + discriminate Hno.
    + reflexivity.
    + apply IH. exact Hno.
  - revert cn. induction pre as [|ev pre IH]; intros cn; simpl; [reflexivity|].
    destruct ev as [| | |f]; simpl.
    + destruct (converged cn name opid shards status) as [[ok err] cn'].
      destruct err; [discriminate|]. destruct ok; [discriminate|]. apply IH.
    + discriminate.
    + discriminate.
    + apply IH.
Qed.

(** A tick of [waitForStatus] that ends the wait with nil has read a fresh
    record in the target status. *)
Lemma waitForStatus_tick_nil cn name status :
  waitForStatus_tick cn name status = Ret None ->
  exists meta ct,
    GetRestoreMeta name cn = Ok meta /\ ClusterTime cn = Ok ct /\
    stale (RestoreMeta.Hb meta) ct = false /\ RestoreMeta.Status meta = status.
Proof.
  unfold waitForStatus_tick.
  destruct (GetRestoreMeta name cn) as [meta|e]; simpl.
  - destruct (ClusterTime cn) as [ct|e]; [|discriminate].
    destruct (stale (RestoreMeta.Hb meta) ct) eqn:Hstale; [discriminate|].
    destruct (String.eqb_spec (RestoreMeta.Status meta) status) as [Heq|_].
    + intros _. exists meta, ct. auto.
    + destruct (String.eqb (RestoreMeta.Status meta) StatusError); discriminate.
  - destruct (Is e ErrNotFound); discriminate.
Qed.

(** X7.  When [waitForStatus] returns nil and the context was not cancelled,
    the restore has reached the target status: at one tick, on the store as
    the other agents had left it by then, the record was there, its
    heartbeat was not stale, and its global status was the target. *)
Theorem waitForStatus_nil_reached cn name status (sched : list (event St)) :
  waitForStatus sched cn name status = Some None ->
  has_cancel sched = false ->
  exists pre rest meta ct,
    sched = pre ++ Tick :: rest /\
    GetRestoreMeta name (others pre cn) = Ok meta /\
    ClusterTime (others pre cn) = Ok ct /\
    stale (RestoreMeta.Hb meta) ct = false /\
    RestoreMeta.Status meta = status.
Proof.
  revert cn. induction sched as [|ev sched IH]; intros cn; simpl; [discriminate|].
  assert (Hgo : forall cn', waitForStatus sched cn' name status = Some None ->
                  has_cancel sched = false -> others [ev] cn = cn' ->
                  exists pre rest meta ct,
                    ev :: sched = pre ++ Tick :: rest /\
                    GetRestoreMeta name (others pre cn) = Ok meta /\
                    ClusterTime (others pre cn) = Ok ct /\
                    stale (RestoreMeta.Hb meta) ct = false /\
                    RestoreMeta.Status meta = status).
  { intros cn' Hw Hc Hev.
    destruct (IH cn' Hw Hc) as (pre & rest & meta & ct & -> & Hm & Hct & Hs & Hst).
    exists (ev :: pre), rest, meta, ct.
    assert (Hpre : others (ev :: pre) cn = others pre cn').
    { rewrite <- Hev. destruct ev; reflexivity. }
    rewrite Hpre. auto. }
  destruct ev as [| | |f]; simpl.
  - destruct (waitForStatus_tick cn name status) as [[]|r] eqn:Htick.
    + intros Hw Hc. exact (Hgo cn Hw Hc eq_refl).
    + intros [= ->] _. destruct (waitForStatus_tick_nil cn name status Htick)
        as (meta & ct & Hm & Hct & Hs & Hst).
      exists [], sched, meta, ct. auto.
  - intros Hw Hc. exact (Hgo cn Hw Hc eq_refl).
  - discriminate.
  - intros Hw Hc. exact (Hgo (f cn) Hw Hc eq_refl).
Qed.

End LoopProps.

(** The shard rs9 has no record in the restore of rs0, rs1 and rs2, which
    all report running: the call returns false and writes nothing. *)
Lemma converged_unrecorded_shards_witness :
  converged examples.all_running "restore1" "op1" [examples.shard "rs9"] "running" =
  ((false, None), examples.all_running).
Proof.
  apply (converged_unrecorded_shards examples.all_running "restore1" "op1"
           [examples.shard "rs9"] "running"
           (examples.restore_meta "starting" 95
              [examples.replset "rs0" "running" EmptyString;
               examples.replset "rs1" "running" EmptyString;
               examples.replset "rs2" "running" EmptyString])
           (examples.ts 100)).
  - reflexivity.
  - reflexivity.
  - intros sh shard [<-|[]] [<-|[<-|[<-|[]]]]; discriminate.
Defined.

(** The wait on a store whose record is first starting and is set to running
    by another agent between the first tick and the second. *)
Lemma waitForStatus_nil_reached_witness :
  exists pre rest meta ct,
    [Tick; Other (fun s => snd (memstore.changeRestoreState "restore1" "running" EmptyString s));
     Tick] = pre ++ Tick :: rest /\
    GetRestoreMeta "restore1" (others pre (examples.global_store "starting" EmptyString 95))
      = Ok meta /\
    ClusterTime (others pre (examples.global_store "starting" EmptyString 95)) = Ok ct /\
    stale (St := memstore.t) (RestoreMeta.Hb meta) ct = false /\
    RestoreMeta.Status meta = "running".
Proof.
  apply (waitForStatus_nil_reached (examples.global_store "starting" EmptyString 95)
           "restore1" "running"
           [Tick;
            Other (fun s => snd (memstore.changeRestoreState "restore1" "running" EmptyString s));
            Tick]).
  - reflexivity.
  - reflexivity.
Defined.

(** ** The writes of a whole convergence loop *)

Section LoggedLoopProps.
Context {St : Type} `{PBM St}.
Implicit Types (cn : St) (opid name : string) (status : Status).

(** One call of [converged] on the store with the log: no write and false,
    or the one commit. *)
Lemma converged_logged_call cn (log : list write_call) name opid (shards : list Shard.t)
    status :
  let r := converged (cn, log) name opid shards status in
  (snd r = (cn, log) /\ fst (fst r) = false) \/
  (snd (snd r) = log ++ [(name, status, EmptyString)] /\
   (fst r = (true, None) \/
    exists e, fst r = (false, Wrapf (Some e) "update backup meta with %s" [AString status]))).
Proof.
  unfold converged, converged_run.
  change (GetRestoreMeta name (cn, log)) with (GetRestoreMeta name cn).
  change (ClusterTime (cn, log)) with (ClusterTime cn).
  destruct (GetRestoreMeta name cn) as [bmeta|e]; [|left; split; reflexivity].
  destruct (ClusterTime cn) as [ct|e]; [|left; split; reflexivity].
  destruct (converged_shards (cn, log) opid status ct bmeta shards (Z.of_nat (length shards)))
    as [n|[bmeta' e]]; [|left; split; reflexivity].
  destruct (n =? 0); [|left; split; reflexivity].
  change (ChangeRestoreState name status EmptyString (cn, log))
    with (let '(e, st') := ChangeRestoreState name status EmptyString cn in
          (e, (st', log ++ [(name, status, EmptyString)]))).
  destruct (ChangeRestoreState name status EmptyString cn) as [[e|] cn'].
  - right. split; [reflexivity|]. right. exists e. reflexivity.
  - right. split; [reflexivity|]. left. reflexivity.
Qed.

(** X5.  A whole run of [convergeCluster] or of [convergeClusterWithTimeout]
    calls [ChangeRestoreState] at most once, whatever the other agents do in
    between and however long it polls: the write is the commit of the target
    status with an empty message, and it is the last thing the loop does
    before it returns, with nil or with the error of that write. *)
Theorem loops_commit_once cn (log : list write_call) name opid (shards : list Shard.t) status
    (sched : list (event St)) :
  one_commit name status log
    (convergeCluster (map logged_event sched) (cn, log) name opid shards status) /\
  one_commit name status log
    (convergeClusterWithTimeout (map logged_event sched) (cn, log) name opid shards status).
Proof.
  split; revert cn; induction sched as [|ev sched IH]; intros cn;
    try (left; reflexivity); destruct ev as [| | |f]; simpl map;
    cbn [convergeCluster convergeClusterWithTimeout logged_event];
    try (left; reflexivity); try apply IH.
  - pose proof (converged_logged_call cn log name opid shards status) as Hcall.
    destruct (converged (cn, log) name opid shards status) as [[ok err] [cn' log']].
    cbn [fst snd] in Hcall.
    destruct Hcall as [[Hst Hok]|[Hlog [Hr|[e Hr]]]].
    + injection Hst as -> ->. subst ok.
      destruct err; [left; reflexivity|]. apply IH.
    + injection Hr as -> ->. right. split; [exact Hlog|]. left. reflexivity.
    + injection Hr as -> ->. right. split; [exact Hlog|]. right. exists e. reflexivity.
  - pose proof (converged_logged_call cn log name opid shards status) as Hcall.
    destruct (converged (cn, log) name opid shards status) as [[ok err] [cn' log']].
    cbn [fst snd] in Hcall.
    destruct Hcall as [[Hst Hok]|[Hlog [Hr|[e Hr]]]].
    + injection Hst as -> ->. subst ok.
      destruct err; [left; reflexivity|]. apply IH.
    + injection Hr as -> ->. right. split; [exact Hlog|]. left. reflexivity.
    + injection Hr as -> ->. right. split; [exact Hlog|]. right. exists e. reflexivity.
Qed.

End LoggedLoopProps.

(** ** The duty of one agent: [toState] *)

Section ToStateProps.
Context {St : Type} `{PBM St} `{PBMMeta St}.
Implicit Types (cn : St) (bcp : string) (status : Status) (inf : NodeInfo.t).
Implicit Types (reconcileFn : reconcileStatus (St := St)) (wait : option Z).

(** X8.  [toState] returns nil exactly when the write of the status of its
    own replica set succeeded, then, on the leader only, the reconciliation
    returned nil, and then the wait for the global status returned nil; a
    node that is not the leader does not run the reconciliation, and the
    store it leaves is the one after its own write. *)
Theorem toState_nil (sched : list (event St)) cn status bcp inf reconcileFn wait (cn' : St) :
  toState sched cn status bcp inf reconcileFn wait = (Some None, cn') <->
  exists cn1,
    ChangeRestoreRSState bcp (NodeInfo.SetName inf) status EmptyString cn = (None, cn1) /\
    (if NodeInfo.IsLeader inf then reconcileFn status wait cn1 = (Some None, cn')
     else cn' = cn1) /\
    waitForStatus sched cn' bcp status = Some None.
Proof.
  unfold toState. split.
  - destruct (ChangeRestoreRSState bcp (NodeInfo.SetName inf) status EmptyString cn)
      as [[e|] cn1]; [discriminate|].
    destruct (NodeInfo.IsLeader inf).
    + destruct (reconcileFn status wait cn1) as [[[e|]|] cn2] eqn:Hrec; [| |discriminate].
      * destruct (Is e errConvergeTimeOut); discriminate.
      * destruct (waitForStatus sched cn2 bcp status) as [[e|]|] eqn:Hw; try discriminate.
        intros [= <-]. exists cn1. split; [reflexivity|]. split; [exact Hrec|exact Hw].
    + destruct (waitForStatus sched cn1 bcp status) as [[e|]|] eqn:Hw; try discriminate.
      intros [= <-]. exists cn1. split; [reflexivity|]. split; [reflexivity|exact Hw].
  - intros (cn1 & -> & Hrec & Hw).
    destruct (NodeInfo.IsLeader inf).
    + rewrite Hrec, Hw. reflexivity.
    + subst cn'. rewrite Hw. reflexivity.
Qed.

(** X9.  On the leader, an error of the reconciliation ends [toState] before
    the wait: the error is returned wrapped, with the text that the shards
    did not all respond when it is [errConvergeTimeOut] (however deep it is
    wrapped), and with the text that names the target status otherwise.  The
    cause stays recognisable by [errors.Is], and the schedule of the wait
    plays no part. *)
Theorem toState_reconcile_error (sched : list (event St)) cn status bcp inf reconcileFn wait
    (cn1 cn2 : St) (e : error) :
  ChangeRestoreRSState bcp (NodeInfo.SetName inf) status EmptyString cn = (None, cn1) ->
  NodeInfo.IsLeader inf = true ->
  reconcileFn status wait cn1 = (Some (Some e), cn2) ->
  exists e',
    toState sched cn status bcp inf reconcileFn wait = (Some (Some e'), cn2) /\
    Error e' =
      (if Is e errConvergeTimeOut then "couldn't get response from all shards"
       else "check cluster for restore `" +:+ status +:+ "`") +:+ ": " +:+ Error e /\
    (forall target, Is e' target = Is e target).
Proof.
  intros Hw Hl Hrec. unfold toState. rewrite Hw, Hl, Hrec.
  destruct (Is e errConvergeTimeOut); eexists; (split; [reflexivity|]); split; reflexivity.
Qed.

(** X10.  A leader that reconciles with [convergeClusterWithTimeout] and runs
    into the timeout while the shards have not all reached the status returns
    [errConvergeTimeOut] wrapped with the text that the shards did not all
    respond, and has written nothing but the status of its own replica set:
    the store is the one after that write with the steps of the other agents
    applied. *)
Theorem toState_converge_timeout (sched pre rest : list (event St)) cn status bcp inf wait
    (name opid : string) (shards : list Shard.t) (cn1 : St) :
  ChangeRestoreRSState bcp (NodeInfo.SetName inf) status EmptyString cn = (None, cn1) ->
  NodeInfo.IsLeader inf = true ->
  fst (convergeClusterWithTimeout pre cn1 name opid shards status) = None ->
  toState sched cn status bcp inf
    (fun st _ c => convergeClusterWithTimeout (pre ++ TimeOut :: rest) c name opid shards st)
    wait =
  (Some (Some (WithMessage (Sentinel errConvergeTimeOut)
                 "couldn't get response from all shards")),
   others pre cn1).
Proof.
  intros Hw Hl Hpoll. unfold toState. rewrite Hw, Hl.
  assert (Hrun : convergeClusterWithTimeout (pre ++ TimeOut :: rest) cn1 name opid shards status =
                 (Some (Some (Sentinel errConvergeTimeOut)), others pre cn1)).
  { clear Hw. revert cn1 Hpoll. induction pre as [|ev pre IH]; intros cn1; simpl; [reflexivity|].
    destruct ev as [| | |f]; simpl; try discriminate.
    - destruct (converged cn1 name opid shards status) as [[ok err] cn'] eqn:Hc.
      destruct err; [discriminate|]. destruct ok; [discriminate|].
      apply converged_false_nil in Hc. subst cn'. apply IH.
    - apply IH. }
  rewrite Hrun. reflexivity.
Qed.

(** X11.  When the context is cancelled while [toState] waits for the global
    status, [toState] returns nil although the status was not reached: after
    its own write, and on the leader a reconciliation that returned nil, a
    wait that is still going on when the cancellation comes ends with
    success. *)
Theorem toState_cancel (pre rest : list (event St)) cn status bcp inf reconcileFn wait
    (cn1 cn2 : St) :
  ChangeRestoreRSState bcp (NodeInfo.SetName inf) status EmptyString cn = (None, cn1) ->
  (if NodeInfo.IsLeader inf then reconcileFn status wait cn1 = (Some None, cn2)
   else cn2 = cn1) ->
  waitForStatus pre cn2 bcp status = None ->
  toState (pre ++ Cancel :: rest) cn status bcp inf reconcileFn wait = (Some None, cn2).
Proof.
  intros Hw Hrec Hwait. unfold toState. rewrite Hw.
  destruct (NodeInfo.IsLeader inf).
  - rewrite Hrec, (waitForStatus_cancel cn2 bcp status pre rest Hwait). reflexivity.
  - subst cn2. rewrite (waitForStatus_cancel cn1 bcp status pre rest Hwait). reflexivity.
Qed.

End ToStateProps.

(** The leader of rs0, on the store where rs1 is still starting, with a
    reconciliation that times out at once. *)
Lemma toState_reconcile_error_witness :
  exists e',
    toState [Tick] examples.waiting_meta "running" "restore1" (examples.node_of "rs0" true)
      (fun st _ c =>
         convergeClusterWithTimeout [TimeOut] c "restore1" "op1" examples.two_shards st)
      (Some 5) =
    (Some (Some e'),
     snd (memstore.changeRestoreRSState "restore1" "rs0" "running" EmptyString
            examples.waiting_meta)) /\
    Error e' = "couldn't get response from all shards: reached converge timeout" /\
    (forall target, Is e' target = Is (Sentinel errConvergeTimeOut) target).
Proof.
  apply (toState_reconcile_error [Tick] examples.waiting_meta "running" "restore1"
           (examples.node_of "rs0" true)
           (fun st _ c =>
              convergeClusterWithTimeout [TimeOut] c "restore1" "op1" examples.two_shards st)
           (Some 5)
           (snd (memstore.changeRestoreRSState "restore1" "rs0" "running" EmptyString
                   examples.waiting_meta))
           (snd (memstore.changeRestoreRSState "restore1" "rs0" "running" EmptyString
                   examples.waiting_meta))
           (Sentinel errConvergeTimeOut)).
  - reflexivity.
  - reflexivity.
  - reflexivity.
Defined.

(** The same leader with a timeout that comes after one tick at which rs1
    was still starting. *)
Lemma toState_converge_timeout_witness :
  toState [Tick] examples.waiting_meta "running" "restore1" (examples.node_of "rs0" true)
    (fun st _ c =>
       convergeClusterWithTimeout ([Tick] ++ TimeOut :: []) c "restore1" "op1"
         examples.two_shards st)
    (Some 5) =
  (Some (Some (WithMessage (Sentinel errConvergeTimeOut)
                 "couldn't get response from all shards")),
   others [Tick]
     (snd (memstore.changeRestoreRSState "restore1" "rs0" "running" EmptyString
             examples.waiting_meta))).
Proof.
  apply (toState_converge_timeout [Tick] [Tick] [] examples.waiting_meta "running" "restore1"
           (examples.node_of "rs0" true) (Some 5) "restore1" "op1" examples.two_shards
           (snd (memstore.changeRestoreRSState "restore1" "rs0" "running" EmptyString
                   examples.waiting_meta))).
  - reflexivity.
  - reflexivity.
  - reflexivity.
Defined.

(** The node of rs0 as a follower: the global status is still starting at
    the first tick, and then the context is cancelled. *)
Lemma toState_cancel_witness :
  toState ([Tick] ++ Cancel :: []) examples.waiting_meta "running" "restore1"
    (examples.node_of "rs0" false) (fun _ _ c => (Some None, c)) None =
  (Some None,
   snd (memstore.changeRestoreRSState "restore1" "rs0" "running" EmptyString
          examples.waiting_meta)).
Proof.
  apply (toState_cancel [Tick] [] examples.waiting_meta "running" "restore1"
           (examples.node_of "rs0" false) (fun _ _ c => (Some None, c)) None
           (snd (memstore.changeRestoreRSState "restore1" "rs0" "running" EmptyString
                   examples.waiting_meta))
           (snd (memstore.changeRestoreRSState "restore1" "rs0" "running" EmptyString
                   examples.waiting_meta))).
  - reflexivity.
  - reflexivity.
  - reflexivity.
Defined.

(** ** Replay of chunks *)

(** X12.  [replayChunk] returns a nil error exactly when the read of the
    file, the decompression and the application of the operations all
    succeeded.  When the read or the decompression fails, nothing is applied:
    the replay state is as before and the timestamp returned is zero.  The
    error of whichever step failed is returned wrapped and stays recognisable
    by [errors.Is]. *)
Theorem replayChunk_result {Stg Reader O : Type} `{Storage Stg Reader} `{Replay O Reader}
    (file : string) (oplog : O) (stg : Stg) (c : CompressionType) :
  let r := replayChunk file oplog stg c in
  (snd (fst r) = None <->
   exists or rd lts o',
     SourceReader file stg = Ok or /\ Decompress or c = Ok rd /\
     Apply rd oplog = ((lts, None), o') /\ r = ((lts, None), o')) /\
  ((forall or rd, SourceReader file stg = Ok or -> Decompress or c = Ok rd -> False) ->
   snd r = oplog /\ fst (fst r) = zeroTimestamp /\ snd (fst r) <> None) /\
  (forall target,
     IsNilable (snd (fst r)) target =
     match SourceReader file stg with
     | Err e => Is e target
     | Ok or =>
         match Decompress or c with
         | Err e => Is e target
         | Ok rd => IsNilable (snd (fst (Apply rd oplog))) target
         end
     end).
Proof.
  unfold replayChunk. cbv zeta.
  destruct (SourceReader file stg) as [or|e] eqn:Hsrc.
  - destruct (Decompress or c) as [rd|e] eqn:Hdec.
    + destruct (Apply rd oplog) as [[lts [e|]] o'] eqn:Happ; cbn [fst snd Wrap].
      * split; [|split].
        -- split; [discriminate|].
           intros (or' & rd' & lts' & o'' & Hs & Hd & Ha & _). congruence.
        -- intros Hno. exfalso. exact (Hno or rd eq_refl Hdec).
        -- reflexivity.
      * split; [|split].
        -- split; [|reflexivity]. intros _. exists or, rd, lts, o'. auto.
        -- intros Hno. exfalso. exact (Hno or rd eq_refl Hdec).
        -- reflexivity.
    + cbn [fst snd]. split; [|split].
      * split; [discriminate|].
        intros (or' & rd' & lts' & o'' & Hs & Hd & Ha & _). congruence.
      * intros _. split; [reflexivity|]. split; [reflexivity|discriminate].
      * reflexivity.
  - cbn [fst snd]. split; [|split].
    + split; [discriminate|].
      intros (or' & rd' & lts' & o'' & Hs & Hd & Ha & _). congruence.
    + intros _. split; [reflexivity|]. split; [reflexivity|discriminate].
    + reflexivity.
Qed.

Section ChunkLoopProps.
Context {S : Type}.
Variable replay : string -> CompressionType -> S -> (Timestamp * option error) * S.

(** X13.  The chunk loop of [applyOplog] over two lists of chunks one after
    the other is the loop over the first and then, from the timestamp and the
    replay state it ended with, the loop over the second; when the first
    fails, its error is the result and no chunk of the second is replayed. *)
Theorem applyOplog_chunks_app (l1 l2 : list OplogChunk.t) (lts : Timestamp) (s : S) :
  applyOplog_chunks replay (l1 ++ l2) lts s =
  match applyOplog_chunks replay l1 lts s with
  | (Err e, s') => (Err e, s')
  | (Ok lts', s') => applyOplog_chunks replay l2 lts' s'
  end.
Proof.
  revert lts s. induction l1 as [|chnk l1 IH]; intros lts s; simpl; [reflexivity|].
  destruct (applyOplog_chunk replay chnk s) as [[lts'|e] s']; [apply IH|reflexivity].
Qed.

(** An error of one iteration is the error of a replay, wrapped with the
    range of the chunk. *)
Lemma applyOplog_chunk_Err (chnk : OplogChunk.t) (s s' : S) (e : error) :
  applyOplog_chunk replay chnk s = (Err e, s') ->
  exists e0, e = chunk_error chnk e0.
Proof.
  unfold applyOplog_chunk, chunk_error.
  destruct (replay (OplogChunk.FName chnk) (OplogChunk.Compression chnk) s)
    as [[lts1 err1] s1].
  destruct ((match err1 with Some _ => true | None => false end && IsNilable err1 ErrCorrupt)%bool).
  - destruct (replay (OplogChunk.FName chnk) CompressionTypeS2 s1) as [[lts2 [e2|]] s2];
      [|discriminate].
    intros [= <- _]. exists e2. reflexivity.
  - destruct err1 as [e1|]; [|discriminate].
    intros [= <- _]. exists e1. reflexivity.
Qed.

(** X14.  An error of the chunk loop of [applyOplog] tells which chunk
    failed: it is the error of the replay of one chunk of the list, wrapped
    with the start and the end of that chunk; every chunk before it was
    replayed with success, and the replay state returned is the one that the
    failed chunk left.  The cause stays recognisable by [errors.Is]. *)
Theorem applyOplog_chunks_error (chunks : list OplogChunk.t) (lts : Timestamp) (s s' : S)
    (e : error) :
  applyOplog_chunks replay chunks lts s = (Err e, s') ->
  exists pre chnk post lts1 s1 e0,
    chunks = pre ++ chnk :: post /\
    applyOplog_chunks replay pre lts s = (Ok lts1, s1) /\
    applyOplog_chunk replay chnk s1 = (Err e, s') /\
    e = chunk_error chnk e0 /\
    (forall target, Is e target = Is e0 target).
Proof.
  revert lts s. induction chunks as [|chnk rest IH]; intros lts s; simpl; [discriminate|].
  destruct (applyOplog_chunk replay chnk s) as [[lts'|e1] s1] eqn:Hchunk.
  - intros Hrest.
    destruct (IH lts' s1 Hrest) as (pre & c & post & lts1 & s2 & e0 & -> & Hpre & Hc & He & His).
    exists (chnk :: pre), c, post, lts1, s2, e0.
    split; [reflexivity|]. split; [|auto].
    simpl. rewrite Hchunk. exact Hpre.
  - intros [= <- <-].
    destruct (applyOplog_chunk_Err chnk s s1 e1 Hchunk) as [e0 He].
    exists [], chnk, rest, lts, s, e0.
    split; [reflexivity|]. split; [reflexivity|]. split; [exact Hchunk|].
    split; [exact He|]. intros target. rewrite He. reflexivity.
Qed.

End ChunkLoopProps.

(** Of three chunks the second fails: its error names the range 10 to 20. *)
Lemma applyOplog_chunks_error_witness :
  exists pre chnk post lts1 s1 e0,
    [examples.mislabeled; examples.damaged;
     examples.chunk "rs0" "rs0/20-30.s2" CompressionTypeS2 20 30] = pre ++ chnk :: post /\
    applyOplog_chunks (examples.replay_from examples.old_files) pre zeroTimestamp [] =
      (Ok lts1, s1) /\
    applyOplog_chunk (examples.replay_from examples.old_files) chnk s1 =
      (Err (WithMessage (WithMessage (Fundamental "bad stream") "apply oplog for chunk")
              "replay chunk 10.20"), [1; 9]) /\
    WithMessage (WithMessage (Fundamental "bad stream") "apply oplog for chunk")
      "replay chunk 10.20" = chunk_error chnk e0 /\
    (forall target,
       Is (WithMessage (WithMessage (Fundamental "bad stream") "apply oplog for chunk")
             "replay chunk 10.20") target = Is e0 target).
Proof.
  apply (applyOplog_chunks_error (examples.replay_from examples.old_files)
           [examples.mislabeled; examples.damaged;
            examples.chunk "rs0" "rs0/20-30.s2" CompressionTypeS2 20 30]
           zeroTimestamp [] [1; 9]
           (WithMessage (WithMessage (Fundamental "bad stream") "apply oplog for chunk")
              "replay chunk 10.20")).
  reflexivity.
Defined.

(** ** Nominations *)

Lemma GetRSNominees_loop_Ok (nomination : list BackupRsNomination.t) (rsName : string)
    (n : BackupRsNomination.t) :
  GetRSNominees_loop nomination rsName = Ok n <-> first_nominee nomination rsName n.
Proof.
  unfold first_nominee. induction nomination as [|x l IH]; simpl.
  - split; [discriminate|]. intros (pre & post & Hl & _). destruct pre; discriminate Hl.
  - destruct (String.eqb_spec (BackupRsNomination.RS x) rsName) as [Heq|Hne].
    + split.
      * intros [= <-]. exists [], l. split; [reflexivity|]. split; [exact Heq|constructor].
      * intros (pre & post & Hl & Hrs & Hpre). destruct pre as [|y pre].
        -- simpl in Hl. injection Hl as -> _. reflexivity.
        -- simpl in Hl. injection Hl as <- _. inversion Hpre; subst. contradiction.
    + rewrite IH. split.
      * intros (pre & post & -> & Hrs & Hpre). exists (x :: pre), post.
        split; [reflexivity|]. split; [exact Hrs|]. constructor; assumption.
      * intros (pre & post & Hl & Hrs & Hpre). destruct pre as [|y pre].
        -- simpl in Hl. injection Hl as -> _. contradiction.
        -- simpl in Hl. injection Hl as <- ->. inversion Hpre; subst.
           exists pre, post. auto.
Qed.

Lemma GetRSNominees_loop_Err (nomination : list BackupRsNomination.t) (rsName : string)
    (e : error) :
  GetRSNominees_loop nomination rsName = Err e <->
  e = Sentinel ErrNotFound /\
  Forall (fun x => BackupRsNomination.RS x <> rsName) nomination.
Proof.
  induction nomination as [|x l IH]; simpl.
  - split; [intros [= <-]; split; [reflexivity|constructor]|intros [-> _]; reflexivity].
  - destruct (String.eqb_spec (BackupRsNomination.RS x) rsName) as [Heq|Hne].
    + split; [discriminate|]. intros [_ Hall]. inversion Hall; subst. contradiction.
    + rewrite IH. split.
      * intros [-> Hall]. split; [reflexivity|constructor; assumption].
      * intros [-> Hall]. inversion Hall; subst. auto.
Qed.

(** X15.  [GetRSNominees] returns the first nomination of the backup whose
    replica set is [rsName], also when a later one has the same name; it
    returns [ErrNotFound] exactly when the backup has no nomination for that
    replica set; and an error of the read of the backup is returned as it
    is, not wrapped, so a backup that is not found and a replica set that
    is not nominated give the same error. *)
Theorem GetRSNominees_first {St : Type} `{PBMMeta St} (p : St) (bcpName rsName : string) :
  (forall e, GetBackupMeta bcpName p = Err e -> GetRSNominees p bcpName rsName = Err e) /\
  (forall bcp, GetBackupMeta bcpName p = Ok bcp ->
     (forall n, GetRSNominees p bcpName rsName = Ok n <->
                first_nominee (BackupMeta.Nomination bcp) rsName n) /\
     (forall e, GetRSNominees p bcpName rsName = Err e <->
                e = Sentinel ErrNotFound /\
                Forall (fun x => BackupRsNomination.RS x <> rsName)
                  (BackupMeta.Nomination bcp))).
Proof.
  unfold GetRSNominees. split.
  - intros e ->. reflexivity.
  - intros bcp ->. split.
    + intros n. apply GetRSNominees_loop_Ok.
    + intros e. apply GetRSNominees_loop_Err.
Qed.

(** ** Scores under a configuration *)

(** X16.  When the configuration has a priority map, the score of an agent
    depends on nothing but the name of its node: the coefficients passed to
    [BcpNodesPriority] are ignored, and so are the state of the node and
    whether it is hidden.  No such score is below zero: a configured priority
    below zero is replaced by the default score. *)
Theorem BcpNodesPriority_config_scores (c c' : option (gmap string float)) (cfg : Config.t)
    (pm : gmap string float) (a a' : AgentStat.t) :
  BackupConf.Priority (Config.Backup cfg) = Some pm ->
  AgentStat.Node a = AgentStat.Node a' ->
  BcpNodesPriority_score c cfg a = BcpNodesPriority_score c' cfg a' /\
  PrimFloat.ltb (BcpNodesPriority_score c cfg a) 0%float = false.
Proof.
  intros Hprio Hnode. unfold BcpNodesPriority_score, score_config.
  rewrite Hprio. cbn [map_not_nil orb]. rewrite <- Hnode. split; [reflexivity|].
  destruct (pm !! AgentStat.Node a) as [sc|]; [|reflexivity].
  destruct (PrimFloat.ltb sc 0%float) eqn:Hlt; [reflexivity|exact Hlt].
Qed.

(** The primary n1 with the coefficient 3 and the hidden secondary n1 with
    no coefficient both score the configured 2.5. *)
Lemma BcpNodesPriority_config_scores_witness :
  BcpNodesPriority_score examples.coefficients examples.some_priority
    (examples.agent "n1" NodeStatePrimary false true) =
  BcpNodesPriority_score None examples.some_priority
    (examples.agent "n1" NodeStateSecondary true true) /\
  PrimFloat.ltb
    (BcpNodesPriority_score examples.coefficients examples.some_priority
       (examples.agent "n1" NodeStatePrimary false true)) 0%float = false.
Proof.
  apply (BcpNodesPriority_config_scores examples.coefficients None examples.some_priority
           (<[ "n1" := 2.5%float ]> {[ "n2" := (-1)%float ]})
           (examples.agent "n1" NodeStatePrimary false true)
           (examples.agent "n1" NodeStateSecondary true true)).
  - reflexivity.
  - reflexivity.
Defined.

(** ** The priority list as a whole *)

Lemma filter_own_healthy (rs : string) (agents : list AgentStat.t) :
  List.filter (fun a => (AgentStat.OK a && String.eqb (AgentStat.RS a) rs)%bool)
    (List.filter (own_healthy rs) agents) =
  List.filter (own_healthy rs) agents.
Proof.
  induction agents as [|a agents IH]; simpl; [reflexivity|].
  destruct (own_healthy rs a) eqn:Ha; [|exact IH].
  simpl. unfold own_healthy in Ha. rewrite Ha, IH. reflexivity.
Qed.

(** X17.  The groups that [RS] returns for a replica set depend on nothing
    but the healthy agents of that replica set, in their order, and the
    scores of those agents: the agents of other replica sets and the agents
    that report unhealthy can be left out, and the scoring function can be
    changed on them, with the same groups as the result. *)
Theorem RS_own_agents (agents : list AgentStat.t) (f g : agentScore) (rs : string) :
  (forall a, In a agents -> own_healthy rs a = true -> f a = g a) ->
  fst (NodesPriority.RS (bcpNodesPriority agents f) rs) =
  fst (NodesPriority.RS (bcpNodesPriority (List.filter (own_healthy rs) agents) g) rs).
Proof.
  intros Hfg. rewrite !RS_list, !bcpNodesPriority_build.
  assert (Hadds : healthy_adds rs agents f =
                  healthy_adds rs (List.filter (own_healthy rs) agents) g).
  { unfold healthy_adds. rewrite filter_own_healthy.
    change (fun a : AgentStat.t => (AgentStat.OK a && (AgentStat.RS a =? rs)%string)%bool)
      with (own_healthy rs).
    induction agents as [|a agents IH]; simpl; [reflexivity|].
    destruct (own_healthy rs a) eqn:Ha.
    - simpl. rewrite (Hfg a (or_introl eq_refl) Ha). f_equal.
      apply IH. intros b Hb. apply Hfg. right. exact Hb.
    - apply IH. intros b Hb. apply Hfg. right. exact Hb. }
  rewrite Hadds. reflexivity.
Qed.

(** Of the four mixed agents, rs0 is grouped as its two healthy agents are,
    also under a coefficient for the unhealthy n2. *)
Lemma RS_own_agents_witness :
  fst (NodesPriority.RS
         (bcpNodesPriority examples.mixed_agents (score_default None)) "rs0") =
  fst (NodesPriority.RS
         (bcpNodesPriority (List.filter (own_healthy "rs0") examples.mixed_agents)
            (score_default (Some {[ "n2" := 3%float ]}))) "rs0").
Proof.
  apply (RS_own_agents examples.mixed_agents (score_default None)
           (score_default (Some {[ "n2" := 3%float ]})) "rs0").
  intros a [<-|[<-|[<-|[<-|[]]]]] Ha;
    first [reflexivity | vm_compute in Ha; discriminate Ha].
Defined.

(** Agents that add nothing under [rs] leave the entry of [rs] as it was. *)
Lemma bcpNodesPriority_fold_other (agents : list AgentStat.t) (f : agentScore) (rs : string)
    (n0 : NodesPriority.t) :
  (forall a, In a agents -> own_healthy rs a = false) ->
  NodesPriority.m
    (fold_left
       (fun scores a =>
          if negb (AgentStat.OK a) then scores
          else NodesPriority.Add scores (AgentStat.RS a) (AgentStat.Node a) (f a))
       agents n0) !! rs =
  NodesPriority.m n0 !! rs.
Proof.
  revert n0. induction agents as [|a agents IH]; intros n0 Hno; [reflexivity|].
  simpl fold_left. rewrite IH by (intros b Hb; apply Hno; right; exact Hb).
  pose proof (Hno a (or_introl eq_refl)) as Ha. unfold own_healthy in Ha.
  destruct (AgentStat.OK a); simpl; [|reflexivity].
  simpl in Ha. apply String.eqb_neq in Ha.
  rewrite lookup_insert_ne by exact Ha. reflexivity.
Qed.

(** X18.  A replica set none of whose agents reports healthy has no entry in
    the priority list, and [RS] returns no group for it and leaves the list
    as it is; so does a replica set that no agent belongs to. *)
Theorem RS_no_healthy_agent (agents : list AgentStat.t) (f : agentScore) (rs : string) :
  (forall a, In a agents -> AgentStat.RS a = rs -> AgentStat.OK a = false) ->
  NodesPriority.m (bcpNodesPriority agents f) !! rs = None /\
  NodesPriority.RS (bcpNodesPriority agents f) rs = ([], bcpNodesPriority agents f).
Proof.
  intros Hno.
  assert (Hnone : NodesPriority.m (bcpNodesPriority agents f) !! rs = None).
  { unfold bcpNodesPriority. rewrite bcpNodesPriority_fold_other; [apply lookup_empty|].
    intros a Ha. unfold own_healthy.
    destruct (String.eqb_spec (AgentStat.RS a) rs) as [Heq|_].
    - rewrite (Hno a Ha Heq). reflexivity.
    - apply andb_false_r. }
  split; [exact Hnone|]. unfold NodesPriority.RS. rewrite Hnone. reflexivity.
Qed.

(** The four agents of rs0 hold nothing for rs7. *)
Lemma RS_no_healthy_agent_witness :
  NodesPriority.m (bcpNodesPriority examples.four_agents (score_default None)) !! "rs7" = None /\
  NodesPriority.RS (bcpNodesPriority examples.four_agents (score_default None)) "rs7" =
  ([], bcpNodesPriority examples.four_agents (score_default None)).
Proof.
  apply (RS_no_healthy_agent examples.four_agents (score_default None) "rs7").
  intros a [<-|[<-|[<-|[<-|[]]]]] Hrs; discriminate Hrs.
Defined.

(** A sorted index is left as it is by the sort. *)
Lemma sort_Sort_fixed (l : list float) :
  Sorted (fun a b => Reverse_Less b a = false) l -> sort_Sort Reverse_Less l = l.
Proof.
  induction 1 as [|x l Hs IH Hhd]; simpl; [reflexivity|].
  rewrite IH. destruct Hhd as [|y l' Hyx]; simpl; [reflexivity|].
  rewrite Hyx. reflexivity.
Qed.

(** X19.  [RS] sorts the index of the replica set in place, and a second
    call finds it sorted: it returns the same groups and leaves the priority
    list as the first call left it, for any scores, NaN included. *)
Theorem RS_idempotent (n : NodesPriority.t) (rs : string) :
  NodesPriority.RS (snd (NodesPriority.RS n rs)) rs =
  (fst (NodesPriority.RS n rs), snd (NodesPriority.RS n rs)).
Proof.
  unfold NodesPriority.RS.
  destruct (NodesPriority.m n !! rs) as [s|] eqn:Hs; cbn [fst snd nodeScores.list].
  - cbn [NodesPriority.m]. rewrite lookup_insert_eq. cbn [nodeScores.idx nodeScores.m].
    rewrite (sort_Sort_fixed _ (sort_Sort_sorted (nodeScores.idx s))).
    rewrite insert_insert_eq. reflexivity.
  - rewrite Hs. reflexivity.
Qed.

(** X20.  The replica sets of a priority list do not interact: an [Add]
    under one replica set changes neither the groups that [RS] returns for
    another nor what [RS] leaves behind, the two calls can be made in either
    order. *)
Theorem Add_other_replset (n : NodesPriority.t) (rs rs' node : string) (sc : float) :
  rs <> rs' ->
  fst (NodesPriority.RS (NodesPriority.Add n rs node sc) rs') = fst (NodesPriority.RS n rs') /\
  snd (NodesPriority.RS (NodesPriority.Add n rs node sc) rs') =
  NodesPriority.Add (snd (NodesPriority.RS n rs')) rs node sc.
Proof.
  intros Hne. unfold NodesPriority.RS, NodesPriority.Add. cbn [NodesPriority.m].
  rewrite lookup_insert_ne by exact Hne.
  destruct (NodesPriority.m n !! rs') as [s|] eqn:Hs; cbn [fst snd nodeScores.list NodesPriority.m].
  - split; [reflexivity|].
    rewrite lookup_insert_ne by (intros Heq; apply Hne; symmetry; exact Heq).
    rewrite insert_insert_ne by (intros Heq; apply Hne; symmetry; exact Heq).
    reflexivity.
  - split; reflexivity.
Qed.

(** An [Add] under rs1 between the agents of rs0 and the call of [RS]. *)
Lemma Add_other_replset_witness :
  fst (NodesPriority.RS
         (NodesPriority.Add (bcpNodesPriority examples.four_agents (score_default None))
            "rs1" "m1" 4%float) "rs0") =
  fst (NodesPriority.RS (bcpNodesPriority examples.four_agents (score_default None)) "rs0") /\
  snd (NodesPriority.RS
         (NodesPriority.Add (bcpNodesPriority examples.four_agents (score_default None))
            "rs1" "m1" 4%float) "rs0") =
  NodesPriority.Add
    (snd (NodesPriority.RS (bcpNodesPriority examples.four_agents (score_default None)) "rs0"))
    "rs1" "m1" 4%float.
Proof.
  apply (Add_other_replset (bcpNodesPriority examples.four_agents (score_default None))
           "rs1" "rs0" "m1" 4%float).
  discriminate.
Defined.

(** Two strictly descending lists of the same scores are the same list. *)
Lemma strictly_descending_unique (l1 l2 : list float) :
  strictly_descending l1 -> strictly_descending l2 -> Permutation l1 l2 -> l1 = l2.
Proof.
  unfold strictly_descending. revert l2.
  induction l1 as [|x l1 IH]; intros l2 H1 H2 Hperm.
  - apply Permutation_nil in Hperm. symmetry. exact Hperm.
  - destruct l2 as [|y l2]; [apply Permutation_sym, Permutation_nil in Hperm; discriminate|].
    apply StronglySorted_inv in H1. destruct H1 as [H1 Hx].
    apply StronglySorted_inv in H2. destruct H2 as [H2 Hy].
    assert (Hxy : x = y).
    { assert (Hin1 : In x (y :: l2)) by (apply (Permutation_in _ Hperm); left; reflexivity).
      assert (Hin2 : In y (x :: l1))
        by (apply (Permutation_in _ (Permutation_sym Hperm)); left; reflexivity).
      destruct Hin1 as [Heq|Hin1]; [symmetry; exact Heq|].
      destruct Hin2 as [Heq|Hin2]; [exact Heq|].
      rewrite List.Forall_forall in Hx, Hy.
      pose proof (Hx y Hin2) as Hlt1. pose proof (Hy x Hin1) as Hlt2.
      apply float_ltb_asym in Hlt1. congruence. }
    subst y. f_equal. apply IH; [exact H1|exact H2|].
    exact (Permutation_cons_inv Hperm).
Qed.

(** The sort of scores that are pairwise different and not NaN does not
    depend on the order they come in. *)
Lemma sort_Sort_canonical (l l' : list float) :
  Permutation l l' ->
  Forall (fun k => PrimFloat.is_nan k = false) l ->
  distinct_keys l ->
  sort_Sort Reverse_Less l = sort_Sort Reverse_Less l'.
Proof.
  intros Hperm Hnan Hd.
  assert (Hdesc : forall l0, Permutation l l0 -> strictly_descending (sort_Sort Reverse_Less l0)).
  { intros l0 Hp. apply sorted_strictly_descending.
    - eapply Permutation_Forall; [|exact Hnan].
      rewrite Hp. symmetry. apply sort_Sort_perm.
    - apply (distinct_keys_perm l); [|exact Hd].
      rewrite Hp. symmetry. apply sort_Sort_perm.
    - apply sort_Sort_sorted. }
  apply strictly_descending_unique.
  - apply Hdesc. reflexivity.
  - apply Hdesc. exact Hperm.
  - rewrite !sort_Sort_perm. exact Hperm.
Qed.

(** X21.  A call of [RS] between two calls of [Add] does no harm: [RS]
    leaves the index of the replica set sorted in place, and for scores that
    are not NaN a node added after that is grouped as if [RS] had not been
    called before. *)
Theorem RS_between_adds (agents : list AgentStat.t) (f : agentScore) (rs node : string)
    (sc : float) :
  Forall (fun p => PrimFloat.is_nan (snd p) = false) (healthy_adds rs agents f) ->
  PrimFloat.is_nan sc = false ->
  fst (NodesPriority.RS
         (NodesPriority.Add (snd (NodesPriority.RS (bcpNodesPriority agents f) rs))
            rs node sc) rs) =
  fst (NodesPriority.RS (NodesPriority.Add (bcpNodesPriority agents f) rs node sc) rs).
Proof.
  intros Hnan Hsc.
  pose proof (bcpNodesPriority_build agents f rs) as Hbuild.
  set (n := bcpNodesPriority agents f) in *.
  set (adds := healthy_adds rs agents f) in *.
  unfold NodesPriority.RS at 2.
  destruct (NodesPriority.m n !! rs) as [s|] eqn:Hs; [|reflexivity].
  simpl in Hbuild. subst s.
  cbn [nodeScores.list snd].
  unfold NodesPriority.RS, NodesPriority.Add. cbn [NodesPriority.m].
  rewrite !lookup_insert_eq, Hs. cbn [nodeScores.list fst].
  set (s0 := build adds).
  assert (Hm : nodeScores.m
                 (nodeScores.add
                    {| nodeScores.idx := sort_Sort Reverse_Less (nodeScores.idx s0);
                       nodeScores.m := nodeScores.m s0 |} node sc) =
               nodeScores.m (nodeScores.add s0 node sc)) by reflexivity.
  rewrite Hm. f_equal.
  symmetry. apply sort_Sort_canonical.
  - unfold nodeScores.add. cbn [nodeScores.idx nodeScores.m].
    destruct (scoremap_lookup (nodeScores.m s0) sc).
    + symmetry. apply sort_Sort_perm.
    + apply Permutation_app_tail. symmetry. apply sort_Sort_perm.
  - unfold s0. rewrite <- build_snoc. apply List.Forall_forall. intros k Hk.
    destruct (build_idx_In _ k Hk) as [nd Hnd].
    apply in_app_or in Hnd. destruct Hnd as [Hnd|[[= _ <-]|[]]]; [|exact Hsc].
    rewrite List.Forall_forall in Hnan. exact (Hnan (nd, k) Hnd).
  - unfold s0. rewrite <- build_snoc. apply build_idx_distinct.
Qed.

(** The four agents of rs0, grouped, and then a fifth node with the score
    of the primary. *)
Lemma RS_between_adds_witness :
  fst (NodesPriority.RS
         (NodesPriority.Add
            (snd (NodesPriority.RS
                    (bcpNodesPriority examples.four_agents (score_default None)) "rs0"))
            "rs0" "n5" 0.5%float) "rs0") =
  fst (NodesPriority.RS
         (NodesPriority.Add (bcpNodesPriority examples.four_agents (score_default None))
            "rs0" "n5" 0.5%float) "rs0").
Proof.
  apply (RS_between_adds examples.four_agents (score_default None) "rs0" "n5" 0.5%float).
  - repeat constructor.
  - reflexivity.
Defined.

(** Of the two nominations of rs0 in the backup, the first is returned. *)
Lemma GetRSNominees_first_witness :
  first_nominee (BackupMeta.Nomination examples.nominated) "rs0"
    {| BackupRsNomination.RS := "rs0"; BackupRsNomination.Nodes := ["n1"];
       BackupRsNomination.Ack := "n1" |}.
Proof.
  destruct (GetRSNominees_first examples.backup_store "backup1" "rs0") as [_ Hok].
  destruct (Hok examples.nominated) as [Hfirst _]; [reflexivity|].
  apply Hfirst. reflexivity.
Defined.

(** ** What a nil result of the convergence loops means *)

Section CommittedProps.
Context {St : Type} `{PBM St}.
Implicit Types (cn : St) (opid name : string) (status : Status).

(** X22.  When [convergeCluster] or [convergeClusterWithTimeout] returns nil
    and the context was not cancelled, the target status has been committed:
    the loop has made its one call of [ChangeRestoreState], with the target
    status and an empty message. *)
Theorem loops_nil_committed cn (log : list write_call) name opid (shards : list Shard.t)
    status (sched : list (event St)) :
  has_cancel sched = false ->
  (fst (convergeCluster (map logged_event sched) (cn, log) name opid shards status)
     = Some None ->
   snd (snd (convergeCluster (map logged_event sched) (cn, log) name opid shards status))
     = log ++ [(name, status, EmptyString)]) /\
  (fst (convergeClusterWithTimeout (map logged_event sched) (cn, log) name opid shards status)
     = Some None ->
   snd (snd (convergeClusterWithTimeout (map logged_event sched) (cn, log) name opid shards
               status))
     = log ++ [(name, status, EmptyString)]).
Proof.
  revert cn. induction sched as [|ev sched IH]; intros cn Hno.
  - split; discriminate.
  - destruct ev as [| | |f]; simpl in Hno; try discriminate Hno; simpl map;
      cbn [convergeCluster convergeClusterWithTimeout logged_event].
    + pose proof (converged_logged_call cn log name opid shards status) as Hcall.
      destruct (converged (cn, log) name opid shards status) as [[ok err] [cn' log']].
      cbn [fst snd] in Hcall.
      destruct Hcall as [[Hst Hok]|[Hlog [Hr|[e Hr]]]].
      * injection Hst as -> ->. subst ok.
        destruct err; [split; discriminate|]. exact (IH cn Hno).
      * injection Hr as -> ->. split; intros _; exact Hlog.
      * injection Hr as -> ->. split; discriminate.
    + split; [exact (proj1 (IH cn Hno))|discriminate].
    + exact (IH (f cn) Hno).
Qed.

End CommittedProps.

(** The three shards all report running with fresh locks: the first tick
    commits the status running. *)
Lemma loops_nil_committed_witness :
  (fst (convergeCluster (map logged_event [Tick]) (examples.all_running, [])
          "restore1" "op1" examples.three_shards "running") = Some None ->
   snd (snd (convergeCluster (map logged_event [Tick]) (examples.all_running, [])
               "restore1" "op1" examples.three_shards "running"))
     = [] ++ [("restore1", "running", EmptyString)]) /\
  (fst (convergeClusterWithTimeout (map logged_event [Tick]) (examples.all_running, [])
          "restore1" "op1" examples.three_shards "running") = Some None ->
   snd (snd (convergeClusterWithTimeout (map logged_event [Tick]) (examples.all_running, [])
               "restore1" "op1" examples.three_shards "running"))
     = [] ++ [("restore1", "running", EmptyString)]).
Proof.
  apply (loops_nil_committed examples.all_running [] "restore1" "op1" examples.three_shards
           "running" [Tick]).
  reflexivity.
Defined.
